(** * Selective persistence engine of akuri-oma-state-control

    A shallow embedding of [src/lib/session-storage/session-storage.model.ts].
    The source file carries two revisions of the class [SessionStorage]:

    - lines 1-368, embedded as module [RevA]: [set] fans out through
      [handlePermanentStorage], the orchestrator is the window-scoped bag
      [__ORCHESTRATOR_DATA__], [init] and [exit] delegate to [restore] and
      [clear];
    - lines 369-765, embedded as module [RevB]: [init], [restore] and [exit]
      take the orchestrator instance as an optional argument and keep the
      IDO payload in the durable backend.

    Both revisions run against the same browser state: the two [Storage]
    objects, the console and the state object the engine was built on. *)

From Stdlib Require Import ZArith Ascii String List DecimalString.
From stdpp Require Import base option list strings gmap fin_maps.

Local Open Scope string_scope.
#[local] Set Warnings "-register-all".

(** ** JavaScript values *)

(** A JSON tree, the range of [JSON.parse].  Numbers are integers: the
    claims never look inside a number. *)
Inductive json : Type :=
  | JNull
  | JBool (b : bool)
  | JNum (z : Z)
  | JStr (s : string)
  | JArr (items : list json)
  | JObj (fields : list (string * json)).

(** The values a caller can hand to the engine or keep in the state object:
    a JSON-representable tree, [undefined] (on which [JSON.stringify]
    answers [undefined]), or a value [JSON.stringify] throws on (a BigInt,
    an object graph with a cycle). *)
Inductive value : Type :=
  | Undefined
  | Unencodable
  | J (j : json).

Definition JS_null : value := J JNull.

(** [a ?? b] *)
Definition nullish (a b : value) : value :=
  match a with
  | Undefined | J JNull => b
  | _ => a
  end.

(** A property of the state object: a reactive cell (an object with a [set]
    method; the record of the writes it received, newest first, stands for
    the opaque cell) or a plain value. *)
Inductive cell : Type :=
  | Reactive (initial : value) (written : list value)
  | Plain (v : value).

(** The current value of a property: for a reactive cell the last value it
    received through [set] (its initial value before any), for a plain
    property the property itself. *)
Definition cell_read (c : cell) : value :=
  match c with
  | Reactive initial written => hd initial written
  | Plain v => v
  end.

(** [storeProperty.set(v)] *)
Definition cell_write (c : cell) (v : value) : cell :=
  match c with
  | Reactive initial written => Reactive initial (v :: written)
  | Plain _ => Plain v
  end.

(** The probe [storeProperty && typeof storeProperty === 'object' &&
    'set' in storeProperty && typeof storeProperty.set === 'function']. *)
Definition is_signal (p : option cell) : bool :=
  match p with
  | Some (Reactive _ _) => true
  | _ => false
  end.

(** [store[key] = v] when the probe fails, [store[key].set(v)] when it
    succeeds: the two branches every signal-aware method has. *)
Definition assign_or_write (p : option cell) (v : value) : cell :=
  match p with
  | Some (Reactive initial written) => Reactive initial (v :: written)
  | _ => Plain v
  end.

(** The value a caller observes for a property of the state object. *)
Definition container_value (p : option cell) : value :=
  match p with
  | Some c => cell_read c
  | None => Undefined
  end.

(** ** The JSON built-ins *)

(** [JSON.parse] and [JSON.stringify] belong to the runtime, not to the
    repository: the engine is stated over any codec.  [json_parse] answers
    [None] where [JSON.parse] throws a [SyntaxError]; neither the text
    [undefined] nor the empty text is JSON. *)
Class JSONCodec : Type := {
  json_parse : string → option json;
  json_print : json → string;
  json_parse_undefined : json_parse "undefined" = None;
  json_parse_empty : json_parse "" = None
}.

(** ** Browser state *)

Inductive diag : Type :=
  (* revision B *)
  | Error_parsing_stored_data
  | Warn_exit_keeping (propertyKey : string)
  | Warn_exit_removed (propertyKey : string)
  | Warn_exit_prepared_ido (idoProperty stateProperty : string)
  | Error_exit_storing_ido
  | Warn_init_no_permanent_config
  | Error_init_storing_local (key : string)
  | Error_init_storing_session (key : string)
  | Warn_init_skipping (key : string)
  | Error_init_storing_ido
  | Warn_restore_no_permanent_config
  | Error_restore_parsing_local (key : string)
  | Error_restore_parsing_session (key : string)
  | Error_restore_orchestrator_ido
  (* revision A *)
  | Error_failed_restore_session (key : string)
  | Log_restored_session (key : string)
  | Error_failed_restore_local (key : string)
  | Log_restored_local (key : string)
  | Log_restored_ido (iddKey : string)
  | Error_failed_restore_orchestrator (propertyKey : string)
  | Log_cleared (n : nat)
  | Log_persisted_local (key : string)
  | Log_transferred_ido (key orchestratorKey : string)
  | Error_failed_parse (key : string).

Inductive exn : Type :=
  | SyntaxError
  | TypeError.

(** Everything a method of the engine can read or change.  [store] is the
    state object [this.store]; the two backends are the [Storage] objects;
    [orchestrator_data] is [window.__ORCHESTRATOR_DATA__], an absent bag
    reading as the empty one ([|| {}]).  Enumerations ([Object.keys]) follow
    the map's own listing: no claim depends on their order. *)
Record world : Type := World {
  store : gmap string cell;
  sessionStorage : gmap string string;
  localStorage : gmap string string;
  orchestrator_data : gmap string value;
  console : list diag
}.

Definition set_store (f : gmap string cell → gmap string cell) (w : world) : world :=
  World (f (store w)) (sessionStorage w) (localStorage w) (orchestrator_data w) (console w).
Definition set_session (f : gmap string string → gmap string string) (w : world) : world :=
  World (store w) (f (sessionStorage w)) (localStorage w) (orchestrator_data w) (console w).
Definition set_local (f : gmap string string → gmap string string) (w : world) : world :=
  World (store w) (sessionStorage w) (f (localStorage w)) (orchestrator_data w) (console w).
Definition set_orchestrator_data (f : gmap string value → gmap string value) (w : world) : world :=
  World (store w) (sessionStorage w) (localStorage w) (f (orchestrator_data w)) (console w).
Definition emit (d : diag) (w : world) : world :=
  World (store w) (sessionStorage w) (localStorage w) (orchestrator_data w) (console w ++ [d]).

(** ** Commands: state and exceptions *)

Inductive outcome (A : Type) : Type :=
  | Ok (a : A) (w : world)
  | Thrown (e : exn) (w : world).
Arguments Ok {A} a w.
Arguments Thrown {A} e w.

Definition M (A : Type) : Type := world → outcome A.

Definition ret {A} (a : A) : M A := fun w => Ok a w.
Definition bind {A B} (m : M A) (k : A → M B) : M B :=
  fun w => match m w with
           | Ok a w' => k a w'
           | Thrown e w' => Thrown e w'
           end.
Definition throw {A} (e : exn) : M A := fun w => Thrown e w.
Definition gets {A} (f : world → A) : M A := fun w => Ok (f w) w.
Definition modify (f : world → world) : M unit := fun w => Ok tt (f w).

(** [try { body } catch (error) { handler }] *)
Definition try_catch {A} (body : M A) (handler : exn → M A) : M A :=
  fun w => match body w with
           | Ok a w' => Ok a w'
           | Thrown e w' => handler e w'
           end.

Declare Scope cmd_scope.
Delimit Scope cmd_scope with cmd.
Notation "x <- c1 ;; c2" := (bind c1 (fun x => c2))
  (at level 100, c1 at next level, right associativity) : cmd_scope.
Notation "c1 ;; c2" := (bind c1 (fun _ => c2))
  (at level 100, right associativity) : cmd_scope.
Local Open Scope cmd_scope.

(** [xs.forEach(f)] *)
Fixpoint forEach {A} (xs : list A) (f : A → M unit) : M unit :=
  match xs with
  | [] => ret tt
  | x :: rest => f x ;; forEach rest f
  end.

Definition when (b : bool) (c : M unit) : M unit := if b then c else ret tt.

Definition world_of {A} (o : outcome A) : world :=
  match o with
  | Ok _ w => w
  | Thrown _ w => w
  end.

Definition returns {A} (o : outcome A) : Prop :=
  match o with
  | Ok _ _ => True
  | Thrown _ _ => False
  end.

(** ** Storage and console primitives *)

Definition session_getItem (k : string) : M (option string) := gets (fun w => sessionStorage w !! k).
Definition session_setItem (k v : string) : M unit := modify (set_session (insert k v)).
Definition session_removeItem (k : string) : M unit := modify (set_session (delete k)).
Definition local_getItem (k : string) : M (option string) := gets (fun w => localStorage w !! k).
Definition local_setItem (k v : string) : M unit := modify (set_local (insert k v)).
Definition store_get (k : string) : M (option cell) := gets (fun w => store w !! k).
Definition store_put (k : string) (c : cell) : M unit := modify (set_store (insert k c)).
Definition store_delete (k : string) : M unit := modify (set_store (delete k)).
Definition console_emit (d : diag) : M unit := modify (emit d).

(** [Object.keys(m)] *)
Definition Object_keys {V} (m : gmap string V) : list string := (map_to_list m).*1.

(** ** String primitives *)

(** [s.startsWith(p)] *)
Definition startsWith (s p : string) : bool := String.prefix p s.

(** [s.substring(n)] *)
Fixpoint substring_from (n : nat) (s : string) : string :=
  match n, s with
  | O, _ => s
  | S n', String _ s' => substring_from n' s'
  | S _, EmptyString => EmptyString
  end.

(** [s.replace(p, '')] with a string pattern: the first occurrence goes. *)
Fixpoint replace_first_with_empty (p s : string) : string :=
  if String.prefix p s then substring_from (String.length p) s
  else match s with
       | EmptyString => EmptyString
       | String c s' => String c (replace_first_with_empty p s')
       end.

(** [s.replace(/-$/, '')] *)
Fixpoint strip_trailing_dash (s : string) : string :=
  match s with
  | EmptyString => EmptyString
  | String c EmptyString => if Ascii.eqb c "-" then EmptyString else s
  | String c s' => String c (strip_trailing_dash s')
  end.

Definition lower_ascii (c : ascii) : ascii :=
  let n := nat_of_ascii c in
  if andb (Nat.leb 65 n) (Nat.leb n 90) then ascii_of_nat (n + 32) else c.

(** [s.toLowerCase()], on ASCII text. *)
Fixpoint toLowerCase (s : string) : string :=
  match s with
  | EmptyString => EmptyString
  | String c s' => String (lower_ascii c) (toLowerCase s')
  end.

(** ** Configuration and instances *)

(** [PermanentConfig]: three optional fields; [ido] is listed as
    [Object.entries] lists it. *)
Record PermanentConfig : Type := {
  cfg_localStorage : option (list string);
  cfg_sessionStorage : option (list string);
  cfg_ido : option (list (string * string))
}.

(** The destructuring defaults [= []] and [= {}]. *)
Definition localStorageKeys (c : PermanentConfig) : list string := default [] (cfg_localStorage c).
Definition sessionStorageKeys (c : PermanentConfig) : list string := default [] (cfg_sessionStorage c).
Definition ido (c : PermanentConfig) : list (string * string) := default [] (cfg_ido c).

(** An instance of [SessionStorage]: its prefix and configuration.  The state
    object of the instance under study is [store] of the world. *)
Record SessionStorage : Type := {
  KEY_PREFIX : string;
  permanent : option PermanentConfig
}.

(** [xs.includes(k)] *)
Definition includes (xs : list string) (k : string) : bool := bool_decide (k ∈ xs).

(** [`${orchestratorStorage.KEY_PREFIX}${featureName}Ido`] *)
Definition orchestratorIdoKey (this orchestratorStorage : SessionStorage) : string :=
  let featureName := toLowerCase (strip_trailing_dash (KEY_PREFIX this)) in
  KEY_PREFIX orchestratorStorage ++ featureName ++ "Ido".

(** The same instance with no shared tier declared: what a call without an
    orchestrator is compared with. *)
Definition without_shared (this : SessionStorage) : SessionStorage :=
  {| KEY_PREFIX := KEY_PREFIX this;
     permanent :=
       (fun p => {| cfg_localStorage := cfg_localStorage p;
                    cfg_sessionStorage := cfg_sessionStorage p;
                    cfg_ido := None |}) <$> permanent this |}.

(** ** JavaScript operations the engine calls *)

Section Builtins.
Context `{JSONCodec}.

(** [JSON.parse(s)] *)
Definition JSON_parse (s : string) : M json :=
  match json_parse s with
  | Some j => ret j
  | None => throw SyntaxError
  end.

(** [JSON.stringify(v)]: a string, [undefined], or a [TypeError]. *)
Definition JSON_stringify (v : value) : M (option string) :=
  match v with
  | J j => ret (Some (json_print j))
  | Undefined => ret None
  | Unencodable => throw TypeError
  end.

(** The fields [JSON.stringify] keeps of an object assembled by the engine:
    [undefined] fields are skipped, an unencodable one makes it throw. *)
Fixpoint encodable_fields (fields : list (string * value)) : option (list (string * json)) :=
  match fields with
  | [] => Some []
  | (k, Undefined) :: rest => encodable_fields rest
  | (k, Unencodable) :: rest => None
  | (k, J j) :: rest => cons (k, j) <$> encodable_fields rest
  end.

(** [JSON.stringify(idoData)] *)
Definition JSON_stringify_object (fields : list (string * value)) : M (option string) :=
  match encodable_fields fields with
  | Some fs => ret (Some (json_print (JObj fs)))
  | None => throw TypeError
  end.

End Builtins.

(** [String(x)] as [Storage.setItem] applies it to its second argument. *)
Definition String_of (x : option string) : string := default "undefined" x.

(** What [getAll] reports for a key of the state object, read off its
    ephemeral entry: the parsed value, unless the entry is missing, holds
    the text [undefined], does not parse, or parses to [null]. *)
Definition reported `{JSONCodec} (entry : option string) : option value :=
  match entry with
  | None => None
  | Some s =>
      if String.eqb s "undefined" then None
      else match json_parse s with
           | None | Some JNull => None
           | Some j => Some (J j)
           end
  end.

(** What [Storage.setItem(k, JSON.stringify(v))] stores for a value
    [JSON.stringify] does not throw on. *)
Definition stored_text `{JSONCodec} (v : value) : string :=
  match v with
  | J j => json_print j
  | Undefined | Unencodable => "undefined"
  end.

(** A JavaScript string in a condition: the empty string is falsy. *)
Definition truthy (s : string) : bool := negb (String.eqb s "").

(** Own properties of an object literal or of a parsed object. *)
Fixpoint assoc {V} (k : string) (l : list (string * V)) : option V :=
  match l with
  | [] => None
  | (k', v) :: rest => if String.eqb k' k then Some v else assoc k rest
  end.

(** [obj[k] = v] *)
Fixpoint assoc_set {V} (k : string) (v : V) (l : list (string * V)) : list (string * V) :=
  match l with
  | [] => [(k, v)]
  | (k', v') :: rest => if String.eqb k' k then (k, v) :: rest else (k', v') :: assoc_set k v rest
  end.

Definition digit_of (c : ascii) : option nat :=
  let n := nat_of_ascii c in
  if andb (Nat.leb 48 n) (Nat.leb n 57) then Some (n - 48) else None.

Fixpoint digits_value (acc : nat) (s : string) : option nat :=
  match s with
  | EmptyString => Some acc
  | String c s' =>
      match digit_of c with
      | Some d => digits_value (10 * acc + d) s'
      | None => None
      end
  end.

(** A property name that is an array index: decimal, no leading zero. *)
Definition canonical_index (s : string) : option nat :=
  match s with
  | EmptyString => None
  | String c EmptyString => digit_of c
  | String c _ => if Ascii.eqb c "0" then None else digits_value 0 s
  end.

(** [o[p]] on a parsed JSON value: own properties, array and string indices
    and [length]; reading a property of [null] throws.  Names inherited from
    the prototypes ([toString], [constructor]) are not modelled. *)
Definition member (o : json) (p : string) : M value :=
  match o with
  | JNull => throw TypeError
  | JObj fields =>
      ret (match assoc p fields with Some j => J j | None => Undefined end)
  | JArr items =>
      if String.eqb p "length" then ret (J (JNum (Z.of_nat (length items))))
      else ret (match canonical_index p with
                | Some i => match items !! i with Some j => J j | None => Undefined end
                | None => Undefined
                end)
  | JStr s =>
      if String.eqb p "length" then ret (J (JNum (Z.of_nat (String.length s))))
      else ret (match canonical_index p with
                | Some i => match String.get i s with
                            | Some c => J (JStr (String c EmptyString))
                            | None => Undefined
                            end
                | None => Undefined
                end)
  | JBool _ | JNum _ => ret Undefined
  end.

(** [storeProperty.set(v)] on the cell held under [key]. *)
Definition signal_set (storeProperty : option cell) (key : string) (v : value) : M unit :=
  match storeProperty with
  | Some c => store_put key (cell_write c v)
  | None => ret tt
  end.

(** [storeProperty !== undefined && storeProperty !== null] *)
Definition is_present (storeProperty : option cell) : bool :=
  match storeProperty with
  | None | Some (Plain Undefined) | Some (Plain (J JNull)) => false
  | Some _ => true
  end.

(** The unwrapping [init] performs: [storeProperty()] when the probe
    succeeds, the property itself otherwise.  The probe has just found
    [typeof storeProperty] to be ['object'], so the property is not a
    function and the call throws a [TypeError]. *)
Definition valueToStore (storeProperty : option cell) : M value :=
  if is_signal storeProperty then throw TypeError
  else ret (container_value storeProperty).

Fixpoint foldM {A S} (xs : list A) (f : S → A → M S) (s : S) : M S :=
  match xs with
  | [] => ret s
  | x :: rest => s' <- f s x ;; foldM rest f s'
  end.

(** ** Revision B (lines 369-765): explicit orchestrator argument *)

Module RevB.
Section Engine.
Context `{JSONCodec}.
Variable this : SessionStorage.

Definition set (key : string) (value : value) : M unit :=
  storeProperty <- store_get key ;;
  if is_signal storeProperty then
    (signal_set storeProperty key value ;;
     serializedValue <- JSON_stringify value ;;
     session_setItem (KEY_PREFIX this ++ key) (String_of serializedValue))
  else
    (serializedValue <- JSON_stringify value ;;
     session_setItem (KEY_PREFIX this ++ key) (String_of serializedValue) ;;
     store_put key (Plain value)).

Definition get (key : string) (defaultValue : value) : M value :=
  item <- session_getItem (KEY_PREFIX this ++ key) ;;
  match item with
  | None => ret (nullish defaultValue JS_null)
  | Some item =>
      if String.eqb item "undefined" then ret (nullish defaultValue JS_null)
      else
        try_catch
          (parsedValue <- JSON_parse item ;;
           storeProperty <- store_get key ;;
           if is_signal storeProperty then
             (signal_set storeProperty key (J parsedValue) ;;
              ret (J parsedValue))
           else
             (store_put key (Plain (J parsedValue)) ;;
              ret (J parsedValue)))
          (fun error =>
             console_emit Error_parsing_stored_data ;;
             ret (nullish defaultValue JS_null))
  end.

Definition remove (key : string) : M unit :=
  session_removeItem (KEY_PREFIX this ++ key) ;;
  store_delete key.

Definition getAll : M (list (string * value)) :=
  keys <- gets (fun w => Object_keys (store w)) ;;
  foldM keys
    (fun result key =>
       value <- get key Undefined ;;
       match value with
       | J JNull => ret result
       | _ => ret (assoc_set key value result)
       end)
    [].

(** [setAll()].  In the branch of the probe the source evaluates
    [storeProperty()]; the probe has just found [typeof storeProperty] to be
    ['object'], so the property is not a function and the call throws a
    [TypeError], which nothing in [setAll] catches. *)
Definition setAll : M unit :=
  keys <- gets (fun w => Object_keys (store w)) ;;
  forEach keys
    (fun key =>
       storeProperty <- store_get key ;;
       if is_signal storeProperty then throw TypeError
       else set key (container_value storeProperty)).

Definition removeAll : M unit :=
  keys <- gets (fun w => Object_keys (sessionStorage w)) ;;
  forEach keys
    (fun key => when (startsWith key (KEY_PREFIX this)) (session_removeItem key)) ;;
  storeKeys <- gets (fun w => Object_keys (store w)) ;;
  forEach storeKeys (fun key => store_delete key).

(** The callback of [allKeys.forEach] in [exit]. *)
Definition exit_key (p : PermanentConfig) (fullKey : string) : M unit :=
  let propertyKey := replace_first_with_empty (KEY_PREFIX this) fullKey in
  if includes (localStorageKeys p) propertyKey then
    (value <- session_getItem fullKey ;;
     match value with
     | Some value => local_setItem fullKey value
     | None => ret tt
     end ;;
     session_removeItem fullKey)
  else if includes (sessionStorageKeys p) propertyKey then
    console_emit (Warn_exit_keeping propertyKey)
  else
    (session_removeItem fullKey ;;
     console_emit (Warn_exit_removed propertyKey)).

(** [try { localStorage.setItem(orchestratorIdoKey, JSON.stringify(idoData)) }
    catch (error) { console.error(...) }], shared by [exit] and [init]. *)
Definition store_ido (orchestratorStorage : SessionStorage)
    (idoData : list (string * value)) (on_error : diag) : M unit :=
  match idoData with
  | [] => ret tt
  | _ :: _ =>
      try_catch
        (serialized <- JSON_stringify_object idoData ;;
         local_setItem (orchestratorIdoKey this orchestratorStorage) (String_of serialized))
        (fun error => console_emit on_error)
  end.

(** The block [if (Object.keys(ido).length > 0 && orchestratorStorage)] of
    [exit]. *)
Definition exit_ido (p : PermanentConfig) (orchestratorStorage : option SessionStorage) : M unit :=
  match ido p, orchestratorStorage with
  | _ :: _, Some orchestratorStorage =>
      idoData <- foldM (ido p)
        (fun idoData entry =>
           let '(stateProperty, idoProperty) := entry in
           value <- get stateProperty Undefined ;;
           match value with
           | J JNull | Undefined => ret idoData
           | _ =>
               console_emit (Warn_exit_prepared_ido idoProperty stateProperty) ;;
               ret (assoc_set idoProperty value idoData)
           end)
        [] ;;
      store_ido orchestratorStorage idoData Error_exit_storing_ido
  | _, _ => ret tt
  end.

Definition exit (orchestratorStorage : option SessionStorage) : M unit :=
  match permanent this with
  | None => removeAll
  | Some p =>
      allKeys <- gets (fun w =>
        List.filter (fun key => startsWith key (KEY_PREFIX this))
                    (Object_keys (sessionStorage w))) ;;
      forEach allKeys (exit_key p) ;;
      exit_ido p orchestratorStorage ;;
      storeKeys <- gets (fun w => Object_keys (store w)) ;;
      forEach storeKeys
        (fun key =>
           when (negb (includes (localStorageKeys p) key)
                 && negb (includes (sessionStorageKeys p) key))
                (store_delete key))
  end.

(** The callback of [localStorageKeys.forEach] in [init]. *)
Definition init_local_key (key : string) : M unit :=
  storeProperty <- store_get key ;;
  when (is_present storeProperty)
    (value <- valueToStore storeProperty ;;
     try_catch
       (serializedValue <- JSON_stringify value ;;
        local_setItem (KEY_PREFIX this ++ key) (String_of serializedValue))
       (fun error => console_emit (Error_init_storing_local key))).

(** The callback of [sessionStorageKeys.forEach] in [init]. *)
Definition init_session_key (key : string) : M unit :=
  storeProperty <- store_get key ;;
  if is_present storeProperty then
    (value <- valueToStore storeProperty ;;
     try_catch
       (serializedValue <- JSON_stringify value ;;
        session_setItem (KEY_PREFIX this ++ key) (String_of serializedValue))
       (fun error => console_emit (Error_init_storing_session key)))
  else console_emit (Warn_init_skipping key).

(** The IDO block of [init]. *)
Definition init_ido (p : PermanentConfig) (orchestratorStorage : option SessionStorage) : M unit :=
  match ido p, orchestratorStorage with
  | _ :: _, Some orchestratorStorage =>
      idoData <- foldM (ido p)
        (fun idoData entry =>
           let '(stateProperty, idoProperty) := entry in
           storeProperty <- store_get stateProperty ;;
           if is_present storeProperty
           then (value <- valueToStore storeProperty ;;
                 ret (assoc_set idoProperty value idoData))
           else ret idoData)
        [] ;;
      store_ido orchestratorStorage idoData Error_init_storing_ido
  | _, _ => ret tt
  end.

Definition init (orchestratorStorage : option SessionStorage) : M unit :=
  match permanent this with
  | None => console_emit Warn_init_no_permanent_config
  | Some p =>
      forEach (localStorageKeys p) init_local_key ;;
      forEach (sessionStorageKeys p) init_session_key ;;
      init_ido p orchestratorStorage
  end.

(** The callback of [localStorageKeys.forEach] in [restore]. *)
Definition restore_local_key (key : string) : M unit :=
  let fullKey := KEY_PREFIX this ++ key in
  value <- local_getItem fullKey ;;
  match value with
  | None => ret tt
  | Some value =>
      when (negb (String.eqb value "undefined"))
        (try_catch
           (session_setItem fullKey value ;;
            parsedValue <- JSON_parse value ;;
            store_put key (Plain (J parsedValue)))
           (fun error => console_emit (Error_restore_parsing_local key)))
  end.

(** The callback of [sessionStorageKeys.forEach] in [restore]. *)
Definition restore_session_key (key : string) : M unit :=
  let fullKey := KEY_PREFIX this ++ key in
  value <- session_getItem fullKey ;;
  match value with
  | None => ret tt
  | Some value =>
      when (negb (String.eqb value "undefined"))
        (try_catch
           (parsedValue <- JSON_parse value ;;
            store_put key (Plain (J parsedValue)))
           (fun error => console_emit (Error_restore_parsing_session key)))
  end.

(** The callback of [Object.entries(ido).forEach] in [restore]. *)
Definition restore_ido_entry (idoData : json) (entry : string * string) : M unit :=
  let '(stateProperty, idoProperty) := entry in
  v <- member idoData idoProperty ;;
  match v with
  | Undefined => ret tt
  | _ =>
      store_put stateProperty (Plain v) ;;
      serialized <- JSON_stringify v ;;
      session_setItem (KEY_PREFIX this ++ stateProperty) (String_of serialized)
  end.

(** The IDO block of [restore]. *)
Definition restore_ido (p : PermanentConfig) (orchestratorStorage : option SessionStorage) : M unit :=
  match ido p, orchestratorStorage with
  | _ :: _, Some orchestratorStorage =>
      try_catch
        (idoDataStr <- local_getItem (orchestratorIdoKey this orchestratorStorage) ;;
         match idoDataStr with
         | None => ret tt
         | Some idoDataStr =>
             when (truthy idoDataStr && negb (String.eqb idoDataStr "undefined"))
               (idoData <- JSON_parse idoDataStr ;;
                forEach (ido p) (restore_ido_entry idoData))
         end)
        (fun error => console_emit Error_restore_orchestrator_ido)
  | _, _ => ret tt
  end.

Definition restore (orchestratorStorage : option SessionStorage) : M unit :=
  match permanent this with
  | None => console_emit Warn_restore_no_permanent_config
  | Some p =>
      forEach (localStorageKeys p) restore_local_key ;;
      forEach (sessionStorageKeys p) restore_session_key ;;
      restore_ido p orchestratorStorage
  end.

End Engine.
End RevB.

(** ** Revision A (lines 1-368): ambient orchestrator bag *)

Module RevA.
Section Engine.
Context `{JSONCodec}.
Variable this : SessionStorage.

(** [window.__ORCHESTRATOR_DATA__[key] = value] *)
Definition setOrchestratorData (key : string) (value : value) : M unit :=
  modify (set_orchestrator_data (insert key value)).

(** [window.__ORCHESTRATOR_DATA__ || {}] *)
Definition getOrchestratorData : M (gmap string value) :=
  gets orchestrator_data.

Definition handlePermanentStorage (key : string) (value : value) : M unit :=
  match permanent this with
  | None => ret tt
  | Some p =>
      match cfg_localStorage p with
      | Some keys =>
          when (includes keys key)
            (serializedValue <- JSON_stringify value ;;
             local_setItem (KEY_PREFIX this ++ key) (String_of serializedValue) ;;
             console_emit (Log_persisted_local key))
      | None => ret tt
      end ;;
      match cfg_ido p with
      | Some mapping =>
          match assoc key mapping with
          | Some orchestratorKey =>
              when (truthy orchestratorKey)
                (setOrchestratorData orchestratorKey value ;;
                 console_emit (Log_transferred_ido key orchestratorKey))
          | None => ret tt
          end
      | None => ret tt
      end
  end.

Definition set (key : string) (value : value) : M unit :=
  storeProperty <- store_get key ;;
  (if is_signal storeProperty then
     (signal_set storeProperty key value ;;
      serializedValue <- JSON_stringify value ;;
      session_setItem (KEY_PREFIX this ++ key) (String_of serializedValue))
   else
     (serializedValue <- JSON_stringify value ;;
      session_setItem (KEY_PREFIX this ++ key) (String_of serializedValue) ;;
      store_put key (Plain value))) ;;
  handlePermanentStorage key value.

(** The body shared by the three storage loops of [restore]: parse, then
    write the cell or assign the property, then the loop's own log line. *)
Definition restore_parsed (key storedValue : string) (on_success : M unit) (on_error : diag) : M unit :=
  try_catch
    (parsedValue <- JSON_parse storedValue ;;
     storeProperty <- store_get key ;;
     (if is_signal storeProperty then signal_set storeProperty key (J parsedValue)
      else store_put key (Plain (J parsedValue))) ;;
     on_success)
    (fun error => console_emit on_error).

(** First loop: every key of the state object, from [sessionStorage]. *)
Definition restore_store_key (key : string) : M unit :=
  storedValue <- session_getItem (KEY_PREFIX this ++ key) ;;
  match storedValue with
  | Some storedValue =>
      restore_parsed key storedValue (ret tt) (Error_failed_restore_session key)
  | None => ret tt
  end.

(** Second loop: [permanent.sessionStorage]. *)
Definition restore_session_key (key : string) : M unit :=
  storedValue <- session_getItem (KEY_PREFIX this ++ key) ;;
  match storedValue with
  | Some storedValue =>
      restore_parsed key storedValue (console_emit (Log_restored_session key))
        (Error_failed_restore_session key)
  | None => ret tt
  end.

(** Third loop: [permanent.localStorage]. *)
Definition restore_local_key (key : string) : M unit :=
  storedValue <- local_getItem (KEY_PREFIX this ++ key) ;;
  match storedValue with
  | Some storedValue =>
      restore_parsed key storedValue (console_emit (Log_restored_local key))
        (Error_failed_restore_local key)
  | None => ret tt
  end.

(** Fourth loop: [Object.entries(permanent.ido)]. *)
Definition restore_ido_entry (entry : string * string) : M unit :=
  let '(propertyKey, iddKey) := entry in
  try_catch
    (orchestratorData <- getOrchestratorData ;;
     match orchestratorData !! iddKey with
     | None | Some Undefined => ret tt
     | Some iddValue =>
         storeProperty <- store_get propertyKey ;;
         (if is_signal storeProperty then signal_set storeProperty propertyKey iddValue
          else store_put propertyKey (Plain iddValue)) ;;
         console_emit (Log_restored_ido iddKey)
     end)
    (fun error => console_emit (Error_failed_restore_orchestrator propertyKey)).

Definition restore : M unit :=
  keys <- gets (fun w => Object_keys (store w)) ;;
  forEach keys restore_store_key ;;
  match permanent this with
  | Some p =>
      match cfg_sessionStorage p with
      | Some keys => forEach keys restore_session_key
      | None => ret tt
      end ;;
      match cfg_localStorage p with
      | Some keys => forEach keys restore_local_key
      | None => ret tt
      end ;;
      match cfg_ido p with
      | Some mapping => forEach mapping restore_ido_entry
      | None => ret tt
      end
  | None => ret tt
  end.

Definition getStoredKeys : M (list string) :=
  gets (fun w =>
    (fun key => substring_from (String.length (KEY_PREFIX this)) key) <$>
    List.filter (fun key => truthy key && startsWith key (KEY_PREFIX this))
                (Object_keys (sessionStorage w))).

Definition clear : M unit :=
  storedKeys <- getStoredKeys ;;
  forEach storedKeys (fun key => session_removeItem (KEY_PREFIX this ++ key)) ;;
  console_emit (Log_cleared (length storedKeys)).

Definition get (key : string) (defaultValue : value) : M value :=
  storedValue <- session_getItem (KEY_PREFIX this ++ key) ;;
  match storedValue with
  | None => ret defaultValue
  | Some storedValue =>
      try_catch
        (parsedValue <- JSON_parse storedValue ;; ret (J parsedValue))
        (fun error => console_emit (Error_failed_parse key) ;; ret defaultValue)
  end.

Definition remove (key : string) : M unit :=
  session_removeItem (KEY_PREFIX this ++ key).

Definition removeAll : M unit := clear.

Definition getAll : M (list (string * value)) :=
  keys <- gets (fun w => Object_keys (store w)) ;;
  foldM keys
    (fun result key =>
       value <- get key Undefined ;;
       match value with
       | Undefined => ret result
       | _ => ret (assoc_set key value result)
       end)
    [].

Definition init (orchestratorStorage : option SessionStorage) : M unit := restore.

Definition exit (orchestratorStorage : option SessionStorage) : M unit := clear.

End Engine.
End RevA.

(** ** A codec to run the engine on *)

(** A printer and a recursive-descent parser for the JSON texts built from
    [null], [true], [false], integers, strings with the escapes of the quote
    and the backslash, arrays and objects.  On these texts they agree with
    [JSON.stringify] and [JSON.parse]. *)
Module MiniJSON.

Definition dquote : ascii := ascii_of_nat 34.
Definition backslash : ascii := ascii_of_nat 92.

Fixpoint escape (s : string) : string :=
  match s with
  | EmptyString => EmptyString
  | String c s' =>
      if Ascii.eqb c dquote || Ascii.eqb c backslash
      then String backslash (String c (escape s'))
      else String c (escape s')
  end.

Definition quote (s : string) : string :=
  String dquote (escape s ++ String dquote EmptyString).

Definition print_Z (z : Z) : string := NilZero.string_of_int (Z.to_int z).

Fixpoint join (sep : string) (l : list string) : string :=
  match l with
  | [] => ""
  | [x] => x
  | x :: rest => x ++ sep ++ join sep rest
  end.

Fixpoint print (j : json) : string :=
  match j with
  | JNull => "null"
  | JBool true => "true"
  | JBool false => "false"
  | JNum z => print_Z z
  | JStr s => quote s
  | JArr items => "[" ++ join "," (List.map print items) ++ "]"
  | JObj fields =>
      "{" ++ join "," (List.map (fun kv => quote (fst kv) ++ ":" ++ print (snd kv)) fields) ++ "}"
  end.

Definition is_ws (c : ascii) : bool :=
  let n := nat_of_ascii c in
  Nat.eqb n 32 || Nat.eqb n 9 || Nat.eqb n 10 || Nat.eqb n 13.

Fixpoint skip_ws (s : string) : string :=
  match s with
  | EmptyString => EmptyString
  | String c s' => if is_ws c then skip_ws s' else s
  end.

(** The text after an opening quote: the string read and what follows the
    closing quote. *)
Fixpoint parse_string_body (s : string) : option (string * string) :=
  match s with
  | EmptyString => None
  | String c s' =>
      if Ascii.eqb c dquote then Some (EmptyString, s')
      else if Ascii.eqb c backslash then
        match s' with
        | String e s'' =>
            if Ascii.eqb e dquote || Ascii.eqb e backslash
            then match parse_string_body s'' with
                 | Some (r, rest) => Some (String e r, rest)
                 | None => None
                 end
            else None
        | EmptyString => None
        end
      else if Nat.ltb (nat_of_ascii c) 32 then None
      else match parse_string_body s' with
           | Some (r, rest) => Some (String c r, rest)
           | None => None
           end
  end.

Fixpoint take_digits (acc : N) (s : string) : N * string :=
  match s with
  | EmptyString => (acc, EmptyString)
  | String c s' =>
      match digit_of c with
      | Some d => take_digits (10 * acc + N.of_nat d) s'
      | None => (acc, s)
      end
  end.

Definition parse_number (s : string) : option (Z * string) :=
  let '(negative, s1) :=
    match s with
    | String c s' => if Ascii.eqb c "-" then (true, s') else (false, s)
    | EmptyString => (false, s)
    end in
  match s1 with
  | EmptyString => None
  | String c s2 =>
      match digit_of c with
      | None => None
      | Some O => Some (0%Z, s2)
      | Some d =>
          let '(n, rest) := take_digits (N.of_nat d) s2 in
          Some (if negative then (- Z.of_N n)%Z else Z.of_N n, rest)
      end
  end.

Definition literal (lit : string) (j : json) (s : string) : option (json * string) :=
  if String.prefix lit s then Some (j, substring_from (String.length lit) s) else None.

(** Duplicate names: the last value, at the place of the first. *)
Definition normalize_fields (fs : list (string * json)) : list (string * json) :=
  fold_left (fun acc kv => assoc_set (fst kv) (snd kv) acc) fs [].

Fixpoint parse_value (fuel : nat) (s : string) {struct fuel} : option (json * string) :=
  match fuel with
  | O => None
  | S fuel' =>
      match skip_ws s with
      | EmptyString => None
      | String c rest as s0 =>
          if Ascii.eqb c "n" then literal "null" JNull s0
          else if Ascii.eqb c "t" then literal "true" (JBool true) s0
          else if Ascii.eqb c "f" then literal "false" (JBool false) s0
          else if Ascii.eqb c dquote then
            match parse_string_body rest with
            | Some (str, r) => Some (JStr str, r)
            | None => None
            end
          else if Ascii.eqb c "[" then
            match skip_ws rest with
            | String c' r' as rest' =>
                if Ascii.eqb c' "]" then Some (JArr [], r')
                else match parse_items fuel' rest' with
                     | Some (items, r) => Some (JArr items, r)
                     | None => None
                     end
            | EmptyString => None
            end
          else if Ascii.eqb c "{" then
            match skip_ws rest with
            | String c' r' as rest' =>
                if Ascii.eqb c' "}" then Some (JObj [], r')
                else match parse_fields fuel' rest' with
                     | Some (fields, r) => Some (JObj (normalize_fields fields), r)
                     | None => None
                     end
            | EmptyString => None
            end
          else
            match parse_number s0 with
            | Some (z, r) => Some (JNum z, r)
            | None => None
            end
      end
  end
with parse_items (fuel : nat) (s : string) {struct fuel} : option (list json * string) :=
  match fuel with
  | O => None
  | S fuel' =>
      match parse_value fuel' s with
      | Some (j, r) =>
          match skip_ws r with
          | String c r' =>
              if Ascii.eqb c "," then
                match parse_items fuel' r' with
                | Some (js, r'') => Some (j :: js, r'')
                | None => None
                end
              else if Ascii.eqb c "]" then Some ([j], r')
              else None
          | EmptyString => None
          end
      | None => None
      end
  end
with parse_fields (fuel : nat) (s : string) {struct fuel} : option (list (string * json) * string) :=
  match fuel with
  | O => None
  | S fuel' =>
      match skip_ws s with
      | String q r0 =>
          if Ascii.eqb q dquote then
            match parse_string_body r0 with
            | Some (k, r1) =>
                match skip_ws r1 with
                | String colon r2 =>
                    if Ascii.eqb colon ":" then
                      match parse_value fuel' r2 with
                      | Some (j, r3) =>
                          match skip_ws r3 with
                          | String c r4 =>
                              if Ascii.eqb c "," then
                                match parse_fields fuel' r4 with
                                | Some (fs, r5) => Some ((k, j) :: fs, r5)
                                | None => None
                                end
                              else if Ascii.eqb c "}" then Some ([(k, j)], r4)
                              else None
                          | EmptyString => None
                          end
                      | None => None
                      end
                    else None
                | EmptyString => None
                end
            | None => None
            end
          else None
      | EmptyString => None
      end
  end.

Definition parse (s : string) : option json :=
  match parse_value (2 * String.length s + 2) s with
  | Some (j, rest) =>
      match skip_ws rest with
      | EmptyString => Some j
      | String _ _ => None
      end
  | None => None
  end.

Definition codec : JSONCodec :=
  {| json_parse := parse; json_print := print;
     json_parse_undefined := eq_refl; json_parse_empty := eq_refl |}.

End MiniJSON.

(** ** The scenario of the repository's tests *)

(** [session-storage.restore.spec.ts]: the feature [AUTH-] with [login] in
    the durable tier, [profile] and [phone] in the ephemeral tier and
    [phone] shared as [userPhones]; the orchestrator [ORCH-]. *)
Module Scenario.

Definition config : PermanentConfig :=
  {| cfg_localStorage := Some ["login"];
     cfg_sessionStorage := Some ["profile"; "phone"];
     cfg_ido := Some [("phone", "userPhones")] |}.

Definition auth : SessionStorage := {| KEY_PREFIX := "AUTH-"; permanent := Some config |}.
Definition auth_unconfigured : SessionStorage := {| KEY_PREFIX := "AUTH-"; permanent := None |}.
Definition orchestrator : SessionStorage := {| KEY_PREFIX := "ORCH-"; permanent := None |}.

Definition profile_1 : json := JObj [("id", JNum 1)].
Definition phone_local : json := JObj [("number", JNum 9876543210)].
Definition phones_ido : json := JObj [("main", JStr "+1")].
Definition ido_record : json := JObj [("userPhones", phones_ido)].
Definition login_token : json := JObj [("token", JStr "abc")].

Definition initial_store : gmap string cell :=
  {[ "profile" := Reactive (J JNull) [];
     "phone" := Plain (J JNull);
     "login" := Plain (J JNull) ]}.

(** Every tier seeded, the ephemeral value of [phone] differing from the
    orchestrator's. *)
Definition seeded : world :=
  World initial_store
    {[ "AUTH-profile" := MiniJSON.print profile_1;
       "AUTH-phone" := MiniJSON.print phone_local ]}
    {[ "AUTH-login" := MiniJSON.print login_token;
       "ORCH-authIdo" := MiniJSON.print ido_record ]}
    ∅ [].

(** The ephemeral entry of [phone] corrupted. *)
Definition corrupted : world :=
  World initial_store
    {[ "AUTH-profile" := MiniJSON.print profile_1;
       "AUTH-phone" := "{invalid json}" ]}
    ∅ ∅ [].

(** The durable entry of [login] corrupted. *)
Definition corrupted_durable : world :=
  World initial_store ∅ {[ "AUTH-login" := "{invalid json}" ]} ∅ [].

(** The ephemeral entry of [profile] holding the text [null]. *)
Definition null_text : world :=
  World {[ "profile" := Plain (J (JNum 1)) ]} {[ "AUTH-profile" := "null" ]} ∅ ∅ [].

(** The seeded world of revision A: the orchestrator's value sits in the
    ambient bag. *)
Definition ambient_seeded : world :=
  World initial_store
    {[ "AUTH-profile" := MiniJSON.print profile_1;
       "AUTH-phone" := MiniJSON.print phone_local ]}
    {[ "AUTH-login" := MiniJSON.print login_token ]}
    {[ "userPhones" := J phones_ido ]} [].

(** [login] holding a value [JSON.stringify] throws on. *)
Definition unencodable_login : world :=
  World {[ "login" := Plain Unencodable ]} ∅ ∅ ∅ [].

(** A session at work: every property set, [draft] in no tier, nothing in
    the durable backend yet. *)
Definition draft_text : json := JStr "x".

Definition working : world :=
  World
    {[ "profile" := Plain (J profile_1);
       "phone" := Plain (J phone_local);
       "login" := Plain (J login_token);
       "draft" := Plain (J draft_text) ]}
    {[ "AUTH-profile" := MiniJSON.print profile_1;
       "AUTH-phone" := MiniJSON.print phone_local;
       "AUTH-login" := MiniJSON.print login_token;
       "AUTH-draft" := MiniJSON.print draft_text ]}
    ∅ ∅ [].

(** A configuration whose shared property is durable, not ephemeral. *)
Definition config_durable_shared : PermanentConfig :=
  {| cfg_localStorage := Some ["login"];
     cfg_sessionStorage := Some ["profile"];
     cfg_ido := Some [("login", "userLogin")] |}.

Definition auth_durable_shared : SessionStorage :=
  {| KEY_PREFIX := "AUTH-"; permanent := Some config_durable_shared |}.

(** The shared property [phone] holding a value [JSON.stringify] throws on. *)
Definition unencodable_phone : world :=
  World {[ "phone" := Plain Unencodable; "login" := Plain (J login_token) ]} ∅ ∅ ∅ [].

(** The orchestrator's record corrupted. *)
Definition corrupted_record : world :=
  World initial_store
    {[ "AUTH-profile" := MiniJSON.print profile_1 ]}
    {[ "ORCH-authIdo" := "{invalid json}" ]}
    ∅ [].

(** An ephemeral backend shared with another feature. *)
Definition shared_backend : world :=
  World initial_store
    {[ "AUTH-profile" := MiniJSON.print profile_1;
       "AUTH-phone" := MiniJSON.print phone_local;
       "CART-items" := "[]" ]}
    ∅ ∅ [].

End Scenario.

(** * Reasoning about commands *)

(** Total correctness: from a world satisfying [P] the command returns
    normally, in a world satisfying [Q]. *)
Definition hoare {A} (P : world → Prop) (m : M A) (Q : A → world → Prop) : Prop :=
  ∀ w, P w → ∃ a w', m w = Ok a w' ∧ Q a w'.

(** Both ways out of a command: [Qok] where it returns, [Qex] where it
    throws. *)
Definition triple {A} (Pre : world → Prop) (m : M A)
    (Qok : A → world → Prop) (Qex : exn → world → Prop) : Prop :=
  ∀ w, Pre w → match m w with
               | Ok a w' => Qok a w'
               | Thrown e w' => Qex e w'
               end.

Lemma hoare_ret {A} (P : world → Prop) (a : A) : hoare P (ret a) (fun _ w => P w).
Proof. intros w Hw. exists a, w. split; [reflexivity | assumption]. Qed.

Lemma hoare_bind {A B} (P : world → Prop) (Q : A → world → Prop) (R : B → world → Prop)
    (m : M A) (k : A → M B) :
  hoare P m Q → (∀ a, hoare (Q a) (k a) R) → hoare P (bind m k) R.
Proof.
  intros Hm Hk w Hw. destruct (Hm w Hw) as (a & w1 & E1 & Hq).
  destruct (Hk a w1 Hq) as (b & w2 & E2 & Hr).
  exists b, w2. unfold bind. rewrite E1. split; assumption.
Qed.

Lemma hoare_weaken {A} (P P' : world → Prop) (Q Q' : A → world → Prop) (m : M A) :
  hoare P' m Q' → (∀ w, P w → P' w) → (∀ a w, Q' a w → Q a w) → hoare P m Q.
Proof.
  intros Hm HP HQ w Hw. destruct (Hm w (HP w Hw)) as (a & w' & E & Hq).
  exists a, w'. split; [assumption | apply HQ; assumption].
Qed.

(** A loop keeps what each of its rounds keeps. *)
Lemma hoare_foldM {A S} (I : world → Prop) (xs : list A) (f : S → A → M S) :
  (∀ s x, x ∈ xs → hoare I (f s x) (fun _ w => I w)) →
  ∀ s, hoare I (foldM xs f s) (fun _ w => I w).
Proof.
  induction xs as [|x rest IH]; intros Hf s; simpl.
  - apply hoare_ret.
  - eapply hoare_bind.
    + apply Hf. left.
    + intros s'. apply IH. intros s0 y Hy. apply Hf. right. assumption.
Qed.

Lemma forEach_foldM {A} (xs : list A) (f : A → M unit) (w : world) :
  forEach xs f w = foldM xs (fun _ x => f x) tt w.
Proof.
  revert w. induction xs as [|x rest IH]; intros w; simpl; [reflexivity|].
  unfold bind. destruct (f x w) as [[] w'|e w']; [apply IH | reflexivity].
Qed.

Lemma hoare_forEach {A} (I : world → Prop) (xs : list A) (f : A → M unit) :
  (∀ x, x ∈ xs → hoare I (f x) (fun _ w => I w)) →
  hoare I (forEach xs f) (fun _ w => I w).
Proof.
  intros Hf w Hw. rewrite forEach_foldM.
  apply (hoare_foldM I xs (fun _ x => f x)); [|assumption].
  intros _ x Hx. apply Hf, Hx.
Qed.

(** A loop that meets [x] turns [P] into [Q] when the round of [x] does, the
    other rounds keep both, and either the round of [x] keeps [Q] too or [x]
    is met once. *)
Lemma hoare_foldM_reach {A S} `{EqDecision A} (P Q : world → Prop)
    (xs : list A) (f : S → A → M S) (x : A) :
  x ∈ xs →
  (∀ s y, y ∈ xs → y ≠ x → hoare P (f s y) (fun _ w => P w)) →
  (∀ s, hoare P (f s x) (fun _ w => Q w)) →
  (∀ s y, y ∈ xs → y ≠ x → hoare Q (f s y) (fun _ w => Q w)) →
  ((∀ s, hoare Q (f s x) (fun _ w => Q w)) ∨ NoDup xs) →
  ∀ s, hoare P (foldM xs f s) (fun _ w => Q w).
Proof.
  induction xs as [|y rest IH]; intros Hin HP Hx HQ Hdup s.
  - inversion Hin.
  - simpl. destruct (decide (y = x)) as [->|Hne].
    + eapply hoare_bind; [apply Hx|].
      intros s'. apply hoare_foldM. intros s0 z Hz.
      destruct (decide (z = x)) as [->|Hzx].
      * destruct Hdup as [Hq|Hnd]; [apply Hq|].
        apply NoDup_cons in Hnd as [Hnotin _]. contradiction.
      * apply HQ; [right; assumption | assumption].
    + eapply hoare_bind; [apply HP; [left | assumption]|].
      intros s'. apply IH.
      * apply elem_of_cons in Hin as [->|Hin]; [contradiction | assumption].
      * intros s0 z Hz. apply HP. right. assumption.
      * assumption.
      * intros s0 z Hz. apply HQ. right. assumption.
      * destruct Hdup as [Hq|Hnd]; [left; assumption | right].
        apply NoDup_cons in Hnd as [_ Hnd]. assumption.
Qed.

Lemma hoare_forEach_reach {A} `{EqDecision A} (P Q : world → Prop)
    (xs : list A) (f : A → M unit) (x : A) :
  x ∈ xs →
  (∀ y, y ∈ xs → y ≠ x → hoare P (f y) (fun _ w => P w)) →
  hoare P (f x) (fun _ w => Q w) →
  (∀ y, y ∈ xs → y ≠ x → hoare Q (f y) (fun _ w => Q w)) →
  (hoare Q (f x) (fun _ w => Q w) ∨ NoDup xs) →
  hoare P (forEach xs f) (fun _ w => Q w).
Proof.
  intros Hin HP Hx HQ Hdup w Hw. rewrite forEach_foldM.
  apply (hoare_foldM_reach P Q xs (fun _ y => f y) x); auto.
  destruct Hdup as [Hq|Hnd]; [left; intros _; exact Hq | right; exact Hnd].
Qed.

(** Unfolding the primitive commands. *)
Ltac step_cmd :=
  unfold signal_set in *;
  unfold session_getItem, session_setItem, session_removeItem, local_getItem,
    local_setItem, store_get, store_put, store_delete, console_emit,
    JSON_parse, JSON_stringify, when, try_catch, bind, ret, throw, gets, modify in *;
  simpl in *.

Lemma append_inj_r (p a b : string) : p ++ a = p ++ b → a = b.
Proof. induction p as [|c p IH]; simpl; intros E; [assumption|]. injection E as E. auto. Qed.

Lemma append_ne (p a b : string) : a ≠ b → p ++ a ≠ p ++ b.
Proof. intros Hne E. apply Hne, (append_inj_r p), E. Qed.

Lemma NoDup_fst_unique {A B} (l : list (A * B)) (x : A) (y1 y2 : B) :
  NoDup l.*1 → (x, y1) ∈ l → (x, y2) ∈ l → y1 = y2.
Proof.
  induction l as [|[a b] l IH]; simpl; intros Hnd H1 H2.
  - apply elem_of_nil in H1. contradiction.
  - apply NoDup_cons in Hnd as [Hnotin Hnd].
    apply elem_of_cons in H1 as [E1|H1]; apply elem_of_cons in H2 as [E2|H2].
    + congruence.
    + injection E1 as -> ->. exfalso. apply Hnotin.
      apply list_elem_of_fmap. exists (a, y2). auto.
    + injection E2 as -> ->. exfalso. apply Hnotin.
      apply list_elem_of_fmap. exists (a, y1). auto.
    + auto.
Qed.

Lemma eqb_undefined_false (s : string) : s ≠ "undefined" → String.eqb s "undefined" = false.
Proof. intros Hs. apply String.eqb_neq, Hs. Qed.

(** Runs a command whose control flow is decided by the hypotheses. *)
Ltac run_cmd :=
  step_cmd;
  repeat (case_match; simplify_eq; simpl in * );
  try (eexists _, _; split; [reflexivity|]; simpl).

(** * Revision B: the callbacks of [restore] *)

Section RevB_restore.
Context `{JSONCodec}.
Variable this : SessionStorage.
Local Abbreviation P := (KEY_PREFIX this).

(** What holds of the durable backend, and of the rest of the state object
    and of the ephemeral backend, is not touched by a durable round. *)
Lemma restore_local_key_frame (key : string) (R : world → Prop) :
  (∀ w c, R w → R (set_store (insert key c) w)) →
  (∀ w v, R w → R (set_session (insert (P ++ key) v) w)) →
  (∀ w d, R w → R (emit d w)) →
  hoare R (RevB.restore_local_key this key) (fun _ w => R w).
Proof.
  intros Hstore Hsess Hemit w Hw. unfold RevB.restore_local_key. run_cmd; auto.
Qed.

Lemma restore_session_key_frame (key : string) (R : world → Prop) :
  (∀ w c, R w → R (set_store (insert key c) w)) →
  (∀ w d, R w → R (emit d w)) →
  hoare R (RevB.restore_session_key this key) (fun _ w => R w).
Proof.
  intros Hstore Hemit w Hw. unfold RevB.restore_session_key. run_cmd; auto.
Qed.

Lemma restore_phases (p : PermanentConfig) (orch : option SessionStorage)
    (A B C D : world → Prop) :
  permanent this = Some p →
  hoare A (forEach (localStorageKeys p) (RevB.restore_local_key this)) (fun _ w => B w) →
  hoare B (forEach (sessionStorageKeys p) (RevB.restore_session_key this)) (fun _ w => C w) →
  hoare C (RevB.restore_ido this p orch) (fun _ w => D w) →
  hoare A (RevB.restore this orch) (fun _ w => D w).
Proof.
  intros Hp H1 H2 H3. unfold RevB.restore. rewrite Hp.
  eapply hoare_bind; [exact H1|]. intros [].
  eapply hoare_bind; [exact H2|]. intros []. exact H3.
Qed.

Lemma restore_ido_without_orchestrator (p : PermanentConfig) :
  RevB.restore_ido this p None = ret tt.
Proof. unfold RevB.restore_ido. destruct (ido p); reflexivity. Qed.

(** A durable round on a malformed entry: the raw text reaches the ephemeral
    backend, the state object stays. *)
Lemma restore_local_key_malformed (key s : string) (w : world) :
  localStorage w !! (P ++ key) = Some s →
  s ≠ "undefined" →
  json_parse s = None →
  RevB.restore_local_key this key w =
    Ok tt (emit (Error_restore_parsing_local key) (set_session (insert (P ++ key) s) w)).
Proof.
  intros Hl Hs Hp. unfold RevB.restore_local_key. step_cmd.
  rewrite Hl, (eqb_undefined_false s Hs). simpl. rewrite Hp. reflexivity.
Qed.

Lemma restore_session_key_malformed (key s : string) (w : world) :
  sessionStorage w !! (P ++ key) = Some s →
  json_parse s = None →
  RevB.restore_session_key this key w =
    Ok tt (if String.eqb s "undefined" then w
           else emit (Error_restore_parsing_session key) w).
Proof.
  intros Hs Hp. unfold RevB.restore_session_key. step_cmd. rewrite Hs.
  destruct (String.eqb s "undefined"); simpl; [reflexivity|].
  rewrite Hp. reflexivity.
Qed.

Lemma restore_session_key_valid (key s : string) (j : json) (w : world) :
  sessionStorage w !! (P ++ key) = Some s →
  json_parse s = Some j →
  RevB.restore_session_key this key w = Ok tt (set_store (insert key (Plain (J j))) w).
Proof.
  intros Hs Hp. unfold RevB.restore_session_key. step_cmd. rewrite Hs.
  destruct (String.eqb_spec s "undefined") as [->|Hne]; simpl.
  - rewrite json_parse_undefined in Hp. discriminate.
  - rewrite Hp. reflexivity.
Qed.

End RevB_restore.

(** Closes the side conditions "this update does not reach that key". *)
Ltac frame :=
  intros;
  repeat match goal with H : _ ∧ _ |- _ => destruct H end;
  repeat split; simpl;
  rewrite ?lookup_insert_ne, ?lookup_delete_ne
    by (first [congruence | apply append_ne; congruence | intros E; apply append_inj_r in E; congruence]);
  try assumption; try congruence.

Section RevB_restore_claims.
Context `{JSONCodec}.
Variable this : SessionStorage.
Local Abbreviation P := (KEY_PREFIX this).

(** C7. An engine built without a tier configuration: [restore] returns
    normally, whatever the backends hold and whether or not an orchestrator is
    passed; the state object, both backends and the orchestrator bag are as
    before, and the console gained the one diagnostic "No permanent config,
    skipping restore". *)
Theorem restore_without_config_is_noop (orch : option SessionStorage) (w : world) :
  permanent this = None →
  ∃ w', RevB.restore this orch w = Ok tt w' ∧
        store w' = store w ∧
        sessionStorage w' = sessionStorage w ∧
        localStorage w' = localStorage w ∧
        orchestrator_data w' = orchestrator_data w ∧
        console w' = (console w ++ [Warn_restore_no_permanent_config])%list.
Proof.
  intros Hp. unfold RevB.restore. rewrite Hp.
  exists (emit Warn_restore_no_permanent_config w). repeat split.
Qed.

(** C10. [restore()] on a key of the durable tier whose durable entry is a
    string other than the text [undefined] and is not valid JSON: the call
    returns normally, the ephemeral backend holds that raw string under the
    namespaced key, and the state object's property is what it was. *)
Theorem restore_durable_mirrors_before_parsing
    (p : PermanentConfig) (k s : string) (w : world) :
  permanent this = Some p →
  k ∈ localStorageKeys p →
  localStorage w !! (P ++ k) = Some s →
  s ≠ "undefined" →
  json_parse s = None →
  ∃ w', RevB.restore this None w = Ok tt w' ∧
        sessionStorage w' !! (P ++ k) = Some s ∧
        store w' !! k = store w !! k.
Proof.
  intros Hp Hk Hl Hs Hj.
  pose (A := fun w' : world =>
    localStorage w' !! (P ++ k) = Some s ∧ store w' !! k = store w !! k).
  pose (Q := fun w' : world => A w' ∧ sessionStorage w' !! (P ++ k) = Some s).
  assert (Hround : hoare A (RevB.restore_local_key this k) (fun _ w' => Q w')).
  { intros w1 [H1 H2]. rewrite (restore_local_key_malformed this k s w1 H1 Hs Hj).
    eexists _, _. split; [reflexivity|]. unfold Q, A. simpl.
    rewrite lookup_insert_eq. auto. }
  assert (Hh : hoare A (RevB.restore this None) (fun _ w' => Q w')).
  { apply (restore_phases this p None A Q Q Q Hp).
    - apply (hoare_forEach_reach A Q _ _ k Hk).
      + intros y _ Hy. apply restore_local_key_frame; unfold A; frame.
      + exact Hround.
      + intros y _ Hy. apply restore_local_key_frame; unfold Q, A; frame.
      + left. eapply hoare_weaken; [exact Hround | intros ? [? ?]; assumption | auto].
    - apply hoare_forEach. intros y _. destruct (decide (y = k)) as [->|Hy].
      + intros w1 [[H1 H2] H3].
        rewrite (restore_session_key_malformed this k s w1 H3 Hj).
        eexists _, _. split; [reflexivity|].
        destruct (String.eqb s "undefined"); unfold Q, A; frame.
      + apply restore_session_key_frame; unfold Q, A; frame.
    - rewrite restore_ido_without_orchestrator. apply hoare_ret. }
  destruct (Hh w) as ([] & w' & E & [[_ Hst] Hse]); [split; [exact Hl | reflexivity]|].
  exists w'. auto.
Qed.

(** C4. Two keys [a] and [b] of the ephemeral tier, neither of them also in
    the durable tier (the invariant of the tier configuration): the ephemeral
    backend holds valid JSON for [a] and text that is not JSON for [b].
    [restore()] returns normally, the state object holds the parsed value
    under [a], and its property [b] is what it was before the call. *)
Theorem restore_isolates_corrupted_key
    (p : PermanentConfig) (a b sa sb : string) (ja : json) (w : world) :
  permanent this = Some p →
  a ∈ sessionStorageKeys p →
  b ∈ sessionStorageKeys p →
  a ∉ localStorageKeys p →
  b ∉ localStorageKeys p →
  sessionStorage w !! (P ++ a) = Some sa →
  json_parse sa = Some ja →
  sessionStorage w !! (P ++ b) = Some sb →
  json_parse sb = None →
  ∃ w', RevB.restore this None w = Ok tt w' ∧
        store w' !! a = Some (Plain (J ja)) ∧
        store w' !! b = store w !! b.
Proof.
  intros Hp Ha Hb Hal Hbl Hsa Hja Hsb Hjb.
  assert (Hab : a ≠ b) by (intros ->; congruence).
  pose (I := fun w' : world =>
    sessionStorage w' !! (P ++ a) = Some sa ∧
    sessionStorage w' !! (P ++ b) = Some sb ∧
    store w' !! b = store w !! b).
  pose (Q := fun w' : world => I w' ∧ store w' !! a = Some (Plain (J ja))).
  assert (Hb_round : ∀ R : world → Prop, (∀ w', R w' → I w') →
            (∀ w' d, R w' → R (emit d w')) →
            hoare R (RevB.restore_session_key this b) (fun _ w' => R w')).
  { intros R HR Hemit w1 H1. destruct (HR w1 H1) as (_ & H3 & _).
    rewrite (restore_session_key_malformed this b sb w1 H3 Hjb).
    eexists _, _. split; [reflexivity|].
    destruct (String.eqb sb "undefined"); auto. }
  assert (Ha_round : hoare I (RevB.restore_session_key this a) (fun _ w' => Q w')).
  { intros w1 (H1 & H2 & H3). rewrite (restore_session_key_valid this a sa ja w1 H1 Hja).
    eexists _, _. split; [reflexivity|]. unfold Q, I. simpl.
    rewrite lookup_insert_eq, lookup_insert_ne by congruence. auto. }
  assert (Hh : hoare I (RevB.restore this None) (fun _ w' => Q w')).
  { apply (restore_phases this p None I I Q Q Hp).
    - apply hoare_forEach. intros y Hy.
      assert (y ≠ a) by (intros ->; contradiction).
      assert (y ≠ b) by (intros ->; contradiction).
      apply restore_local_key_frame; unfold I; frame.
    - apply (hoare_forEach_reach I Q _ _ a Ha).
      + intros y _ Hy. destruct (decide (y = b)) as [->|Hyb].
        * apply Hb_round; [auto | unfold I; frame].
        * apply restore_session_key_frame; unfold I; frame.
      + exact Ha_round.
      + intros y _ Hy. destruct (decide (y = b)) as [->|Hyb].
        * apply Hb_round; [intros ? [? _]; assumption | unfold Q, I; frame].
        * apply restore_session_key_frame; unfold Q, I; frame.
      + left. eapply hoare_weaken; [exact Ha_round | intros ? [? ?]; assumption | auto].
    - rewrite restore_ido_without_orchestrator. apply hoare_ret. }
  destruct (Hh w) as ([] & w' & E & [(_ & _ & Hstb) Hsta]).
  { unfold I. auto. }
  exists w'. auto.
Qed.

Lemma hoare_try_catch {A} (R : world → Prop) (Q : A → world → Prop)
    (body : M A) (handler : exn → M A) :
  hoare R body Q → hoare R (try_catch body handler) Q.
Proof.
  intros Hb w Hw. destruct (Hb w Hw) as (a & w' & E & Hq).
  exists a, w'. unfold try_catch. rewrite E. auto.
Qed.

(** An IDO round over a parsed object never throws and reaches only the
    property it maps to. *)
Lemma restore_ido_entry_frame (fields : list (string * json))
    (stateProperty idoProperty : string) (R : world → Prop) :
  (∀ w c, R w → R (set_store (insert stateProperty c) w)) →
  (∀ w v, R w → R (set_session (insert (P ++ stateProperty) v) w)) →
  hoare R (RevB.restore_ido_entry this (JObj fields) (stateProperty, idoProperty))
        (fun _ w => R w).
Proof.
  intros Hstore Hsess w Hw. unfold RevB.restore_ido_entry, member. run_cmd; auto.
Qed.

Lemma restore_ido_entry_defined (fields : list (string * json))
    (stateProperty idoProperty : string) (v : json) (w : world) :
  assoc idoProperty fields = Some v →
  RevB.restore_ido_entry this (JObj fields) (stateProperty, idoProperty) w =
    Ok tt (set_session (insert (P ++ stateProperty) (json_print v))
             (set_store (insert stateProperty (Plain (J v))) w)).
Proof.
  intros Hv. unfold RevB.restore_ido_entry, member. step_cmd. rewrite Hv. reflexivity.
Qed.

(** C1. A key [k] of the shared tier, mapped to [remote], with an orchestrator
    whose IDO record (the JSON object stored in the durable backend under
    the derived key) has a value [v] under [remote]: [restore(orchestrator)]
    returns normally and the state object holds [v] under [k], whatever the
    durable and the ephemeral rounds produced for [k] before; in particular
    when [k] is also in the ephemeral tier and the ephemeral backend holds
    another value for it.  The ephemeral backend ends with the serialized
    [v] as well.  [Object.entries] lists every property once. *)
Theorem restore_shared_overrides_ephemeral
    (p : PermanentConfig) (orch : SessionStorage) (k remote sIdo : string)
    (fields : list (string * json)) (v : json) (w : world) :
  permanent this = Some p →
  (k, remote) ∈ ido p →
  NoDup (ido p).*1 →
  localStorage w !! orchestratorIdoKey this orch = Some sIdo →
  json_parse sIdo = Some (JObj fields) →
  assoc remote fields = Some v →
  ∃ w', RevB.restore this (Some orch) w = Ok tt w' ∧
        container_value (store w' !! k) = J v ∧
        store w' !! k = Some (Plain (J v)) ∧
        sessionStorage w' !! (P ++ k) = Some (json_print v).
Proof.
  intros Hp Hk Hnd Hl Hj Hv.
  pose (I := fun w' : world => localStorage w' !! orchestratorIdoKey this orch = Some sIdo).
  pose (Q := fun w' : world =>
    store w' !! k = Some (Plain (J v)) ∧ sessionStorage w' !! (P ++ k) = Some (json_print v)).
  assert (Hne : sIdo ≠ "") by (intros ->; rewrite json_parse_empty in Hj; discriminate).
  assert (Hnu : sIdo ≠ "undefined")
    by (intros ->; rewrite json_parse_undefined in Hj; discriminate).
  assert (Hentries : hoare I (forEach (ido p) (RevB.restore_ido_entry this (JObj fields)))
                       (fun _ w' => Q w')).
  { apply (hoare_forEach_reach I Q _ _ (k, remote) Hk).
    - intros [sp ip] _ _. apply restore_ido_entry_frame; unfold I; frame.
    - intros w1 _. rewrite (restore_ido_entry_defined fields k remote v w1 Hv).
      eexists _, _. split; [reflexivity|]. unfold Q. simpl.
      rewrite !lookup_insert_eq. auto.
    - intros [sp ip] Hy Hne'.
      assert (sp ≠ k).
      { intros ->. apply Hne'. f_equal.
        exact (NoDup_fst_unique (ido p) k ip remote Hnd Hy Hk). }
      apply restore_ido_entry_frame; unfold Q; frame.
    - left. intros w1 _. rewrite (restore_ido_entry_defined fields k remote v w1 Hv).
      eexists _, _. split; [reflexivity|]. unfold Q. simpl.
      rewrite !lookup_insert_eq. auto. }
  assert (Hh : hoare I (RevB.restore this (Some orch)) (fun _ w' => Q w')).
  { apply (restore_phases this p (Some orch) I I I Q Hp).
    - apply hoare_forEach. intros y _. apply restore_local_key_frame; unfold I; frame.
    - apply hoare_forEach. intros y _. apply restore_session_key_frame; unfold I; frame.
    - unfold RevB.restore_ido. destruct (ido p) as [|e rest] eqn:Hido.
      { apply elem_of_nil in Hk. contradiction. }
      apply hoare_try_catch. intros w1 Hw1.
      unfold bind at 1. unfold local_getItem, gets. rewrite Hw1.
      replace (truthy sIdo && negb (String.eqb sIdo "undefined")) with true.
      2:{ unfold truthy. apply String.eqb_neq in Hne, Hnu. rewrite Hne, Hnu. reflexivity. }
      unfold when, JSON_parse. rewrite Hj. unfold bind, ret.
      apply Hentries. exact Hw1. }
  destruct (Hh w Hl) as ([] & w' & E & [Hst Hse]).
  exists w'. rewrite Hst. auto.
Qed.

End RevB_restore_claims.

(** * Strings: the namespaced key and its bare key *)

Lemma prefix_append (p k : string) : String.prefix p (p ++ k) = true.
Proof.
  induction p as [|c p IH]; simpl.
  - destruct k; reflexivity.
  - destruct (ascii_dec c c); [exact IH | contradiction].
Qed.

Lemma substring_from_append (p k : string) : substring_from (String.length p) (p ++ k) = k.
Proof. induction p as [|c p IH]; simpl; [destruct k; reflexivity | exact IH]. Qed.

Lemma replace_first_unfold (p s : string) :
  replace_first_with_empty p s =
    if String.prefix p s then substring_from (String.length p) s
    else match s with
         | EmptyString => EmptyString
         | String c s' => String c (replace_first_with_empty p s')
         end.
Proof. destruct s; reflexivity. Qed.

(** [(prefix + key).replace(prefix, '')] is [key]. *)
Lemma replace_prefix (p k : string) : replace_first_with_empty p (p ++ k) = k.
Proof. rewrite replace_first_unfold, prefix_append. apply substring_from_append. Qed.

Lemma elem_of_Object_keys {V} (m : gmap string V) (k : string) :
  k ∈ Object_keys m ↔ is_Some (m !! k).
Proof.
  unfold Object_keys. rewrite list_elem_of_fmap. split.
  - intros ([k' v] & -> & Hin). apply elem_of_map_to_list in Hin. eauto.
  - intros [v Hv]. exists (k, v). split; [reflexivity|]. apply elem_of_map_to_list, Hv.
Qed.

Lemma NoDup_Object_keys {V} (m : gmap string V) : NoDup (Object_keys m).
Proof. apply NoDup_fst_map_to_list. Qed.

(** * Revision B: [set], [get], [exit], [init] *)

Section RevB_lifecycle.
Context `{JSONCodec}.
Variable this : SessionStorage.
Local Abbreviation P := (KEY_PREFIX this).

Lemma set_encodable (key : string) (j : json) (w : world) :
  RevB.set this key (J j) w =
    Ok tt (if is_signal (store w !! key)
           then set_session (insert (P ++ key) (json_print j))
                  (set_store (insert key (assign_or_write (store w !! key) (J j))) w)
           else set_store (insert key (Plain (J j)))
                  (set_session (insert (P ++ key) (json_print j)) w)).
Proof.
  unfold RevB.set. step_cmd. destruct (store w !! key) as [[i l|v]|]; reflexivity.
Qed.

Lemma exit_key_frame (p : PermanentConfig) (fullKey : string) (R : world → Prop) :
  (∀ w, R w → R (set_session (delete fullKey) w)) →
  (∀ w v, R w → R (set_local (insert fullKey v) w)) →
  (∀ w d, R w → R (emit d w)) →
  hoare R (RevB.exit_key this p fullKey) (fun _ w => R w).
Proof.
  intros Hdel Hloc Hemit w Hw. unfold RevB.exit_key. run_cmd; auto.
Qed.

(** The round of a durable key: the entry goes to the durable backend and
    leaves the ephemeral one; a second round finds nothing to move. *)
Lemma exit_key_durable (p : PermanentConfig) (k : string) (w : world) :
  k ∈ localStorageKeys p →
  RevB.exit_key this p (P ++ k) w =
    Ok tt (set_session (delete (P ++ k))
             match sessionStorage w !! (P ++ k) with
             | Some s => set_local (insert (P ++ k) s) w
             | None => w
             end).
Proof.
  intros Hk. unfold RevB.exit_key. rewrite replace_prefix.
  unfold includes. rewrite bool_decide_eq_true_2 by exact Hk.
  step_cmd. destruct (sessionStorage w !! (P ++ k)); reflexivity.
Qed.

Lemma exit_ido_without_orchestrator (p : PermanentConfig) :
  RevB.exit_ido this p None = ret tt.
Proof. unfold RevB.exit_ido. destruct (ido p); reflexivity. Qed.

Lemma init_ido_without_orchestrator (p : PermanentConfig) :
  RevB.init_ido this p None = ret tt.
Proof. unfold RevB.init_ido. destruct (ido p); reflexivity. Qed.

(** C3. A key [k] of the durable tier and a JSON value [v]: [set(k, v)] then
    [exit()] both return normally; afterwards the durable backend holds the
    serialized [v] under the namespaced key and the ephemeral backend has no
    entry under it. *)
Theorem exit_moves_durable_key (p : PermanentConfig) (k : string) (j : json) (w : world) :
  permanent this = Some p →
  k ∈ localStorageKeys p →
  ∃ w1 w2, RevB.set this k (J j) w = Ok tt w1 ∧
           RevB.exit this None w1 = Ok tt w2 ∧
           localStorage w2 !! (P ++ k) = Some (json_print j) ∧
           sessionStorage w2 !! (P ++ k) = None.
Proof.
  intros Hp Hk. rewrite set_encodable.
  match goal with |- ∃ w1 _, Ok tt ?w = _ ∧ _ => set (w1 := w) end.
  assert (Hs1 : sessionStorage w1 !! (P ++ k) = Some (json_print j)).
  { unfold w1. destruct (is_signal _); simpl; apply lookup_insert_eq. }
  pose (A := fun w' : world => sessionStorage w' !! (P ++ k) = Some (json_print j)).
  pose (Q := fun w' : world =>
    localStorage w' !! (P ++ k) = Some (json_print j) ∧ sessionStorage w' !! (P ++ k) = None).
  assert (Hexit : ∃ a w2, RevB.exit this None w1 = Ok a w2 ∧ Q w2).
  { unfold RevB.exit. rewrite Hp. unfold bind at 1. unfold gets at 1.
    eapply (hoare_bind A (fun _ => Q)); [| |exact Hs1].
    - apply (hoare_forEach_reach A Q _ _ (P ++ k)).
      + apply list_elem_of_In, filter_In. split.
        * apply list_elem_of_In, elem_of_Object_keys. rewrite Hs1. eauto.
        * unfold startsWith. apply prefix_append.
      + intros y _ Hy. apply exit_key_frame; unfold A; frame.
      + intros w' Hw'. rewrite (exit_key_durable p k w' Hk). unfold A in Hw'. rewrite Hw'.
        eexists _, _. split; [reflexivity|]. unfold Q. simpl.
        rewrite lookup_insert_eq, lookup_delete_eq. auto.
      + intros y _ Hy. apply exit_key_frame; unfold Q; frame.
      + left. intros w' [Hl Hs]. rewrite (exit_key_durable p k w' Hk), Hs.
        eexists _, _. split; [reflexivity|]. unfold Q. simpl.
        rewrite lookup_delete_eq. auto.
    - intros []. rewrite exit_ido_without_orchestrator.
      eapply hoare_bind; [apply hoare_ret|]. intros [].
      eapply hoare_bind with (Q := fun _ => Q).
      + intros w' Hw'. eexists _, _. split; [reflexivity | exact Hw'].
      + intros storeKeys. apply hoare_forEach. intros y _ w' Hw'.
        run_cmd; auto. }
  destruct Hexit as ([] & w2 & E & Hl & Hs). exists w1, w2. auto.
Qed.

(** ** Reads *)

Lemma get_valid (key s : string) (j : json) (dv : value) (w : world) :
  sessionStorage w !! (P ++ key) = Some s →
  json_parse s = Some j →
  RevB.get this key dv w =
    Ok (J j) (set_store (insert key (assign_or_write (store w !! key) (J j))) w).
Proof.
  intros Hs Hj. unfold RevB.get. step_cmd. rewrite Hs.
  destruct (String.eqb_spec s "undefined") as [->|Hne].
  - rewrite json_parse_undefined in Hj. discriminate.
  - rewrite Hj. destruct (store w !! key) as [[i l|v]|]; reflexivity.
Qed.

Lemma get_frame (key : string) (dv : value) (R : world → Prop) :
  (∀ w c, R w → R (set_store (insert key c) w)) →
  (∀ w d, R w → R (emit d w)) →
  hoare R (RevB.get this key dv) (fun _ w => R w).
Proof.
  intros Hstore Hemit w Hw. unfold RevB.get. run_cmd; auto.
Qed.

(** C8. A key whose ephemeral entry holds valid JSON: [get(key)] returns the
    parsed value and leaves the state object with that value written back
    under the key (one more write on a reactive cell, a replaced plain value
    otherwise); and [getAll()] returns normally with every such key of the
    state object rewritten in the same way. *)
Theorem get_writes_back (k s : string) (j : json) (dv : value) (w : world) :
  sessionStorage w !! (P ++ k) = Some s →
  json_parse s = Some j →
  RevB.get this k dv w =
    Ok (J j) (set_store (insert k (assign_or_write (store w !! k) (J j))) w) ∧
  (is_Some (store w !! k) →
   ∃ result w', RevB.getAll this w = Ok result w' ∧
                store w' !! k = Some (assign_or_write (store w !! k) (J j))).
Proof.
  intros Hs Hj. split; [apply (get_valid k s j dv w Hs Hj)|].
  intros Hin. unfold RevB.getAll. unfold bind at 1. unfold gets at 1.
  pose (A := fun w' : world =>
    sessionStorage w' !! (P ++ k) = Some s ∧ store w' !! k = store w !! k).
  pose (Q := fun w' : world =>
    store w' !! k = Some (assign_or_write (store w !! k) (J j))).
  assert (Hround : ∀ (R : world → Prop) (y : string) (result : list (string * value)),
    (∀ w' c, R w' → R (set_store (insert y c) w')) →
    (∀ w' d, R w' → R (emit d w')) →
    hoare R (value <- RevB.get this y Undefined ;;
             match value with
             | J JNull => ret result
             | _ => ret (assoc_set y value result)
             end) (fun _ w' => R w')).
  { intros R y result H1 H2. eapply hoare_bind; [apply get_frame; assumption|].
    intros v w' Hw'. repeat case_match; eexists _, _; (split; [reflexivity | exact Hw']). }
  apply (hoare_foldM_reach A Q (Object_keys (store w)) _ k).
  - apply elem_of_Object_keys, Hin.
  - intros result y _ Hy. apply Hround; unfold A; frame.
  - intros result w' [H1 H2]. unfold bind. rewrite (get_valid k s j Undefined w' H1 Hj).
    rewrite H2. repeat case_match; eexists _, _;
      (split; [reflexivity | unfold Q; simpl; apply lookup_insert_eq]).
  - intros result y _ Hy. apply Hround; unfold Q; frame.
  - right. apply NoDup_Object_keys.
  - split; [exact Hs | reflexivity].
Qed.

(** ** Sentinels *)

(** C5, as the code has it.  The text [undefined] is the one sentinel: on
    [get] and on both storage rounds of [restore] an entry holding it reads
    as absent, nothing is parsed, logged or written.  The text [null] is
    JSON like any other: it is parsed, and JSON [null] is written into the
    state object (and mirrored into the ephemeral backend by the durable
    round). *)
Theorem undefined_is_the_only_sentinel (k : string) (dv : value) :
  json_parse "null" = Some JNull →
  (∀ w, sessionStorage w !! (P ++ k) = Some "undefined" →
        RevB.get this k dv w = Ok (nullish dv JS_null) w) ∧
  (∀ w, sessionStorage w !! (P ++ k) = Some "undefined" →
        RevB.restore_session_key this k w = Ok tt w) ∧
  (∀ w, localStorage w !! (P ++ k) = Some "undefined" →
        RevB.restore_local_key this k w = Ok tt w) ∧
  (∀ w, sessionStorage w !! (P ++ k) = Some "null" →
        RevB.get this k dv w =
          Ok (J JNull) (set_store (insert k (assign_or_write (store w !! k) (J JNull))) w)) ∧
  (∀ w, sessionStorage w !! (P ++ k) = Some "null" →
        RevB.restore_session_key this k w =
          Ok tt (set_store (insert k (Plain (J JNull))) w)) ∧
  (∀ w, localStorage w !! (P ++ k) = Some "null" →
        RevB.restore_local_key this k w =
          Ok tt (set_store (insert k (Plain (J JNull)))
                   (set_session (insert (P ++ k) "null") w))).
Proof.
  intros Hnull. repeat split; intros w Hw.
  - unfold RevB.get. step_cmd. rewrite Hw. reflexivity.
  - unfold RevB.restore_session_key. step_cmd. rewrite Hw. reflexivity.
  - unfold RevB.restore_local_key. step_cmd. rewrite Hw. reflexivity.
  - apply (get_valid k "null" JNull dv w Hw Hnull).
  - apply (restore_session_key_valid this k "null" JNull w Hw Hnull).
  - unfold RevB.restore_local_key. step_cmd. rewrite Hw. simpl. rewrite Hnull. reflexivity.
Qed.

(** ** Exceptions *)

Lemma store_ido_total (orch : SessionStorage) (idoData : list (string * value))
    (d : diag) (R : world → Prop) :
  (∀ w v, R w → R (set_local (insert (orchestratorIdoKey this orch) v) w)) →
  (∀ w, R w → R (emit d w)) →
  hoare R (RevB.store_ido this orch idoData d) (fun _ w => R w).
Proof.
  intros Hl He w Hw. unfold RevB.store_ido, JSON_stringify_object. run_cmd; auto.
Qed.

Lemma exit_total (orch : option SessionStorage) :
  hoare (fun _ => True) (RevB.exit this orch) (fun _ _ => True).
Proof.
  unfold RevB.exit. destruct (permanent this) as [p|].
  - eapply hoare_bind with (Q := fun _ _ => True).
    { intros w _. eexists _, _. split; [reflexivity | exact I]. }
    intros allKeys.
    eapply hoare_bind; [apply hoare_forEach; intros; apply exit_key_frame; auto|].
    intros []. eapply hoare_bind with (Q := fun _ _ => True).
    { unfold RevB.exit_ido. destruct (ido p) as [|e rest]; [apply hoare_ret|].
      destruct orch as [o|]; [|apply hoare_ret].
      eapply hoare_bind.
      - apply hoare_foldM. intros idoData [sp ip] _.
        eapply hoare_bind; [apply get_frame; auto|].
        intros v w _. run_cmd; auto.
      - intros idoData. apply store_ido_total; auto. }
    intros []. eapply hoare_bind with (Q := fun _ _ => True).
    { intros w _. eexists _, _. split; [reflexivity | exact I]. }
    intros storeKeys. apply hoare_forEach. intros y _ w _. run_cmd; auto.
  - unfold RevB.removeAll.
    eapply hoare_bind with (Q := fun _ _ => True).
    { intros w _. eexists _, _. split; [reflexivity | exact I]. }
    intros ks. eapply hoare_bind with (Q := fun _ _ => True).
    { apply hoare_forEach. intros y _ w _. run_cmd; auto. }
    intros []. eapply hoare_bind with (Q := fun _ _ => True).
    { intros w _. eexists _, _. split; [reflexivity | exact I]. }
    intros storeKeys. apply hoare_forEach. intros y _ w _. run_cmd; auto.
Qed.

Lemma restore_total (orch : option SessionStorage) :
  hoare (fun _ => True) (RevB.restore this orch) (fun _ _ => True).
Proof.
  unfold RevB.restore. destruct (permanent this) as [p|].
  - eapply hoare_bind;
      [apply hoare_forEach; intros; apply (restore_local_key_frame this); auto|].
    intros []. eapply hoare_bind;
      [apply hoare_forEach; intros; apply (restore_session_key_frame this); auto|].
    intros []. unfold RevB.restore_ido. destruct (ido p) as [|e rest]; [apply hoare_ret|].
    destruct orch as [o|]; [|apply hoare_ret].
    intros w _. unfold try_catch.
    match goal with |- ∃ _ _, match ?b with _ => _ end = _ ∧ _ => destruct b as [[] w'|e' w'] end;
      eexists _, _; (split; [reflexivity | exact I]).
  - intros w _. eexists _, _. split; [reflexivity | exact I].
Qed.

Lemma hoare_returns {A} (m : M A) (w : world) :
  hoare (fun _ => True) m (fun _ _ => True) → returns (m w).
Proof. intros Hm. destruct (Hm w I) as (a & w' & E & _). rewrite E. exact I. Qed.

(** [set] in revision B never writes the durable backend: the value reaches
    it at [exit] (or [init]). *)
Lemma explicit_set_keeps_durable (key : string) (v : value) (w : world) :
  localStorage (world_of (RevB.set this key v w)) = localStorage w.
Proof.
  unfold RevB.set. step_cmd.
  destruct (store w !! key) as [[i l|u]|]; destruct v; reflexivity.
Qed.

End RevB_lifecycle.

(** * Revision A: [set] and [restore] *)

Section RevA_claims.
Context `{JSONCodec}.
Variable this : SessionStorage.
Local Abbreviation P := (KEY_PREFIX this).

(** C2. A key [k] of the durable tier and a JSON value [v]: [set(k, v)]
    returns normally; the ephemeral backend and the durable backend both
    hold the serialized [v] under the namespaced key, and the state object
    holds [v] under [k] (written to the reactive cell, or assigned). *)
Theorem set_fans_out_to_durable (p : PermanentConfig) (k : string) (j : json) (w : world) :
  permanent this = Some p →
  k ∈ localStorageKeys p →
  ∃ w', RevA.set this k (J j) w = Ok tt w' ∧
        sessionStorage w' !! (P ++ k) = Some (json_print j) ∧
        localStorage w' !! (P ++ k) = Some (json_print j) ∧
        store w' !! k = Some (assign_or_write (store w !! k) (J j)) ∧
        container_value (store w' !! k) = J j.
Proof.
  intros Hp Hk. unfold localStorageKeys in Hk.
  destruct (cfg_localStorage p) as [keys|] eqn:Hkeys; simpl in Hk;
    [|apply elem_of_nil in Hk; contradiction].
  unfold RevA.set, RevA.handlePermanentStorage, RevA.setOrchestratorData.
  rewrite Hp, Hkeys. unfold includes. rewrite bool_decide_eq_true_2 by exact Hk.
  step_cmd.
  destruct (store w !! k) as [[i l|v]|]; simpl;
    repeat case_match; eexists; (split; [reflexivity|]); simpl;
    rewrite ?lookup_insert_eq; auto.
Qed.

(** ** [restore] in revision A *)

Lemma ambient_restore_parsed_frame (key storedValue : string) (on_success : M unit)
    (d : diag) (R : world → Prop) :
  (∀ w c, R w → R (set_store (insert key c) w)) →
  (∀ w d', R w → R (emit d' w)) →
  hoare R on_success (fun _ w => R w) →
  hoare R (RevA.restore_parsed key storedValue on_success d) (fun _ w => R w).
Proof.
  intros Hstore Hemit Hsucc w Hw. unfold RevA.restore_parsed.
  unfold try_catch, bind at 1, JSON_parse.
  destruct (json_parse storedValue) as [j|]; simpl.
  - unfold bind at 1, store_get, gets.
    assert (Hput : ∃ w1, (if is_signal (store w !! key)
                          then signal_set (store w !! key) key (J j)
                          else store_put key (Plain (J j))) w = Ok tt w1 ∧ R w1).
    { destruct (store w !! key) as [[i l|v]|]; simpl; eexists; split;
        try reflexivity; apply Hstore, Hw. }
    destruct Hput as (w1 & E & Hw1). unfold bind. rewrite E.
    destruct (Hsucc w1 Hw1) as ([] & w2 & E2 & Hw2). rewrite E2. eauto.
  - unfold throw, console_emit, modify. eexists _, _. split; [reflexivity|]. apply Hemit, Hw.
Qed.

Lemma hoare_console_emit (d : diag) (R : world → Prop) :
  (∀ w d', R w → R (emit d' w)) → hoare R (console_emit d) (fun _ w => R w).
Proof. intros Hemit w Hw. eexists _, _. split; [reflexivity|]. apply Hemit, Hw. Qed.

Lemma ambient_restore_store_key_frame (key : string) (R : world → Prop) :
  (∀ w c, R w → R (set_store (insert key c) w)) →
  (∀ w d, R w → R (emit d w)) →
  hoare R (RevA.restore_store_key this key) (fun _ w => R w).
Proof.
  intros Hstore Hemit w Hw. unfold RevA.restore_store_key, bind at 1, session_getItem, gets.
  destruct (sessionStorage w !! (P ++ key)) as [sv|].
  - apply ambient_restore_parsed_frame; auto using hoare_ret.
  - apply hoare_ret. exact Hw.
Qed.

Lemma ambient_restore_session_key_frame (key : string) (R : world → Prop) :
  (∀ w c, R w → R (set_store (insert key c) w)) →
  (∀ w d, R w → R (emit d w)) →
  hoare R (RevA.restore_session_key this key) (fun _ w => R w).
Proof.
  intros Hstore Hemit w Hw. unfold RevA.restore_session_key, bind at 1, session_getItem, gets.
  destruct (sessionStorage w !! (P ++ key)) as [sv|].
  - apply ambient_restore_parsed_frame; auto using hoare_console_emit.
  - apply hoare_ret. exact Hw.
Qed.

Lemma ambient_restore_local_key_frame (key : string) (R : world → Prop) :
  (∀ w c, R w → R (set_store (insert key c) w)) →
  (∀ w d, R w → R (emit d w)) →
  hoare R (RevA.restore_local_key this key) (fun _ w => R w).
Proof.
  intros Hstore Hemit w Hw. unfold RevA.restore_local_key, bind at 1, local_getItem, gets.
  destruct (localStorage w !! (P ++ key)) as [sv|].
  - apply ambient_restore_parsed_frame; auto using hoare_console_emit.
  - apply hoare_ret. exact Hw.
Qed.

Lemma ambient_restore_ido_entry_frame (propertyKey iddKey : string) (R : world → Prop) :
  (∀ w c, R w → R (set_store (insert propertyKey c) w)) →
  (∀ w d, R w → R (emit d w)) →
  hoare R (RevA.restore_ido_entry (propertyKey, iddKey)) (fun _ w => R w).
Proof.
  intros Hstore Hemit w Hw. unfold RevA.restore_ido_entry, RevA.getOrchestratorData.
  run_cmd; auto.
Qed.

Lemma ambient_restore_ido_entry_defined (propertyKey iddKey : string) (v : value) (w : world) :
  orchestrator_data w !! iddKey = Some v →
  v ≠ Undefined →
  RevA.restore_ido_entry (propertyKey, iddKey) w =
    Ok tt (emit (Log_restored_ido iddKey)
             (set_store (insert propertyKey (assign_or_write (store w !! propertyKey) v)) w)).
Proof.
  intros Hv Hdef. unfold RevA.restore_ido_entry, RevA.getOrchestratorData. step_cmd.
  rewrite Hv. destruct v; [contradiction| |];
    destruct (store w !! propertyKey) as [[i l|u]|]; reflexivity.
Qed.

Lemma container_value_assign_or_write (old : option cell) (v : value) :
  container_value (Some (assign_or_write old v)) = v.
Proof. destruct old as [[i l|u]|]; reflexivity. Qed.

(** The four loops of [restore], one after the other. *)
Lemma ambient_restore_phases (A B C D E : world → Prop) :
  (∀ keys, hoare A (forEach keys (RevA.restore_store_key this)) (fun _ w => B w)) →
  hoare B (match permanent this ≫= cfg_sessionStorage with
           | Some keys => forEach keys (RevA.restore_session_key this)
           | None => ret tt
           end) (fun _ w => C w) →
  hoare C (match permanent this ≫= cfg_localStorage with
           | Some keys => forEach keys (RevA.restore_local_key this)
           | None => ret tt
           end) (fun _ w => D w) →
  hoare D (match permanent this ≫= cfg_ido with
           | Some mapping => forEach mapping RevA.restore_ido_entry
           | None => ret tt
           end) (fun _ w => E w) →
  hoare A (RevA.restore this) (fun _ w => E w).
Proof.
  intros H1 H2 H3 H4. unfold RevA.restore.
  eapply hoare_bind with (Q := fun _ => A).
  { intros w Hw. eexists _, _. split; [reflexivity | exact Hw]. }
  intros keys. eapply hoare_bind; [apply H1|]. intros [].
  destruct (permanent this) as [p|]; simpl in *.
  - eapply hoare_bind; [exact H2|]. intros [].
    eapply hoare_bind; [exact H3|]. intros []. exact H4.
  - intros w Hw. destruct (H2 w Hw) as ([] & w2 & E2 & Hw2). injection E2 as <-.
    destruct (H3 w Hw2) as ([] & w3 & E3 & Hw3). injection E3 as <-.
    apply H4. exact Hw3.
Qed.

(** C1 in revision A: the orchestrator is the ambient bag, read by the last
    loop of [restore()], so a defined bag value mapped to [k] is what the
    state object holds for [k] afterwards. *)
Lemma ambient_restore_shared_overrides_ephemeral
    (p : PermanentConfig) (mapping : list (string * string)) (k remote : string)
    (v : value) (w : world) :
  permanent this = Some p →
  cfg_ido p = Some mapping →
  (k, remote) ∈ mapping →
  NoDup mapping.*1 →
  orchestrator_data w !! remote = Some v →
  v ≠ Undefined →
  ∃ w', RevA.restore this w = Ok tt w' ∧ container_value (store w' !! k) = v.
Proof.
  intros Hp Hm Hk Hnd Hv Hdef.
  pose (I := fun w' : world => orchestrator_data w' !! remote = Some v).
  pose (Q := fun w' : world => I w' ∧ container_value (store w' !! k) = v).
  assert (Hround : hoare I (RevA.restore_ido_entry (k, remote)) (fun _ w' => Q w')).
  { intros w1 Hw1. rewrite (ambient_restore_ido_entry_defined k remote v w1 Hw1 Hdef).
    eexists _, _. split; [reflexivity|]. split; [exact Hw1|]. simpl.
    rewrite lookup_insert_eq. apply container_value_assign_or_write. }
  assert (Hh : hoare I (RevA.restore this) (fun _ w' => Q w')).
  { apply (ambient_restore_phases I I I I Q).
    - intros keys. apply hoare_forEach. intros y _.
      apply ambient_restore_store_key_frame; unfold I; frame.
    - destruct (permanent this ≫= cfg_sessionStorage); [|apply hoare_ret].
      apply hoare_forEach. intros y _.
      apply ambient_restore_session_key_frame; unfold I; frame.
    - destruct (permanent this ≫= cfg_localStorage); [|apply hoare_ret].
      apply hoare_forEach. intros y _.
      apply ambient_restore_local_key_frame; unfold I; frame.
    - rewrite Hp. simpl. rewrite Hm.
      apply (hoare_forEach_reach I Q _ _ (k, remote) Hk).
      + intros [sp ip] _ _. apply ambient_restore_ido_entry_frame; unfold I; frame.
      + exact Hround.
      + intros [sp ip] Hy Hne.
        assert (sp ≠ k).
        { intros ->. apply Hne. f_equal.
          exact (NoDup_fst_unique mapping k ip remote Hnd Hy Hk). }
        apply ambient_restore_ido_entry_frame; unfold Q, I; frame.
      + left. eapply hoare_weaken; [exact Hround | intros ? [? ?]; assumption | auto]. }
  destruct (Hh w Hv) as ([] & w' & E & [_ Hq]). eauto.
Qed.

Lemma ambient_restore_key_malformed (key s : string) (w : world) :
  sessionStorage w !! (P ++ key) = Some s →
  json_parse s = None →
  RevA.restore_store_key this key w = Ok tt (emit (Error_failed_restore_session key) w) ∧
  RevA.restore_session_key this key w = Ok tt (emit (Error_failed_restore_session key) w).
Proof.
  intros Hs Hj. unfold RevA.restore_store_key, RevA.restore_session_key, RevA.restore_parsed.
  step_cmd. rewrite Hs, Hj. auto.
Qed.

Lemma ambient_restore_key_valid (key s : string) (j : json) (w : world) :
  sessionStorage w !! (P ++ key) = Some s →
  json_parse s = Some j →
  RevA.restore_store_key this key w =
    Ok tt (set_store (insert key (assign_or_write (store w !! key) (J j))) w) ∧
  RevA.restore_session_key this key w =
    Ok tt (emit (Log_restored_session key)
             (set_store (insert key (assign_or_write (store w !! key) (J j))) w)).
Proof.
  intros Hs Hj. unfold RevA.restore_store_key, RevA.restore_session_key, RevA.restore_parsed.
  step_cmd. rewrite Hs, Hj. destruct (store w !! key) as [[i l|v]|]; auto.
Qed.

(** C4 in revision A, where [restore()] also reads the ambient bag: the keys
    are kept out of the shared tier as well. *)
Lemma ambient_restore_isolates_corrupted_key
    (p : PermanentConfig) (a b sa sb : string) (ja : json) (w : world) :
  permanent this = Some p →
  a ∈ sessionStorageKeys p →
  b ∈ sessionStorageKeys p →
  a ∉ localStorageKeys p →
  b ∉ localStorageKeys p →
  a ∉ (ido p).*1 →
  b ∉ (ido p).*1 →
  sessionStorage w !! (P ++ a) = Some sa →
  json_parse sa = Some ja →
  sessionStorage w !! (P ++ b) = Some sb →
  json_parse sb = None →
  ∃ w', RevA.restore this w = Ok tt w' ∧
        container_value (store w' !! a) = J ja ∧
        store w' !! b = store w !! b.
Proof.
  intros Hp Ha Hb Hal Hbl Hai Hbi Hsa Hja Hsb Hjb.
  assert (Hab : a ≠ b) by (intros ->; congruence).
  pose (I := fun w' : world =>
    sessionStorage w' !! (P ++ a) = Some sa ∧
    sessionStorage w' !! (P ++ b) = Some sb ∧
    store w' !! b = store w !! b).
  pose (Q := fun w' : world => I w' ∧ container_value (store w' !! a) = J ja).
  assert (Hb_round : ∀ R : world → Prop, (∀ w', R w' → I w') →
            (∀ w' d, R w' → R (emit d w')) →
            hoare R (RevA.restore_store_key this b) (fun _ w' => R w') ∧
            hoare R (RevA.restore_session_key this b) (fun _ w' => R w')).
  { intros R HR Hemit.
    split; intros w1 H1; destruct (HR w1 H1) as (_ & H3 & _);
      destruct (ambient_restore_key_malformed b sb w1 H3 Hjb) as [E1 E2];
      rewrite ?E1, ?E2; eexists _, _; (split; [reflexivity | auto]). }
  assert (Ha_round : hoare I (RevA.restore_session_key this a) (fun _ w' => Q w')).
  { intros w1 (H1 & H2 & H3).
    destruct (ambient_restore_key_valid a sa ja w1 H1 Hja) as [_ E]. rewrite E.
    eexists _, _. split; [reflexivity|]. unfold Q, I. simpl.
    rewrite lookup_insert_eq, lookup_insert_ne by congruence.
    rewrite container_value_assign_or_write. auto. }
  unfold sessionStorageKeys, localStorageKeys, ido in *.
  assert (Hh : hoare I (RevA.restore this) (fun _ w' => Q w')).
  { apply (ambient_restore_phases I I Q Q Q); rewrite ?Hp; simpl.
    - intros keys. apply hoare_forEach. intros y _.
      destruct (decide (y = b)) as [->|Hyb].
      + apply Hb_round; [auto | unfold I; frame].
      + apply ambient_restore_store_key_frame; unfold I; frame.
    - destruct (cfg_sessionStorage p) as [sks|]; simpl in *;
        [|apply elem_of_nil in Ha; contradiction].
      apply (hoare_forEach_reach I Q _ _ a Ha).
      + intros y _ Hy. destruct (decide (y = b)) as [->|Hyb].
        * apply Hb_round; [auto | unfold I; frame].
        * apply ambient_restore_session_key_frame; unfold I; frame.
      + exact Ha_round.
      + intros y _ Hy. destruct (decide (y = b)) as [->|Hyb].
        * apply Hb_round; [intros ? [? _]; assumption | unfold Q, I; frame].
        * apply ambient_restore_session_key_frame; unfold Q, I; frame.
      + left. eapply hoare_weaken; [exact Ha_round | intros ? [? ?]; assumption | auto].
    - destruct (cfg_localStorage p) as [lks|]; simpl in *; [|apply hoare_ret].
      apply hoare_forEach. intros y Hy.
      assert (y ≠ a) by (intros ->; contradiction).
      assert (y ≠ b) by (intros ->; contradiction).
      apply ambient_restore_local_key_frame; unfold Q, I; frame.
    - destruct (cfg_ido p) as [mapping|]; simpl in *; [|apply hoare_ret].
      apply hoare_forEach. intros [sp ip] Hy.
      assert (sp ≠ a).
      { intros ->. apply Hai, list_elem_of_fmap. exists (a, ip). auto. }
      assert (sp ≠ b).
      { intros ->. apply Hbi, list_elem_of_fmap. exists (b, ip). auto. }
      apply ambient_restore_ido_entry_frame; unfold Q, I; frame. }
  destruct (Hh w) as ([] & w' & E & [(_ & _ & Hstb) Hsta]).
  { unfold I. auto. }
  exists w'. auto.
Qed.

End RevA_claims.

(** * The claims on the scenario of the tests *)

Section Witnesses.
Import Scenario.
Local Existing Instance MiniJSON.codec.

Lemma restore_shared_overrides_ephemeral_witness :
  ∃ w', RevB.restore auth (Some orchestrator) seeded = Ok tt w' ∧
        container_value (store w' !! "phone") = J phones_ido ∧
        store w' !! "phone" = Some (Plain (J phones_ido)) ∧
        sessionStorage w' !! "AUTH-phone" = Some (json_print phones_ido).
Proof.
  apply (restore_shared_overrides_ephemeral auth config orchestrator
           "phone" "userPhones" (MiniJSON.print ido_record)
           [("userPhones", phones_ido)] phones_ido seeded).
  - reflexivity.
  - compute_done.
  - compute_done.
  - vm_compute. reflexivity.
  - vm_compute. reflexivity.
  - reflexivity.
Defined.

Lemma set_fans_out_to_durable_witness :
  ∃ w', RevA.set auth "login" (J login_token) seeded = Ok tt w' ∧
        sessionStorage w' !! "AUTH-login" = Some (json_print login_token) ∧
        localStorage w' !! "AUTH-login" = Some (json_print login_token) ∧
        store w' !! "login" = Some (assign_or_write (store seeded !! "login") (J login_token)) ∧
        container_value (store w' !! "login") = J login_token.
Proof.
  apply (set_fans_out_to_durable auth config "login" login_token seeded).
  - reflexivity.
  - compute_done.
Defined.

Lemma exit_moves_durable_key_witness :
  ∃ w1 w2, RevB.set auth "login" (J login_token) seeded = Ok tt w1 ∧
           RevB.exit auth None w1 = Ok tt w2 ∧
           localStorage w2 !! "AUTH-login" = Some (json_print login_token) ∧
           sessionStorage w2 !! "AUTH-login" = None.
Proof.
  apply (exit_moves_durable_key auth config "login" login_token seeded).
  - reflexivity.
  - compute_done.
Defined.

Lemma restore_isolates_corrupted_key_witness :
  ∃ w', RevB.restore auth None corrupted = Ok tt w' ∧
        store w' !! "profile" = Some (Plain (J profile_1)) ∧
        store w' !! "phone" = store corrupted !! "phone".
Proof.
  apply (restore_isolates_corrupted_key auth config "profile" "phone"
           (MiniJSON.print profile_1) "{invalid json}" profile_1 corrupted).
  - reflexivity.
  - compute_done.
  - compute_done.
  - compute_done.
  - compute_done.
  - vm_compute. reflexivity.
  - vm_compute. reflexivity.
  - vm_compute. reflexivity.
  - vm_compute. reflexivity.
Defined.

Lemma undefined_is_the_only_sentinel_witness :
  RevB.restore_session_key auth "profile" null_text =
    Ok tt (set_store (insert "profile" (Plain (J JNull))) null_text).
Proof.
  apply (undefined_is_the_only_sentinel auth "profile" Undefined).
  - vm_compute. reflexivity.
  - vm_compute. reflexivity.
Defined.

Lemma restore_without_config_is_noop_witness :
  ∃ w', RevB.restore auth_unconfigured None seeded = Ok tt w' ∧
        store w' = store seeded ∧
        sessionStorage w' = sessionStorage seeded ∧
        localStorage w' = localStorage seeded ∧
        orchestrator_data w' = orchestrator_data seeded ∧
        console w' = (console seeded ++ [Warn_restore_no_permanent_config])%list.
Proof.
  apply (restore_without_config_is_noop auth_unconfigured None seeded). reflexivity.
Defined.

Lemma get_writes_back_witness :
  RevB.get auth "profile" Undefined seeded =
    Ok (J profile_1)
       (set_store (insert "profile"
          (assign_or_write (store seeded !! "profile") (J profile_1))) seeded) ∧
  (is_Some (store seeded !! "profile") →
   ∃ result w', RevB.getAll auth seeded = Ok result w' ∧
                store w' !! "profile" =
                  Some (assign_or_write (store seeded !! "profile") (J profile_1))).
Proof.
  apply (get_writes_back auth "profile" (MiniJSON.print profile_1) profile_1 Undefined seeded).
  - vm_compute. reflexivity.
  - vm_compute. reflexivity.
Defined.

Lemma restore_durable_mirrors_before_parsing_witness :
  ∃ w', RevB.restore auth None corrupted_durable = Ok tt w' ∧
        sessionStorage w' !! "AUTH-login" = Some "{invalid json}" ∧
        store w' !! "login" = store corrupted_durable !! "login".
Proof.
  apply (restore_durable_mirrors_before_parsing auth config "login" "{invalid json}"
           corrupted_durable).
  - reflexivity.
  - compute_done.
  - vm_compute. reflexivity.
  - discriminate.
  - vm_compute. reflexivity.
Defined.

(** C5 as the specification states it fails: an ephemeral entry holding the
    text [null] is parsed by [restore()] and by [get], and the property, 1
    before the call, is JSON [null] after it. *)
Lemma null_text_is_deserialized :
  sessionStorage null_text !! "AUTH-profile" = Some "null" ∧
  store null_text !! "profile" = Some (Plain (J (JNum 1))) ∧
  (∃ w', RevB.restore auth None null_text = Ok tt w' ∧
         store w' !! "profile" = Some (Plain (J JNull)) ∧
         store w' !! "profile" ≠ store null_text !! "profile") ∧
  (∃ w', RevB.get auth "profile" Undefined null_text = Ok (J JNull) w' ∧
         store w' !! "profile" = Some (Plain (J JNull))).
Proof.
  split; [reflexivity|]. split; [reflexivity|]. split.
  - eexists. split; [vm_compute; reflexivity|]. split; [reflexivity | discriminate].
  - eexists. split; [vm_compute; reflexivity | reflexivity].
Qed.

(** C6 as the specification states it fails: [init] on a durable key whose
    value cannot be encoded returns normally; the error is logged and the
    durable backend is left as it was. *)
Lemma init_swallows_serialization_error :
  container_value (store unencodable_login !! "login") = Unencodable ∧
  RevB.init auth None unencodable_login =
    Ok tt (World (store unencodable_login) ∅ ∅ ∅
             [Error_init_storing_local "login";
              Warn_init_skipping "profile";
              Warn_init_skipping "phone"]).
Proof. split; vm_compute; reflexivity. Qed.

(** With the orchestrator passed the IDO block does run: the two calls of
    C9 differ from the call that names it. *)
Example orchestrator_argument_matters :
  store (world_of (RevB.restore auth None seeded)) !! "phone" = Some (Plain (J phone_local)) ∧
  store (world_of (RevB.restore auth (Some orchestrator) seeded)) !! "phone" =
    Some (Plain (J phones_ido)).
Proof. split; vm_compute; reflexivity. Qed.

(** The precedence of C1 on the ambient bag of revision A. *)
Example ambient_restore_shared_overrides_ephemeral_example :
  ∃ w', RevA.restore auth ambient_seeded = Ok tt w' ∧
        container_value (store w' !! "phone") = J phones_ido.
Proof.
  apply (ambient_restore_shared_overrides_ephemeral auth config
           [("phone", "userPhones")] "phone" "userPhones" (J phones_ido) ambient_seeded).
  - reflexivity.
  - reflexivity.
  - compute_done.
  - compute_done.
  - vm_compute. reflexivity.
  - discriminate.
Qed.

(** Revision A restores every property of the state object from the
    ephemeral backend before it looks at the configuration: without one,
    its [restore()] is not the no-op of C7. *)
Example ambient_restore_without_config_hydrates :
  ∃ w', RevA.restore auth_unconfigured seeded = Ok tt w' ∧
        store w' !! "profile" = Some (Reactive (J JNull) [J profile_1]) ∧
        store w' !! "phone" = Some (Plain (J phone_local)) ∧
        console w' = [].
Proof.
  eexists. split; [vm_compute; reflexivity|].
  repeat split; vm_compute; reflexivity.
Qed.

(** Revision B's [set] stops at the ephemeral backend: the fan-out of C2 is
    revision A's. *)
Example explicit_set_skips_durable :
  ∃ w', RevB.set auth "login" (J login_token) seeded = Ok tt w' ∧
        sessionStorage w' !! "AUTH-login" = Some (json_print login_token) ∧
        localStorage w' = localStorage seeded.
Proof.
  eexists. split; [vm_compute; reflexivity|].
  split; vm_compute; reflexivity.
Qed.

(** The example scenario of the specification: every tier seeded, then
    [restore(orchestrator)]. *)
Example restore_example_scenario :
  ∃ w', RevB.restore auth (Some orchestrator) seeded = Ok tt w' ∧
        container_value (store w' !! "profile") = J profile_1 ∧
        container_value (store w' !! "login") = J login_token ∧
        container_value (store w' !! "phone") = J phones_ido ∧
        console w' = [].
Proof.
  eexists. split; [vm_compute; reflexivity|].
  repeat split; vm_compute; reflexivity.
Qed.

End Witnesses.

(** * Revision B: teardown *)

Section RevB_teardown.
Context `{JSONCodec}.
Variable this : SessionStorage.
Local Abbreviation P := (KEY_PREFIX this).

(** One round of the loop of [exit], by the tier of the bare key. *)
Lemma exit_key_effect (p : PermanentConfig) (fullKey : string) (w : world) :
  RevB.exit_key this p fullKey w =
    Ok tt
      (let propertyKey := replace_first_with_empty P fullKey in
       if includes (localStorageKeys p) propertyKey then
         set_session (delete fullKey)
           match sessionStorage w !! fullKey with
           | Some s => set_local (insert fullKey s) w
           | None => w
           end
       else if includes (sessionStorageKeys p) propertyKey then
         emit (Warn_exit_keeping propertyKey) w
       else emit (Warn_exit_removed propertyKey) (set_session (delete fullKey) w)).
Proof.
  unfold RevB.exit_key. step_cmd.
  destruct (includes (localStorageKeys p) _); [destruct (sessionStorage w !! fullKey); reflexivity|].
  destruct (includes (sessionStorageKeys p) _); reflexivity.
Qed.

(** The IDO block of [exit] reads through [get]: it can rewrite the shared
    properties of the state object, log, and write the orchestrator's record;
    nothing else. *)
Lemma exit_ido_frame (p : PermanentConfig) (orch : option SessionStorage) (R : world → Prop) :
  (∀ w k c, k ∈ (ido p).*1 → R w → R (set_store (insert k c) w)) →
  (∀ w d, R w → R (emit d w)) →
  (∀ w o v, orch = Some o → R w → R (set_local (insert (orchestratorIdoKey this o) v) w)) →
  hoare R (RevB.exit_ido this p orch) (fun _ w => R w).
Proof.
  intros Hstore Hemit Hlocal. unfold RevB.exit_ido.
  destruct orch as [o|]; [|destruct (ido p); apply hoare_ret].
  destruct (ido p) as [|e rest] eqn:Hido; [apply hoare_ret|].
  eapply hoare_bind.
  - apply hoare_foldM. intros idoData [sp ip] Hin.
    assert (sp ∈ (e :: rest).*1) by (apply list_elem_of_fmap; exists (sp, ip); auto).
    eapply hoare_bind; [apply get_frame; auto|].
    intros v w Hw. run_cmd; auto.
  - intros idoData. apply store_ido_total; eauto.
Qed.

(** The last loop of [exit] only deletes properties. *)
Lemma exit_cleanup_frame (p : PermanentConfig) (keys : list string) (R : world → Prop) :
  (∀ w k, R w → R (set_store (delete k) w)) →
  hoare R
    (forEach keys (fun key =>
       when (negb (includes (localStorageKeys p) key)
             && negb (includes (sessionStorageKeys p) key))
            (store_delete key)))
    (fun _ w => R w).
Proof.
  intros Hdel. apply hoare_forEach. intros y _ w Hw. run_cmd; auto.
Qed.

(** [exit] with a configuration, phase by phase. *)
Lemma exit_phases (p : PermanentConfig) (orch : option SessionStorage)
    (A B C D : world → Prop) :
  permanent this = Some p →
  (∀ w, A w →
     ∃ w', forEach (List.filter (fun key => startsWith key P) (Object_keys (sessionStorage w)))
             (RevB.exit_key this p) w = Ok tt w' ∧ B w') →
  hoare B (RevB.exit_ido this p orch) (fun _ w => C w) →
  (∀ w, C w →
     ∃ w', forEach (Object_keys (store w))
             (fun key =>
                when (negb (includes (localStorageKeys p) key)
                      && negb (includes (sessionStorageKeys p) key))
                     (store_delete key)) w = Ok tt w' ∧ D w') →
  hoare A (RevB.exit this orch) (fun _ w => D w).
Proof.
  intros Hp H1 H2 H3 w Hw. unfold RevB.exit. rewrite Hp.
  unfold bind at 1. unfold gets at 1.
  destruct (H1 w Hw) as (w1 & E1 & Hw1). unfold bind at 1. rewrite E1.
  destruct (H2 w1 Hw1) as ([] & w2 & E2 & Hw2). unfold bind at 1. rewrite E2.
  unfold bind at 1. unfold gets at 1.
  destruct (H3 w2 Hw2) as (w3 & E3 & Hw3). rewrite E3. eauto.
Qed.

Lemma NoDup_filter_keys {V} (m : gmap string V) (f : string → bool) :
  NoDup (List.filter f (Object_keys m)).
Proof.
  apply NoDup_ListNoDup, List.NoDup_filter, NoDup_ListNoDup, NoDup_Object_keys.
Qed.

Lemma elem_of_filter_keys {V} (m : gmap string V) (f : string → bool) (k : string) :
  k ∈ List.filter f (Object_keys m) ↔ is_Some (m !! k) ∧ f k = true.
Proof.
  rewrite list_elem_of_In, filter_In, <- list_elem_of_In, elem_of_Object_keys. reflexivity.
Qed.

(** X1.  Where [exit] leaves every entry of the ephemeral backend: under the
    prefix, a durable key and an unconfigured key lose their entry and a
    session key keeps it; outside the prefix nothing changes.  With or
    without an orchestrator. *)
Theorem exit_ephemeral_placement
    (p : PermanentConfig) (orch : option SessionStorage) (fullKey : string) (w : world) :
  permanent this = Some p →
  ∃ w', RevB.exit this orch w = Ok tt w' ∧
        sessionStorage w' !! fullKey =
          if startsWith fullKey P then
            let propertyKey := replace_first_with_empty P fullKey in
            if includes (localStorageKeys p) propertyKey then None
            else if includes (sessionStorageKeys p) propertyKey
                 then sessionStorage w !! fullKey
                 else None
          else sessionStorage w !! fullKey.
Proof.
  intros Hp.
  match goal with |- ∃ w', _ ∧ _ = ?t => set (target := t) end.
  pose (A := fun w' : world => sessionStorage w' = sessionStorage w).
  pose (Q := fun w' : world => sessionStorage w' !! fullKey = target).
  assert (Hh : hoare A (RevB.exit this orch) (fun _ w' => Q w')).
  { apply (exit_phases p orch A Q Q Q Hp).
    - intros w1 Hw1. unfold A in Hw1. rewrite Hw1.
      assert (Hgoal : ∃ (a : unit) w', forEach
                 (List.filter (fun key => startsWith key P) (Object_keys (sessionStorage w)))
                 (RevB.exit_key this p) w1 = Ok a w' ∧ Q w');
        [|destruct Hgoal as ([] & w' & E & Hq); eauto].
      destruct (sessionStorage w !! fullKey) as [s|] eqn:Hs.
      + destruct (startsWith fullKey P) eqn:Hpre.
        * pose (A1 := fun w' : world => sessionStorage w' !! fullKey = Some s).
          apply (hoare_forEach_reach A1 Q _ _ fullKey).
          -- apply elem_of_filter_keys. rewrite Hs. eauto.
          -- intros y _ Hy. apply exit_key_frame; unfold A1; frame.
          -- intros w2 Hw2. rewrite exit_key_effect. eexists _, _. split; [reflexivity|].
             unfold Q, target. rewrite ?Hpre. simpl.
             destruct (includes (localStorageKeys p) _); simpl.
             ++ destruct (sessionStorage w2 !! fullKey); simpl; apply lookup_delete_eq.
             ++ destruct (includes (sessionStorageKeys p) _); simpl;
                  [exact Hw2 | apply lookup_delete_eq].
          -- intros y _ Hy. apply exit_key_frame; unfold Q; frame.
          -- right. apply NoDup_filter_keys.
          -- unfold A1. rewrite Hw1. exact Hs.
        * apply (hoare_forEach Q).
          -- intros y Hy. apply elem_of_filter_keys in Hy as [_ Hy].
             assert (y ≠ fullKey) by (intros ->; congruence).
             apply exit_key_frame; unfold Q; frame.
          -- unfold Q, target. rewrite ?Hpre, Hw1. exact Hs.
      + assert (Htarget : target = None).
        { unfold target. destruct (startsWith fullKey P); [|reflexivity]. simpl.
          destruct (includes (localStorageKeys p) _); [reflexivity|].
          destruct (includes (sessionStorageKeys p) _); reflexivity. }
        apply (hoare_forEach Q).
        * intros y _. apply exit_key_frame; unfold Q; rewrite Htarget; intros; simpl;
            try assumption.
          rewrite lookup_delete. case_decide; [reflexivity | assumption].
        * unfold Q. rewrite Htarget, Hw1. exact Hs.
    - apply exit_ido_frame; unfold Q; frame.
    - intros w1 Hw1.
      destruct (exit_cleanup_frame p (Object_keys (store w1)) Q) with (w := w1)
        as ([] & w' & E & Hq); [unfold Q; frame | exact Hw1 | eauto]. }
  destruct (Hh w) as ([] & w' & E & Hq); [reflexivity|]. eauto.
Qed.

Lemma hoare_run {A} (R : world → Prop) (Q : A → world → Prop) (m : M A)
    (w w' : world) (a : A) :
  hoare R m Q → R w → m w = Ok a w' → Q a w'.
Proof.
  intros Hm Hw E. destruct (Hm w Hw) as (a' & w'' & E' & Hq).
  rewrite E in E'. injection E' as <- <-. exact Hq.
Qed.

(** X2.  Where [exit] leaves every entry of the durable backend: a durable key
    with an ephemeral entry under the prefix receives that entry; every
    other entry is as before, the orchestrator's record apart. *)
Theorem exit_durable_placement
    (p : PermanentConfig) (orch : option SessionStorage) (fullKey : string) (w : world) :
  permanent this = Some p →
  (∀ o, orch = Some o → orchestratorIdoKey this o ≠ fullKey) →
  ∃ w', RevB.exit this orch w = Ok tt w' ∧
        localStorage w' !! fullKey =
          if startsWith fullKey P
             && includes (localStorageKeys p) (replace_first_with_empty P fullKey)
          then match sessionStorage w !! fullKey with
               | Some s => Some s
               | None => localStorage w !! fullKey
               end
          else localStorage w !! fullKey.
Proof.
  intros Hp Horch.
  match goal with |- ∃ w', _ ∧ _ = ?t => set (target := t) end.
  pose (A := fun w' : world =>
    sessionStorage w' = sessionStorage w ∧ localStorage w' = localStorage w).
  pose (Q := fun w' : world => localStorage w' !! fullKey = target).
  assert (Hh : hoare A (RevB.exit this orch) (fun _ w' => Q w')).
  { apply (exit_phases p orch A Q Q Q Hp).
    - intros w1 [Hs1 Hl1]. rewrite Hs1.
      assert (Hgoal : ∃ (a : unit) w', forEach
                 (List.filter (fun key => startsWith key P) (Object_keys (sessionStorage w)))
                 (RevB.exit_key this p) w1 = Ok a w' ∧ Q w');
        [|destruct Hgoal as ([] & w' & E & Hq); eauto].
      destruct (decide (fullKey ∈ List.filter (fun key => startsWith key P)
                                   (Object_keys (sessionStorage w)))) as [Hin|Hnotin].
      + pose proof Hin as Hin'. apply elem_of_filter_keys in Hin' as [[s Hs] Hpre].
        pose (A1 := fun w' : world =>
          sessionStorage w' !! fullKey = Some s ∧
          localStorage w' !! fullKey = localStorage w !! fullKey).
        apply (hoare_forEach_reach A1 Q _ _ fullKey Hin).
        * intros y _ Hy. apply exit_key_frame; unfold A1; frame.
        * intros w2 [Hw2 Hl2]. rewrite exit_key_effect. eexists _, _. split; [reflexivity|].
          unfold Q, target. rewrite Hpre, Hs. simpl.
          destruct (includes (localStorageKeys p) _); simpl.
          -- rewrite Hw2. simpl. apply lookup_insert_eq.
          -- destruct (includes (sessionStorageKeys p) _); simpl; exact Hl2.
        * intros y _ Hy. apply exit_key_frame; unfold Q; frame.
        * right. apply NoDup_filter_keys.
        * unfold A1. rewrite Hs1, Hl1. auto.
      + assert (Htarget : target = localStorage w !! fullKey).
        { unfold target. destruct (startsWith fullKey P) eqn:Hpre; [|reflexivity].
          destruct (sessionStorage w !! fullKey) as [s|] eqn:Hs.
          - exfalso. apply Hnotin, elem_of_filter_keys. rewrite Hs. eauto.
          - destruct (includes _ _); reflexivity. }
        apply (hoare_forEach Q).
        * intros y Hy. assert (y ≠ fullKey) by (intros ->; contradiction).
          apply exit_key_frame; unfold Q; frame.
        * unfold Q. rewrite Htarget, Hl1. reflexivity.
    - apply exit_ido_frame; unfold Q; intros; simpl; try assumption.
      rewrite lookup_insert_ne; [assumption | eauto].
    - intros w1 Hw1.
      destruct (exit_cleanup_frame p (Object_keys (store w1)) Q) with (w := w1)
        as ([] & w' & E & Hq); [unfold Q; frame | exact Hw1 | eauto]. }
  destruct (Hh w) as ([] & w' & E & Hq); [split; reflexivity|]. eauto.
Qed.

Lemma exit_loop_total (p : PermanentConfig) (keys : list string) :
  hoare (fun _ => True) (forEach keys (RevB.exit_key this p)) (fun _ _ => True).
Proof. apply hoare_forEach. intros y _. apply exit_key_frame; auto. Qed.

(** X3.  A property that is in neither the durable nor the ephemeral tier is
    gone from the state object once [exit] returns, with or without an
    orchestrator. *)
Theorem exit_releases_unconfigured_property
    (p : PermanentConfig) (orch : option SessionStorage) (k : string) (w : world) :
  permanent this = Some p →
  k ∉ localStorageKeys p →
  k ∉ sessionStorageKeys p →
  ∃ w', RevB.exit this orch w = Ok tt w' ∧ store w' !! k = None.
Proof.
  intros Hp Hl Hs.
  pose (Q := fun w' : world => store w' !! k = None).
  assert (Hh : hoare (fun _ => True) (RevB.exit this orch) (fun _ w' => Q w')).
  { apply (exit_phases p orch (fun _ => True) (fun _ => True) (fun _ => True) Q Hp).
    - intros w1 _. destruct (exit_loop_total p
        (List.filter (fun key => startsWith key P) (Object_keys (sessionStorage w1))) w1 I)
        as ([] & w' & E & _). eauto.
    - apply exit_ido_frame; auto.
    - intros w1 _.
      assert (Hround : ∀ R : world → Prop,
                hoare R (when (negb (includes (localStorageKeys p) k)
                               && negb (includes (sessionStorageKeys p) k))
                              (store_delete k)) (fun _ w' => Q w')).
      { intros R w2 _. unfold includes.
        rewrite !bool_decide_eq_false_2 by assumption. simpl.
        eexists _, _. split; [reflexivity|]. unfold Q. simpl. apply lookup_delete_eq. }
      assert (Hkeep : ∀ y, hoare Q (when (negb (includes (localStorageKeys p) y)
                               && negb (includes (sessionStorageKeys p) y))
                              (store_delete y)) (fun _ w' => Q w')).
      { intros y w2 Hw2. unfold when.
        destruct (negb (includes (localStorageKeys p) y)
                  && negb (includes (sessionStorageKeys p) y));
          eexists _, _; (split; [reflexivity|]); [|exact Hw2].
        unfold Q in *. simpl. rewrite lookup_delete. case_decide; [reflexivity | assumption]. }
      assert (Hgoal : ∃ (a : unit) w', forEach (Object_keys (store w1))
                 (fun key => when (negb (includes (localStorageKeys p) key)
                                   && negb (includes (sessionStorageKeys p) key))
                                  (store_delete key)) w1 = Ok a w' ∧ Q w');
        [|destruct Hgoal as ([] & w' & E & Hq); eauto].
      destruct (store w1 !! k) as [c|] eqn:Hk.
      + apply (hoare_forEach_reach (fun _ => True) Q _ _ k); auto.
        * apply elem_of_Object_keys. rewrite Hk. eauto.
        * intros y _ _ w2 _. run_cmd; auto.
      + apply (hoare_forEach Q); [intros y _; apply Hkeep | exact Hk]. }
  destruct (Hh w I) as ([] & w' & E & Hq). eauto.
Qed.

(** X4.  A property of the durable or of the ephemeral tier stays in the state
    object through [exit], as it was, unless an orchestrator is passed and
    the property is shared (the IDO block then reads it back through
    [get]). *)
Theorem exit_keeps_persisted_property
    (p : PermanentConfig) (orch : option SessionStorage) (k : string) (w : world) :
  permanent this = Some p →
  k ∈ localStorageKeys p ∨ k ∈ sessionStorageKeys p →
  orch = None ∨ k ∉ (ido p).*1 →
  ∃ w', RevB.exit this orch w = Ok tt w' ∧ store w' !! k = store w !! k.
Proof.
  intros Hp Hk Hshared.
  pose (Q := fun w' : world => store w' !! k = store w !! k).
  assert (Hh : hoare Q (RevB.exit this orch) (fun _ w' => Q w')).
  { apply (exit_phases p orch Q Q Q Q Hp).
    - intros w1 Hw1.
      destruct (hoare_forEach Q
        (List.filter (fun key => startsWith key P) (Object_keys (sessionStorage w1)))
        (RevB.exit_key this p)) with (w := w1) as ([] & w' & E & Hq); eauto.
      intros y _. apply exit_key_frame; unfold Q; frame.
    - destruct Hshared as [->|Hnot].
      + rewrite exit_ido_without_orchestrator. apply hoare_ret.
      + apply exit_ido_frame; unfold Q; intros; simpl; try assumption.
        rewrite lookup_insert_ne; [assumption | intros ->; contradiction].
    - intros w1 Hw1.
      destruct (hoare_forEach Q (Object_keys (store w1))
        (fun key => when (negb (includes (localStorageKeys p) key)
                          && negb (includes (sessionStorageKeys p) key))
                         (store_delete key))) with (w := w1) as ([] & w' & E & Hq); eauto.
      intros y _ w2 Hw2. unfold when.
      destruct (negb (includes (localStorageKeys p) y)
                && negb (includes (sessionStorageKeys p) y)) eqn:Hb.
      + assert (y ≠ k).
        { intros ->. apply andb_prop in Hb as [H1 H2]. unfold includes in *.
          apply negb_true_iff in H1, H2.
          destruct Hk as [Hk|Hk]; [rewrite bool_decide_eq_true_2 in H1 by exact Hk
                                  | rewrite bool_decide_eq_true_2 in H2 by exact Hk];
            discriminate. }
        eexists _, _. split; [reflexivity|]. unfold Q in *. simpl.
        rewrite lookup_delete_ne by assumption. exact Hw2.
      + eexists _, _. split; [reflexivity | exact Hw2]. }
  destruct (Hh w) as ([] & w' & E & Hq); [reflexivity|]. eauto.
Qed.

(** ** [removeAll] *)

Lemma removeAll_phases (A B C : world → Prop) :
  (∀ w, A w →
     ∃ w', forEach (Object_keys (sessionStorage w))
             (fun key => when (startsWith key P) (session_removeItem key)) w = Ok tt w' ∧ B w') →
  (∀ w, B w →
     ∃ w', forEach (Object_keys (store w)) (fun key => store_delete key) w = Ok tt w' ∧ C w') →
  hoare A (RevB.removeAll this) (fun _ w => C w).
Proof.
  intros H1 H2 w Hw. unfold RevB.removeAll.
  unfold bind at 1. unfold gets at 1.
  destruct (H1 w Hw) as (w1 & E1 & Hw1). unfold bind at 1. rewrite E1.
  unfold bind at 1. unfold gets at 1.
  destruct (H2 w1 Hw1) as (w2 & E2 & Hw2). rewrite E2. eauto.
Qed.

Lemma removeAll_loops_frame (keys : list string) (R : world → Prop) :
  (∀ w k, R w → R (set_session (delete k) w)) →
  (∀ w k, R w → R (set_store (delete k) w)) →
  hoare R (forEach keys (fun key => when (startsWith key P) (session_removeItem key)))
        (fun _ w => R w) ∧
  hoare R (forEach keys (fun key => store_delete key)) (fun _ w => R w).
Proof.
  intros Hs Hst. split; apply hoare_forEach; intros y _ w Hw; run_cmd; auto.
Qed.

Lemma removeAll_frame (R : world → Prop) :
  (∀ w k, R w → R (set_session (delete k) w)) →
  (∀ w k, R w → R (set_store (delete k) w)) →
  hoare R (RevB.removeAll this) (fun _ w => R w).
Proof.
  intros Hs Hst. apply (removeAll_phases R R R); intros w Hw.
  - destruct (proj1 (removeAll_loops_frame (Object_keys (sessionStorage w)) R Hs Hst) w Hw)
      as ([] & w' & E & Hq). eauto.
  - destruct (proj2 (removeAll_loops_frame (Object_keys (store w)) R Hs Hst) w Hw)
      as ([] & w' & E & Hq). eauto.
Qed.

(** X5.  [removeAll()], which is [exit] on an instance without a configuration:
    the state object is left empty, every ephemeral entry under the prefix is
    gone and every other one is kept; the durable backend and the console are
    not touched. *)
Theorem removeAll_clears_namespace (orch : option SessionStorage) (w : world) :
  ∃ w', RevB.removeAll this w = Ok tt w' ∧
        (permanent this = None → RevB.exit this orch w = Ok tt w') ∧
        store w' = ∅ ∧
        (∀ key, sessionStorage w' !! key =
                  if startsWith key P then None else sessionStorage w !! key) ∧
        localStorage w' = localStorage w ∧
        console w' = console w.
Proof.
  destruct (removeAll_frame (fun _ => True)) with (w := w) as ([] & w' & E & _); auto.
  exists w'. split; [exact E|]. split; [|split; [|split]].
  - intros Hp. unfold RevB.exit. rewrite Hp. exact E.
  - apply map_eq. intros k. rewrite lookup_empty.
    pose (Q := fun w1 : world => store w1 !! k = None).
    refine (hoare_run (fun _ => True) (fun _ => Q) _ w w' tt _ I E).
    apply (removeAll_phases (fun _ => True) (fun _ => True) Q).
    + intros w1 _.
      destruct (proj1 (removeAll_loops_frame (Object_keys (sessionStorage w1))
                         (fun _ => True) (fun _ _ _ => I) (fun _ _ _ => I)) w1 I)
        as ([] & w2 & E2 & _). eauto.
    + intros w1 _.
      assert (Hkeep : ∀ y, hoare Q (store_delete y) (fun _ w2 => Q w2)).
      { intros y w2 Hw2. eexists _, _. split; [reflexivity|]. unfold Q in *. simpl.
        rewrite lookup_delete. case_decide; [reflexivity | assumption]. }
      assert (Hgoal : ∃ (a : unit) w2,
                forEach (Object_keys (store w1)) (fun key => store_delete key) w1 = Ok a w2 ∧ Q w2);
        [|destruct Hgoal as ([] & w2 & E2 & Hq); eauto].
      destruct (store w1 !! k) as [c|] eqn:Hk.
      * apply (hoare_forEach_reach (fun _ => True) Q _ _ k); auto.
        -- apply elem_of_Object_keys. rewrite Hk. eauto.
        -- intros y _ _ w2 _. eexists _, _. split; [reflexivity | exact I].
        -- intros w2 _. eexists _, _. split; [reflexivity|]. unfold Q. simpl.
           apply lookup_delete_eq.
      * apply (hoare_forEach Q); [intros y _; apply Hkeep | exact Hk].
  - intros key.
    pose (A := fun w1 : world => sessionStorage w1 = sessionStorage w).
    pose (Q := fun w1 : world =>
      sessionStorage w1 !! key = if startsWith key P then None else sessionStorage w !! key).
    refine (hoare_run A (fun _ => Q) _ w w' tt _ eq_refl E).
    apply (removeAll_phases A Q Q).
    + intros w1 Hw1. unfold A in Hw1. rewrite Hw1.
      assert (Hgoal : ∃ (a : unit) w2,
                forEach (Object_keys (sessionStorage w))
                  (fun key0 => when (startsWith key0 P) (session_removeItem key0)) w1
                  = Ok a w2 ∧ Q w2);
        [|destruct Hgoal as ([] & w2 & E2 & Hq); eauto].
      destruct (startsWith key P) eqn:Hpre.
      * assert (Hkeep : ∀ y, hoare Q (when (startsWith y P) (session_removeItem y))
                               (fun _ w2 => Q w2)).
        { intros y w2 Hw2. unfold when. destruct (startsWith y P);
            eexists _, _; (split; [reflexivity|]); [|exact Hw2].
          unfold Q in *. rewrite ?Hpre in *. simpl.
          rewrite lookup_delete. case_decide; [reflexivity | assumption]. }
        destruct (sessionStorage w !! key) as [s|] eqn:Hs.
        -- apply (hoare_forEach_reach (fun _ => True) Q _ _ key); auto.
           ++ apply elem_of_Object_keys. rewrite Hs. eauto.
           ++ intros y _ _ w2 _. unfold when. destruct (startsWith y P);
                eexists _, _; (split; [reflexivity | exact I]).
           ++ intros w2 _. rewrite ?Hpre. eexists _, _. split; [reflexivity|].
              unfold Q. rewrite ?Hpre. simpl. apply lookup_delete_eq.
        -- apply (hoare_forEach Q); [intros y _; apply Hkeep|].
           unfold Q. rewrite ?Hpre, Hw1. exact Hs.
      * apply (hoare_forEach Q).
        -- intros y _ w2 Hw2. unfold when. destruct (startsWith y P) eqn:Hy;
             eexists _, _; (split; [reflexivity|]); [|exact Hw2].
           assert (y ≠ key) by (intros ->; congruence).
           unfold Q in *. rewrite ?Hpre in *. simpl.
           rewrite lookup_delete_ne by assumption. exact Hw2.
        -- unfold Q. rewrite ?Hpre, Hw1. reflexivity.
    + intros w1 Hw1.
      destruct (hoare_forEach Q (Object_keys (store w1)) (fun key0 => store_delete key0))
        with (w := w1) as ([] & w2 & E2 & Hq); eauto.
      intros y _ w2 Hw2. eexists _, _. split; [reflexivity | exact Hw2].
  - refine (hoare_run (fun w1 => localStorage w1 = localStorage w ∧ console w1 = console w)
              (fun _ w1 => localStorage w1 = localStorage w ∧ console w1 = console w)
              _ w w' tt _ (conj eq_refl eq_refl) E).
    apply removeAll_frame; auto.
Qed.

End RevB_teardown.

(** * Revision B: reading and writing single properties *)

Section RevB_access.
Context `{JSONCodec}.
Variable this : SessionStorage.
Local Abbreviation P := (KEY_PREFIX this).

(** X6.  [get] on an entry that is missing or does not parse (the text
    [undefined] included): the result is [defaultValue ?? null], never
    [undefined]; the call returns normally and changes neither the state
    object nor a backend. *)
Theorem get_falls_back_to_default (k : string) (dv : value) (w : world) :
  (∀ s, sessionStorage w !! (P ++ k) = Some s → json_parse s = None) →
  ∃ w', RevB.get this k dv w = Ok (nullish dv JS_null) w' ∧
        store w' = store w ∧
        sessionStorage w' = sessionStorage w ∧
        localStorage w' = localStorage w.
Proof.
  intros Hbad. unfold RevB.get. step_cmd.
  destruct (sessionStorage w !! (P ++ k)) as [s|]; [|eauto].
  destruct (String.eqb s "undefined"); [eauto|].
  rewrite (Hbad s eq_refl). eauto.
Qed.

Lemma set_value (key : string) (v : value) (w : world) :
  v ≠ Unencodable →
  RevB.set this key v w =
    Ok tt (if is_signal (store w !! key)
           then set_session (insert (P ++ key) (stored_text v))
                  (set_store (insert key (assign_or_write (store w !! key) v)) w)
           else set_store (insert key (Plain v))
                  (set_session (insert (P ++ key) (stored_text v)) w)).
Proof.
  intros Hv. unfold RevB.set. step_cmd.
  destruct v; [|contradiction|]; destruct (store w !! key) as [[i l|u]|]; reflexivity.
Qed.

Lemma set_value_lookups (key : string) (v : value) (w : world) :
  v ≠ Unencodable →
  ∃ w', RevB.set this key v w = Ok tt w' ∧
        sessionStorage w' = <[P ++ key := stored_text v]> (sessionStorage w) ∧
        store w' = <[key := assign_or_write (store w !! key) v]> (store w) ∧
        localStorage w' = localStorage w ∧
        console w' = console w.
Proof.
  intros Hv. rewrite (set_value key v w Hv).
  destruct (store w !! key) as [[i l|u]|]; simpl; eauto 10.
Qed.

(** X7.  [set] then [get]: what was set comes back through the ephemeral
    backend, for every value the codec reads back as it printed it, and the
    state object holds it. *)
Theorem set_then_get (k : string) (j : json) (dv : value) (w : world) :
  json_parse (json_print j) = Some j →
  ∃ w1 w2, RevB.set this k (J j) w = Ok tt w1 ∧
           RevB.get this k dv w1 = Ok (J j) w2 ∧
           container_value (store w2 !! k) = J j ∧
           sessionStorage w2 !! (P ++ k) = Some (json_print j).
Proof.
  intros Hrt.
  destruct (set_value_lookups k (J j) w) as (w1 & E1 & Hs & Hst & _); [discriminate|].
  assert (Hl : sessionStorage w1 !! (P ++ k) = Some (json_print j))
    by (rewrite Hs; apply lookup_insert_eq).
  exists w1. eexists. split; [exact E1|]. split; [apply (get_valid this k _ j dv w1 Hl Hrt)|].
  simpl. rewrite lookup_insert_eq. split; [|exact Hl].
  apply container_value_assign_or_write.
Qed.

(** X8.  [set(k, undefined)]: [JSON.stringify] answers [undefined], the backend
    stores the text [undefined], and a later [get] reads the key as absent:
    it returns [defaultValue ?? null] and changes nothing. *)
Theorem set_undefined_reads_as_absent (k : string) (dv : value) (w : world) :
  ∃ w1, RevB.set this k Undefined w = Ok tt w1 ∧
        sessionStorage w1 !! (P ++ k) = Some "undefined" ∧
        container_value (store w1 !! k) = Undefined ∧
        RevB.get this k dv w1 = Ok (nullish dv JS_null) w1.
Proof.
  destruct (set_value_lookups k Undefined w) as (w1 & E1 & Hs & Hst & _); [discriminate|].
  assert (Hl : sessionStorage w1 !! (P ++ k) = Some "undefined")
    by (rewrite Hs; apply lookup_insert_eq).
  exists w1. split; [exact E1|]. split; [exact Hl|]. split.
  - rewrite Hst, lookup_insert_eq. apply container_value_assign_or_write.
  - unfold RevB.get. step_cmd. rewrite Hl. reflexivity.
Qed.

(** X9.  [remove]: the property leaves the state object and the ephemeral
    backend, every other property and entry stays, and a later [get] of the
    key falls back to [defaultValue ?? null]. *)
Theorem remove_forgets (k : string) (dv : value) (w : world) :
  ∃ w1, RevB.remove this k w = Ok tt w1 ∧
        store w1 = delete k (store w) ∧
        sessionStorage w1 = delete (P ++ k) (sessionStorage w) ∧
        localStorage w1 = localStorage w ∧
        RevB.get this k dv w1 = Ok (nullish dv JS_null) w1.
Proof.
  eexists. split; [reflexivity|]. simpl. repeat split.
  unfold RevB.get. step_cmd. rewrite lookup_delete_eq. reflexivity.
Qed.

End RevB_access.

(** * Commands that may throw *)

Lemma triple_of_hoare {A} (Pre : world → Prop) (m : M A) (Q : A → world → Prop)
    (Qex : exn → world → Prop) :
  hoare Pre m Q → triple Pre m Q Qex.
Proof. intros Hm w Hw. destruct (Hm w Hw) as (a & w' & E & Hq). rewrite E. exact Hq. Qed.

Lemma triple_bind {A B} (Pre : world → Prop) (Q : A → world → Prop)
    (R : B → world → Prop) (Qex : exn → world → Prop) (m : M A) (k : A → M B) :
  triple Pre m Q Qex → (∀ a, triple (Q a) (k a) R Qex) → triple Pre (bind m k) R Qex.
Proof.
  intros Hm Hk w Hw. unfold bind. specialize (Hm w Hw).
  destruct (m w) as [a w'|e w']; [apply Hk, Hm | exact Hm].
Qed.

Lemma triple_forEach {A} (I : world → Prop) (Qex : exn → world → Prop)
    (xs : list A) (f : A → M unit) :
  (∀ x, x ∈ xs → triple I (f x) (fun _ w => I w) Qex) →
  triple I (forEach xs f) (fun _ w => I w) Qex.
Proof.
  induction xs as [|x rest IH]; intros Hf; simpl.
  - intros w Hw. exact Hw.
  - eapply triple_bind; [apply Hf; left|]. intros []. apply IH.
    intros y Hy. apply Hf. right. exact Hy.
Qed.

(** A loop whose rounds keep [I] until one throws, and whose round of [x]
    always throws, throws. *)
Lemma forEach_throws {A} (I : world → Prop) (Qex : exn → world → Prop)
    (xs : list A) (f : A → M unit) (x : A) :
  x ∈ xs →
  (∀ y, y ∈ xs → triple I (f y) (fun _ w => I w) Qex) →
  triple I (f x) (fun _ _ => False) Qex →
  triple I (forEach xs f) (fun _ _ => False) Qex.
Proof.
  induction xs as [|y rest IH]; intros Hin Hf Hx.
  - inversion Hin.
  - simpl. intros w Hw. unfold bind.
    apply elem_of_cons in Hin as [<-|Hin].
    + specialize (Hx w Hw). destruct (f x w) as [a w'|e w']; [contradiction | exact Hx].
    + assert (Hyin : y ∈ y :: rest) by left.
      pose proof (Hf y Hyin w Hw) as Hy.
      destruct (f y w) as [a w'|e w']; [|exact Hy].
      apply IH; auto. intros z Hz. apply Hf. right. exact Hz.
Qed.

(** A fold that carries a result: the invariant sees the rounds done. *)
Lemma hoare_foldM_acc {A S} (Inv : list A → S → world → Prop)
    (all : list A) (f : S → A → M S) :
  (∀ done x rest s, all = (done ++ x :: rest)%list →
     hoare (Inv done s) (f s x) (fun s' w' => Inv (done ++ [x])%list s' w')) →
  ∀ xs done s, all = (done ++ xs)%list →
    hoare (Inv done s) (foldM xs f s) (fun s' w' => Inv all s' w').
Proof.
  intros Hf. induction xs as [|x rest IH]; intros done s Hall; simpl.
  - rewrite app_nil_r in Hall. subst. intros w Hw. exists s, w. auto.
  - eapply hoare_bind; [apply (Hf done x rest s Hall)|].
    intros s'. apply IH. rewrite <- app_assoc. exact Hall.
Qed.

Lemma assoc_set_eq {V} (k : string) (v : V) (l : list (string * V)) :
  assoc k (assoc_set k v l) = Some v.
Proof.
  induction l as [|[k' v'] l IH]; simpl.
  - rewrite String.eqb_refl. reflexivity.
  - destruct (String.eqb_spec k' k) as [->|Hne]; simpl.
    + rewrite String.eqb_refl. reflexivity.
    + apply String.eqb_neq in Hne. rewrite Hne. exact IH.
Qed.

Lemma assoc_set_ne {V} (k k' : string) (v : V) (l : list (string * V)) :
  k ≠ k' → assoc k (assoc_set k' v l) = assoc k l.
Proof.
  intros Hne. induction l as [|[k0 v0] l IH]; simpl.
  - assert (E : String.eqb k' k = false) by (apply String.eqb_neq; congruence).
    rewrite E. reflexivity.
  - destruct (String.eqb_spec k0 k') as [->|Hne0]; simpl.
    + assert (E : String.eqb k' k = false) by (apply String.eqb_neq; congruence).
      rewrite E. reflexivity.
    + destruct (String.eqb k0 k); [reflexivity | exact IH].
Qed.

(** * Revision B: [setAll] and [getAll] *)

Section RevB_bulk.
Context `{JSONCodec}.
Variable this : SessionStorage.
Local Abbreviation P := (KEY_PREFIX this).

(** The callback of [keys.forEach] in [setAll]. *)
Local Abbreviation setAll_round :=
  (fun key : string =>
     storeProperty <- store_get key ;;
     if is_signal storeProperty then throw TypeError
     else RevB.set this key (container_value storeProperty)).

Lemma setAll_round_plain (y : string) (v : value) (w : world) :
  store w !! y = Some (Plain v) →
  v ≠ Unencodable →
  ∃ w', setAll_round y w = Ok tt w' ∧
        sessionStorage w' = <[P ++ y := stored_text v]> (sessionStorage w) ∧
        store w' = store w ∧
        localStorage w' = localStorage w.
Proof.
  intros Hy Hv.
  destruct (set_value_lookups this y v w Hv) as (w' & E & Hs & Hst & Hl & _).
  exists w'. unfold bind, store_get, gets. rewrite Hy. simpl.
  split; [exact E|]. split; [exact Hs|]. split; [|exact Hl].
  rewrite Hst, Hy. apply insert_id. exact Hy.
Qed.

Lemma setAll_round_throws (y : string) (c : cell) (w : world) :
  store w !! y = Some c →
  is_signal (Some c) = true ∨ cell_read c = Unencodable →
  setAll_round y w = Thrown TypeError w.
Proof.
  intros Hy Hc. unfold bind at 1, store_get, gets. rewrite Hy.
  destruct c as [i l|v]; [reflexivity|].
  destruct Hc as [Hc|Hc]; [discriminate|]. simpl in Hc. subst v.
  simpl. unfold RevB.set. step_cmd. rewrite Hy. reflexivity.
Qed.

Lemma cell_cases (c : cell) :
  (is_signal (Some c) = true ∨ cell_read c = Unencodable) ∨
  (∃ v, c = Plain v ∧ v ≠ Unencodable).
Proof.
  destruct c as [i l|[| |j]]; simpl; eauto; right; eexists; (split; [reflexivity | discriminate]).
Qed.

(** X10.  [setAll()] on a state object of plain values none of which makes
    [JSON.stringify] throw: the call returns normally, every property has
    its value serialized in the ephemeral backend under its namespaced key,
    every other ephemeral entry is as before, and neither the state object
    nor the durable backend has changed. *)
Theorem setAll_publishes_state (w : world) :
  (∀ k c, store w !! k = Some c → ∃ v, c = Plain v ∧ v ≠ Unencodable) →
  ∃ w', RevB.setAll this w = Ok tt w' ∧
        (∀ k v, store w !! k = Some (Plain v) →
                sessionStorage w' !! (P ++ k) = Some (stored_text v)) ∧
        (∀ fullKey, (∀ k, is_Some (store w !! k) → fullKey ≠ P ++ k) →
                    sessionStorage w' !! fullKey = sessionStorage w !! fullKey) ∧
        store w' = store w ∧
        localStorage w' = localStorage w.
Proof.
  intros Hplain. unfold RevB.setAll. unfold bind at 1. unfold gets at 1.
  pose (Inv := fun w' : world => store w' = store w ∧ localStorage w' = localStorage w).
  assert (Hkeep : ∀ (R : world → Prop) y, y ∈ Object_keys (store w) →
    (∀ w1 v, R w1 → R (set_session (insert (P ++ y) v) w1)) →
    (∀ w1 w2, R w1 → sessionStorage w2 = sessionStorage w1 → R w2) →
    hoare (fun w1 => Inv w1 ∧ R w1) (setAll_round y) (fun _ w2 => Inv w2 ∧ R w2)).
  { intros R y Hy HR HR' w1 [[Hst Hl] Hr].
    apply elem_of_Object_keys in Hy as [c Hy].
    destruct (Hplain y c Hy) as (v & -> & Hv). rewrite <- Hst in Hy.
    destruct (setAll_round_plain y v w1 Hy Hv) as (w2 & E & Hs & Hst2 & Hl2).
    exists tt, w2. split; [exact E|]. split; [split; congruence|].
    apply (HR' (set_session (insert (P ++ y) (stored_text v)) w1));
      [apply HR, Hr | exact Hs]. }
  assert (Hall : hoare Inv (forEach (Object_keys (store w)) setAll_round) (fun _ w2 => Inv w2)).
  { apply hoare_forEach. intros y Hy.
    eapply hoare_weaken; [apply (Hkeep (fun _ => True) y Hy); auto | | ]; simpl; tauto. }
  destruct (Hall w) as ([] & w' & E & Hst & Hl); [split; reflexivity|].
  exists w'. split; [exact E|]. split; [|split; [|split; [exact Hst | exact Hl]]].
  - intros k v Hk.
    pose (Q := fun w2 : world => sessionStorage w2 !! (P ++ k) = Some (stored_text v)).
    assert (Hk' : hoare Inv (forEach (Object_keys (store w)) setAll_round)
                    (fun _ w2 => Inv w2 ∧ Q w2)).
    { assert (Hkround : hoare Inv (setAll_round k) (fun _ w2 => Inv w2 ∧ Q w2)).
      { intros w1 [Hst1 Hl1].
        destruct (Hplain k _ Hk) as (v' & [= <-] & Hv). rewrite <- Hst1 in Hk.
        destruct (setAll_round_plain k v w1 Hk Hv) as (w2 & E2 & Hs & Hst2 & Hl2).
        exists tt, w2. split; [exact E2|]. split; [split; congruence|].
        unfold Q. rewrite Hs. apply lookup_insert_eq. }
      apply (hoare_forEach_reach Inv (fun w2 => Inv w2 ∧ Q w2) _ _ k).
      - apply elem_of_Object_keys. eauto.
      - intros y Hy _.
        eapply hoare_weaken; [apply (Hkeep (fun _ => True) y Hy); auto | | ]; simpl; tauto.
      - exact Hkround.
      - intros y Hy Hne. apply (Hkeep Q y Hy); unfold Q.
        + intros w1 v' Hq. simpl. rewrite lookup_insert_ne by (apply append_ne; congruence).
          exact Hq.
        + intros w1 w2 Hq Hs. rewrite Hs. exact Hq.
      - left. eapply hoare_weaken; [exact Hkround | intros ? [? ?]; assumption | auto]. }
    exact (proj2 (hoare_run Inv _ _ w w' tt Hk' (conj eq_refl eq_refl) E)).
  - intros fullKey Hout.
    pose (Q := fun w2 : world => sessionStorage w2 !! fullKey = sessionStorage w !! fullKey).
    assert (Hk' : hoare (fun w1 => Inv w1 ∧ Q w1) (forEach (Object_keys (store w)) setAll_round)
                    (fun _ w2 => Inv w2 ∧ Q w2)).
    { apply hoare_forEach. intros y Hy. apply (Hkeep Q y Hy); unfold Q.
      - intros w1 v Hq. simpl. rewrite lookup_insert_ne; [exact Hq|].
        intros Heq. apply (Hout y); [apply elem_of_Object_keys, Hy | congruence].
      - intros w1 w2 Hq Hs. rewrite Hs. exact Hq. }
    exact (proj2 (hoare_run _ _ _ w w' tt Hk' (conj (conj eq_refl eq_refl) eq_refl) E)).
Qed.

(** X11.  [setAll()] cannot pass a reactive cell, nor a value [JSON.stringify]
    throws on.  For a property that passes the probe, [typeof] has answered
    ['object'], so [storeProperty()] is a call of something that is not a
    function; for an unencodable plain value, [set] throws.  Either way a
    [TypeError] reaches the caller, the state object and the durable backend
    being as they were. *)
Theorem setAll_throws (k : string) (c : cell) (w : world) :
  store w !! k = Some c →
  is_signal (Some c) = true ∨ cell_read c = Unencodable →
  ∃ w', RevB.setAll this w = Thrown TypeError w' ∧
        store w' = store w ∧
        localStorage w' = localStorage w.
Proof.
  intros Hk Hc. unfold RevB.setAll. unfold bind at 1. unfold gets at 1.
  pose (Inv := fun w' : world => store w' = store w ∧ localStorage w' = localStorage w).
  pose (Qex := fun (e : exn) (w' : world) => e = TypeError ∧ Inv w').
  assert (Hround : ∀ y, y ∈ Object_keys (store w) →
            triple Inv (setAll_round y) (fun _ w2 => Inv w2) Qex).
  { intros y Hy w1 [Hst Hl]. apply elem_of_Object_keys in Hy as [c0 Hy].
    rewrite <- Hst in Hy.
    destruct (cell_cases c0) as [Hbad|(v & -> & Hv)].
    - rewrite (setAll_round_throws y c0 w1 Hy Hbad). split; [reflexivity | split; assumption].
    - destruct (setAll_round_plain y v w1 Hy Hv) as (w2 & E & _ & Hst2 & Hl2).
      rewrite E. split; congruence. }
  assert (Hthrow : triple Inv (forEach (Object_keys (store w)) setAll_round)
                     (fun _ _ => False) Qex).
  { apply (forEach_throws Inv Qex _ _ k).
    - apply elem_of_Object_keys. eauto.
    - exact Hround.
    - intros w1 [Hst Hl]. rewrite <- Hst in Hk.
      rewrite (setAll_round_throws k c w1 Hk Hc). split; [reflexivity | split; assumption]. }
  specialize (Hthrow w (conj eq_refl eq_refl)).
  destruct (forEach (Object_keys (store w)) setAll_round w) as [a w'|e w'];
    [contradiction|].
  destruct Hthrow as [-> [Hst Hl]]. eauto.
Qed.

(** What [get(key)] answers, and what it leaves alone. *)
Lemma get_reported (key : string) (w : world) :
  ∃ w', RevB.get this key Undefined w =
          Ok (default JS_null (reported (sessionStorage w !! (P ++ key)))) w' ∧
        sessionStorage w' = sessionStorage w.
Proof.
  unfold RevB.get, reported. step_cmd.
  destruct (sessionStorage w !! (P ++ key)) as [s|]; [|eauto].
  destruct (String.eqb s "undefined"); [eauto|].
  destruct (json_parse s) as [j|]; [|eauto].
  destruct (store w !! key) as [[i l|v]|]; destruct j; simpl; eauto.
Qed.

(** X12.  [getAll()] returns normally, with one field for every property of the
    state object whose ephemeral entry parses to a value other than [null],
    holding that value, and no other field: a property stored as [null] is
    left out like a missing one. *)
Theorem getAll_reports_parsed_entries (w : world) :
  ∃ result w', RevB.getAll this w = Ok result w' ∧
    ∀ k, assoc k result =
           match store w !! k with
           | Some _ => reported (sessionStorage w !! (P ++ k))
           | None => None
           end.
Proof.
  unfold RevB.getAll. unfold bind at 1. unfold gets at 1.
  pose (Inv := fun (done : list string) (result : list (string * value)) (w' : world) =>
    sessionStorage w' = sessionStorage w ∧
    ∀ k, assoc k result =
           if bool_decide (k ∈ done) then reported (sessionStorage w !! (P ++ k)) else None).
  pose proof (NoDup_Object_keys (store w)) as Hnd.
  destruct (hoare_foldM_acc Inv (Object_keys (store w))
    (fun result key =>
       value <- RevB.get this key Undefined ;;
       match value with
       | J JNull => ret result
       | _ => ret (assoc_set key value result)
       end)) with (xs := Object_keys (store w)) (done := @nil string)
              (s := @nil (string * value)) (w := w)
    as (result & w' & E & _ & Hres).
  - intros done x rest result Hall w1 [Hs Hr].
    assert (Hx : x ∉ done).
    { rewrite Hall in Hnd. apply NoDup_app in Hnd as (_ & Hdisj & _).
      intros Hin. apply (Hdisj x Hin). left. }
    destruct (get_reported x w1) as (w2 & E & Hs2). unfold bind. rewrite E, Hs.
    assert (Hinv : ∀ result', 
      (∀ k, assoc k result' =
              if decide (k = x) then reported (sessionStorage w !! (P ++ x))
              else assoc k result) →
      Inv (done ++ [x])%list result' w2).
    { intros result' Hr'. split; [congruence|]. intros k. rewrite Hr'.
      destruct (decide (k = x)) as [->|Hne].
      - rewrite bool_decide_eq_true_2; [reflexivity|]. apply elem_of_app. right. left.
      - rewrite Hr. destruct (bool_decide (k ∈ done)) eqn:Hd.
        + apply bool_decide_eq_true in Hd. rewrite bool_decide_eq_true_2; [reflexivity|].
          apply elem_of_app. left. exact Hd.
        + apply bool_decide_eq_false in Hd. rewrite bool_decide_eq_false_2; [reflexivity|].
          intros Hin. apply elem_of_app in Hin as [Hin|Hin]; [contradiction|].
          apply list_elem_of_singleton in Hin. contradiction. }
    assert (Hrx : assoc x result = None).
    { rewrite Hr. rewrite bool_decide_eq_false_2 by exact Hx. reflexivity. }
    unfold reported in *.
    destruct (sessionStorage w !! (P ++ x)) as [s|]; simpl.
    + destruct (String.eqb s "undefined"); simpl.
      * eexists _, _. split; [reflexivity|]. apply Hinv. intros k.
        case_decide; [subst; exact Hrx | reflexivity].
      * destruct (json_parse s) as [[]|]; simpl; eexists _, _; (split; [reflexivity|]);
          apply Hinv; intros k; case_decide; subst;
          rewrite ?assoc_set_eq, ?assoc_set_ne by assumption; auto.
    + eexists _, _. split; [reflexivity|]. apply Hinv. intros k.
      case_decide; [subst; exact Hrx | reflexivity].
  - reflexivity.
  - split; [reflexivity|]. intros k. reflexivity.
  - exists result, w'. split; [exact E|]. intros k. rewrite Hres.
    destruct (store w !! k) as [c|] eqn:Hk.
    + rewrite bool_decide_eq_true_2; [reflexivity|]. apply elem_of_Object_keys. eauto.
    + rewrite bool_decide_eq_false_2; [reflexivity|].
      intros Hin. apply elem_of_Object_keys in Hin as [c Hc]. congruence.
Qed.

End RevB_bulk.

(** * Revision B: [init] *)

Section RevB_init.
Context `{JSONCodec}.
Variable this : SessionStorage.
Local Abbreviation P := (KEY_PREFIX this).

(** What a round of [init] writes for a property: its serialized value,
    unless the property is missing, [undefined] or [null] (skipped) or makes
    [JSON.stringify] throw (caught). *)
Lemma valueToStore_plain (storeProperty : option cell) (w : world) :
  is_signal storeProperty = false →
  valueToStore storeProperty w = Ok (container_value storeProperty) w.
Proof. intros Hs. unfold valueToStore. rewrite Hs. reflexivity. Qed.

Lemma valueToStore_cell (storeProperty : option cell) (w : world) :
  is_signal storeProperty = true →
  is_present storeProperty = true ∧ valueToStore storeProperty w = Thrown TypeError w.
Proof.
  intros Hs. unfold valueToStore. rewrite Hs.
  destruct storeProperty as [[i l|v]|]; try discriminate. split; reflexivity.
Qed.

Lemma init_session_key_effect (key : string) (w : world) :
  is_signal (store w !! key) = false →
  RevB.init_session_key this key w =
    Ok tt (if is_present (store w !! key) then
             match container_value (store w !! key) with
             | Unencodable => emit (Error_init_storing_session key) w
             | v => set_session (insert (P ++ key) (stored_text v)) w
             end
           else emit (Warn_init_skipping key) w).
Proof.
  intros Hs. unfold RevB.init_session_key. unfold bind at 1, store_get, gets.
  destruct (is_present (store w !! key)); [|reflexivity].
  unfold bind at 1. rewrite (valueToStore_plain _ _ Hs). step_cmd.
  destruct (container_value (store w !! key)); reflexivity.
Qed.

Lemma init_local_key_effect (key : string) (w : world) :
  is_signal (store w !! key) = false →
  RevB.init_local_key this key w =
    Ok tt (if is_present (store w !! key) then
             match container_value (store w !! key) with
             | Unencodable => emit (Error_init_storing_local key) w
             | v => set_local (insert (P ++ key) (stored_text v)) w
             end
           else w).
Proof.
  intros Hs. unfold RevB.init_local_key, when. unfold bind at 1, store_get, gets.
  destruct (is_present (store w !! key)); [|reflexivity].
  unfold bind at 1. rewrite (valueToStore_plain _ _ Hs). step_cmd.
  destruct (container_value (store w !! key)); reflexivity.
Qed.

(** On a property that passes the probe a round of [init] throws, before
    anything is written. *)
Lemma init_session_key_cell (key : string) (w : world) :
  is_signal (store w !! key) = true →
  RevB.init_session_key this key w = Thrown TypeError w.
Proof.
  intros Hs. destruct (valueToStore_cell _ w Hs) as [Hp Hv].
  unfold RevB.init_session_key. unfold bind at 1, store_get, gets. rewrite Hp.
  unfold bind at 1. rewrite Hv. reflexivity.
Qed.

Lemma init_local_key_cell (key : string) (w : world) :
  is_signal (store w !! key) = true →
  RevB.init_local_key this key w = Thrown TypeError w.
Proof.
  intros Hs. destruct (valueToStore_cell _ w Hs) as [Hp Hv].
  unfold RevB.init_local_key, when. unfold bind at 1, store_get, gets. rewrite Hp.
  unfold bind at 1. rewrite Hv. reflexivity.
Qed.

Lemma init_session_key_frame (key : string) (R : world → Prop) :
  (∀ w, R w → is_signal (store w !! key) = false) →
  (∀ w v, R w → R (set_session (insert (P ++ key) v) w)) →
  (∀ w d, R w → R (emit d w)) →
  hoare R (RevB.init_session_key this key) (fun _ w => R w).
Proof.
  intros Hplain Hs He w Hw. rewrite (init_session_key_effect key w (Hplain w Hw)).
  eexists _, _. split; [reflexivity|].
  destruct (is_present _); [destruct (container_value _)|]; auto.
Qed.

Lemma init_local_key_frame (key : string) (R : world → Prop) :
  (∀ w, R w → is_signal (store w !! key) = false) →
  (∀ w v, R w → R (set_local (insert (P ++ key) v) w)) →
  (∀ w d, R w → R (emit d w)) →
  hoare R (RevB.init_local_key this key) (fun _ w => R w).
Proof.
  intros Hplain Hl He w Hw. rewrite (init_local_key_effect key w (Hplain w Hw)).
  eexists _, _. split; [reflexivity|].
  destruct (is_present _); [destruct (container_value _)|]; auto.
Qed.

(** One round of the IDO block of [init] on a plain property: no effect on
    the world. *)
Lemma init_ido_round (sp ip : string) (idoData : list (string * value)) (w : world) :
  is_signal (store w !! sp) = false →
  (storeProperty <- store_get sp ;;
   if is_present storeProperty
   then (value <- valueToStore storeProperty ;; ret (assoc_set ip value idoData))
   else ret idoData) w =
    Ok (if is_present (store w !! sp)
        then assoc_set ip (container_value (store w !! sp)) idoData
        else idoData) w.
Proof.
  intros Hs. unfold bind at 1, store_get, gets.
  destruct (is_present (store w !! sp)); [|reflexivity].
  unfold bind. rewrite (valueToStore_plain _ _ Hs). reflexivity.
Qed.

Lemma init_ido_frame (p : PermanentConfig) (orch : option SessionStorage) (R : world → Prop) :
  (∀ w sp, R w → is_Some orch → sp ∈ (ido p).*1 → is_signal (store w !! sp) = false) →
  (∀ w d, R w → R (emit d w)) →
  (∀ w o v, orch = Some o → R w → R (set_local (insert (orchestratorIdoKey this o) v) w)) →
  hoare R (RevB.init_ido this p orch) (fun _ w => R w).
Proof.
  intros Hplain Hemit Hlocal. unfold RevB.init_ido.
  destruct (ido p) as [|e rest] eqn:Hido; [apply hoare_ret|].
  destruct orch as [o|]; [|apply hoare_ret].
  rewrite <- Hido.
  eapply hoare_bind.
  - apply hoare_foldM. intros idoData [sp ip] Hin w Hw.
    rewrite init_ido_round.
    + eexists _, _. split; [reflexivity | exact Hw].
    + apply (Hplain w sp Hw); [eexists; reflexivity|].
      apply list_elem_of_fmap. exists (sp, ip).
      split; [reflexivity | rewrite <- Hido; exact Hin].
  - intros idoData. apply store_ido_total; eauto.
Qed.

Lemma init_phases (p : PermanentConfig) (orch : option SessionStorage)
    (A B C D : world → Prop) :
  permanent this = Some p →
  hoare A (forEach (localStorageKeys p) (RevB.init_local_key this)) (fun _ w => B w) →
  hoare B (forEach (sessionStorageKeys p) (RevB.init_session_key this)) (fun _ w => C w) →
  hoare C (RevB.init_ido this p orch) (fun _ w => D w) →
  hoare A (RevB.init this orch) (fun _ w => D w).
Proof.
  intros Hp H1 H2 H3. unfold RevB.init. rewrite Hp.
  eapply hoare_bind; [exact H1|]. intros [].
  eapply hoare_bind; [exact H2|]. intros []. exact H3.
Qed.

(** The side conditions of the frames: the state object does not change
    through [init], so a configured property stays plain. *)
Ltac plain_side Hplain :=
  let Hst := fresh "Hst" in
  intros ? [Hst _]; rewrite Hst; apply Hplain; rewrite !elem_of_app; auto.

Ltac plain_ido Hplain :=
  let Hst := fresh "Hst" in
  intros ? ? [Hst _] _ ?; rewrite Hst; apply Hplain; rewrite !elem_of_app; auto.

(** X13.  [init] publishes the ephemeral tier.  The configured properties are
    plain values ([init] unwraps a property that passes the probe as
    [setAll] does, by [storeProperty()]).  For a key of that tier the call
    returns normally, the state object is as before, and the ephemeral
    backend holds the serialized value of the property; the entry is as
    before when the property is missing, [undefined] or [null], or cannot be
    encoded. *)
Theorem init_publishes_ephemeral
    (p : PermanentConfig) (orch : option SessionStorage) (k : string) (w : world) :
  permanent this = Some p →
  (∀ k', k' ∈ (localStorageKeys p ++ sessionStorageKeys p ++ (ido p).*1)%list →
         is_signal (store w !! k') = false) →
  k ∈ sessionStorageKeys p →
  ∃ w', RevB.init this orch w = Ok tt w' ∧
        store w' = store w ∧
        sessionStorage w' !! (P ++ k) =
          if is_present (store w !! k) then
            match container_value (store w !! k) with
            | Unencodable => sessionStorage w !! (P ++ k)
            | v => Some (stored_text v)
            end
          else sessionStorage w !! (P ++ k).
Proof.
  intros Hp Hplain Hk.
  match goal with |- ∃ w', _ ∧ _ ∧ _ = ?t => set (target := t) end.
  pose (A := fun w' : world =>
    store w' = store w ∧ sessionStorage w' !! (P ++ k) = sessionStorage w !! (P ++ k)).
  pose (Q := fun w' : world => store w' = store w ∧ sessionStorage w' !! (P ++ k) = target).
  assert (Hround : hoare (fun w' => A w' ∨ Q w') (RevB.init_session_key this k)
                      (fun _ w' => Q w')).
  { intros w1 Hw1.
    assert (Hst : store w1 = store w) by (destruct Hw1 as [[? _]|[? _]]; assumption).
    rewrite init_session_key_effect
      by (rewrite Hst; apply Hplain; rewrite !elem_of_app; auto).
    eexists _, _. split; [reflexivity|].
    unfold Q. rewrite Hst.
    assert (Hskip : sessionStorage w !! (P ++ k) = target →
                    sessionStorage w1 !! (P ++ k) = target).
    { intros Ht. destruct Hw1 as [[_ Hs]|[_ Hs]]; congruence. }
    unfold target in *.
    destruct (is_present (store w !! k)); [|simpl; auto].
    destruct (container_value (store w !! k)); simpl; rewrite ?lookup_insert_eq; auto. }
  assert (Hh : hoare A (RevB.init this orch) (fun _ w' => Q w')).
  { apply (init_phases p orch A A Q Q Hp).
    - apply hoare_forEach. intros y Hy.
      apply init_local_key_frame; [plain_side Hplain | unfold A; frame..].
    - apply (hoare_forEach_reach A Q _ _ k Hk).
      + intros y Hy Hne. apply init_session_key_frame; [plain_side Hplain | unfold A; frame..].
      + eapply hoare_weaken; [exact Hround | simpl; auto | simpl; auto].
      + intros y Hy Hne. apply init_session_key_frame; [plain_side Hplain | unfold Q; frame..].
      + left. eapply hoare_weaken; [exact Hround | simpl; auto | simpl; auto].
    - apply init_ido_frame; [plain_ido Hplain | unfold Q; frame..]. }
  destruct (Hh w) as ([] & w' & E & Hst & Hs); [split; reflexivity|]. eauto.
Qed.

(** X14.  [init] publishes the durable tier in the same way, into the durable
    backend; the configured properties are plain values, and the entry read
    here is not the orchestrator's record. *)
Theorem init_publishes_durable
    (p : PermanentConfig) (orch : option SessionStorage) (k : string) (w : world) :
  permanent this = Some p →
  (∀ k', k' ∈ (localStorageKeys p ++ sessionStorageKeys p ++ (ido p).*1)%list →
         is_signal (store w !! k') = false) →
  k ∈ localStorageKeys p →
  (∀ o, orch = Some o → orchestratorIdoKey this o ≠ P ++ k) →
  ∃ w', RevB.init this orch w = Ok tt w' ∧
        store w' = store w ∧
        localStorage w' !! (P ++ k) =
          if is_present (store w !! k) then
            match container_value (store w !! k) with
            | Unencodable => localStorage w !! (P ++ k)
            | v => Some (stored_text v)
            end
          else localStorage w !! (P ++ k).
Proof.
  intros Hp Hplain Hk Horch.
  match goal with |- ∃ w', _ ∧ _ ∧ _ = ?t => set (target := t) end.
  pose (A := fun w' : world =>
    store w' = store w ∧ localStorage w' !! (P ++ k) = localStorage w !! (P ++ k)).
  pose (Q := fun w' : world => store w' = store w ∧ localStorage w' !! (P ++ k) = target).
  assert (Hround : hoare (fun w' => A w' ∨ Q w') (RevB.init_local_key this k)
                      (fun _ w' => Q w')).
  { intros w1 Hw1.
    assert (Hst : store w1 = store w) by (destruct Hw1 as [[? _]|[? _]]; assumption).
    rewrite init_local_key_effect
      by (rewrite Hst; apply Hplain; rewrite !elem_of_app; auto).
    eexists _, _. split; [reflexivity|].
    unfold Q. rewrite Hst.
    assert (Hskip : localStorage w !! (P ++ k) = target →
                    localStorage w1 !! (P ++ k) = target).
    { intros Ht. destruct Hw1 as [[_ Hs]|[_ Hs]]; congruence. }
    unfold target in *.
    destruct (is_present (store w !! k)); [|simpl; auto].
    destruct (container_value (store w !! k)); simpl; rewrite ?lookup_insert_eq; auto. }
  assert (Hh : hoare A (RevB.init this orch) (fun _ w' => Q w')).
  { apply (init_phases p orch A Q Q Q Hp).
    - apply (hoare_forEach_reach A Q _ _ k Hk).
      + intros y Hy Hne. apply init_local_key_frame; [plain_side Hplain | unfold A; frame..].
      + eapply hoare_weaken; [exact Hround | simpl; auto | simpl; auto].
      + intros y Hy Hne. apply init_local_key_frame; [plain_side Hplain | unfold Q; frame..].
      + left. eapply hoare_weaken; [exact Hround | simpl; auto | simpl; auto].
    - apply hoare_forEach. intros y Hy.
      apply init_session_key_frame; [plain_side Hplain | unfold Q; frame..].
    - apply init_ido_frame; [plain_ido Hplain | |].
      + unfold Q. intros; simpl; tauto.
      + unfold Q. intros w1 o v Ho [Hst Hl]. simpl. split; [assumption|].
        rewrite lookup_insert_ne; [assumption | eauto]. }
  destruct (Hh w) as ([] & w' & E & Hst & Hs); [split; reflexivity|]. eauto.
Qed.

End RevB_init.

(** * Revision B: the hand-off to the orchestrator *)

Section RevB_handoff.
Context `{JSONCodec}.
Variable this : SessionStorage.
Local Abbreviation P := (KEY_PREFIX this).

Lemma includes_true (xs : list string) (k : string) : k ∈ xs → includes xs k = true.
Proof. intros Hk. unfold includes. apply bool_decide_eq_true_2, Hk. Qed.

Lemma includes_false (xs : list string) (k : string) : k ∉ xs → includes xs k = false.
Proof. intros Hk. unfold includes. apply bool_decide_eq_false_2, Hk. Qed.

(** The first loop of [exit] takes the ephemeral entry of every key that is
    not in the ephemeral tier. *)
Lemma exit_loop_removes (p : PermanentConfig) (k : string) (w : world) :
  k ∉ sessionStorageKeys p →
  hoare (fun w' => sessionStorage w' = sessionStorage w)
        (forEach (List.filter (fun key => startsWith key P) (Object_keys (sessionStorage w)))
                 (RevB.exit_key this p))
        (fun _ w' => sessionStorage w' !! (P ++ k) = None).
Proof.
  intros Hk.
  pose (Q := fun w' : world => sessionStorage w' !! (P ++ k) = None).
  assert (Hkeep : ∀ y, hoare Q (RevB.exit_key this p y) (fun _ w' => Q w')).
  { intros y. apply exit_key_frame; unfold Q; intros; simpl; try assumption.
    rewrite lookup_delete. case_decide; [reflexivity | assumption]. }
  destruct (sessionStorage w !! (P ++ k)) as [s|] eqn:Hs.
  - eapply hoare_weaken with
      (P' := fun w' : world => sessionStorage w' !! (P ++ k) = Some s) (Q' := fun _ => Q);
      [|intros w1 Hw1; rewrite Hw1; exact Hs | auto].
    apply (hoare_forEach_reach _ Q _ _ (P ++ k)).
    + apply elem_of_filter_keys. rewrite Hs. split; [eauto | apply prefix_append].
    + intros y _ Hy. apply exit_key_frame; frame.
    + intros w1 Hw1. rewrite exit_key_effect. eexists _, _. split; [reflexivity|].
      unfold Q. simpl. rewrite replace_prefix, (includes_false _ _ Hk).
      destruct (includes (localStorageKeys p) k); simpl; [|apply lookup_delete_eq].
      destruct (sessionStorage w1 !! (P ++ k)); simpl; apply lookup_delete_eq.
    + intros y _ _. apply Hkeep.
    + left. apply Hkeep.
  - eapply hoare_weaken; [apply (hoare_forEach Q); intros y _; apply Hkeep | | auto].
    intros w1 Hw1. unfold Q. rewrite Hw1. exact Hs.
Qed.

(** With nothing to read, the IDO block of [exit] assembles an empty
    payload and writes nothing. *)
Lemma exit_ido_nothing_to_read (p : PermanentConfig) (o : SessionStorage) (w : world) :
  (∀ k, k ∈ (ido p).*1 → sessionStorage w !! (P ++ k) = None) →
  RevB.exit_ido this p (Some o) w = Ok tt w.
Proof.
  intros Hnone. unfold RevB.exit_ido.
  destruct (ido p) as [|e rest] eqn:Hido; [reflexivity|].
  assert (Hfold : ∀ l, (∀ k, k ∈ l.*1 → sessionStorage w !! (P ++ k) = None) →
    foldM l (fun idoData entry =>
       let '(stateProperty, idoProperty) := entry in
       value <- RevB.get this stateProperty Undefined ;;
       match value with
       | J JNull | Undefined => ret idoData
       | _ =>
           console_emit (Warn_exit_prepared_ido idoProperty stateProperty) ;;
           ret (assoc_set idoProperty value idoData)
       end) [] w = Ok [] w).
  { induction l as [|[sp ip] l IH]; intros Hl; [reflexivity|]. simpl.
    unfold bind at 1. unfold bind at 1. unfold RevB.get at 1. step_cmd.
    rewrite (Hl sp) by (simpl; left). simpl.
    apply IH. intros k Hk. apply Hl. simpl. right. exact Hk. }
  unfold bind at 1. rewrite (Hfold (e :: rest) Hnone). reflexivity.
Qed.

Lemma exit_unfold (p : PermanentConfig) (orch : option SessionStorage) (w : world) :
  permanent this = Some p →
  RevB.exit this orch w =
    match forEach (List.filter (fun key => startsWith key P) (Object_keys (sessionStorage w)))
                  (RevB.exit_key this p) w with
    | Ok _ w1 =>
        match RevB.exit_ido this p orch w1 with
        | Ok _ w2 =>
            forEach (Object_keys (store w2))
              (fun key =>
                 when (negb (includes (localStorageKeys p) key)
                       && negb (includes (sessionStorageKeys p) key))
                      (store_delete key)) w2
        | Thrown e w2 => Thrown e w2
        end
    | Thrown e w1 => Thrown e w1
    end.
Proof. intros Hp. unfold RevB.exit. rewrite Hp. reflexivity. Qed.

(** X15.  [exit] hands a shared property to the orchestrator only through its
    ephemeral entry, and by then the first loop has taken the entries of the
    durable and of the unconfigured keys: when no shared property is in the
    ephemeral tier, [exit(orchestrator)] does exactly what [exit()] does and
    the orchestrator receives nothing. *)
Theorem exit_hands_off_ephemeral_keys_only
    (p : PermanentConfig) (o : SessionStorage) (w : world) :
  permanent this = Some p →
  (∀ k, k ∈ (ido p).*1 → k ∉ sessionStorageKeys p) →
  RevB.exit this (Some o) w = RevB.exit this None w.
Proof.
  intros Hp Hshared. rewrite !(exit_unfold p _ w Hp).
  destruct (exit_loop_total this p
    (List.filter (fun key => startsWith key P) (Object_keys (sessionStorage w))) w I)
    as ([] & w1 & E1 & _).
  rewrite E1, exit_ido_without_orchestrator.
  rewrite exit_ido_nothing_to_read; [reflexivity|].
  intros k Hk.
  exact (hoare_run _ _ _ w w1 tt (exit_loop_removes p k w (Hshared k Hk)) eq_refl E1).
Qed.

(** The first field named [r] survives [JSON.stringify] of an assembled
    object none of whose fields makes it throw. *)
Lemma encodable_fields_assoc (fields : list (string * value)) :
  (∀ kv, kv ∈ fields → kv.2 ≠ Unencodable) →
  ∃ fs, encodable_fields fields = Some fs ∧
        ∀ r j, assoc r fields = Some (J j) → assoc r fs = Some j.
Proof.
  induction fields as [|[k v] l IH]; intros Henc.
  - exists []. split; [reflexivity | discriminate].
  - destruct IH as (fs & E & Hfs).
    { intros kv Hkv. apply Henc. right. exact Hkv. }
    assert (Hv : v ≠ Unencodable) by (apply (Henc (k, v)); left).
    destruct v as [| |j0]; [|contradiction|]; simpl; rewrite E; simpl.
    + exists fs. split; [reflexivity|]. intros r j.
      destruct (String.eqb k r); [discriminate | apply Hfs].
    + exists ((k, j0) :: fs). split; [reflexivity|]. intros r j. simpl.
      destruct (String.eqb k r); [congruence | apply Hfs].
Qed.

Lemma elem_of_assoc_set {V} (k : string) (v : V) (l : list (string * V)) (kv : string * V) :
  kv ∈ assoc_set k v l → kv = (k, v) ∨ kv ∈ l.
Proof.
  induction l as [|[k' v'] l IH]; simpl; intros Hin.
  - apply list_elem_of_singleton in Hin. auto.
  - destruct (String.eqb k' k).
    + apply elem_of_cons in Hin as [->|Hin]; [auto | right; right; exact Hin].
    + apply elem_of_cons in Hin as [->|Hin]; [right; left|].
      destruct (IH Hin) as [->|Hl]; [auto | right; right; exact Hl].
Qed.

Lemma store_ido_writes (o : SessionStorage) (idoData : list (string * value))
    (fs : list (string * json)) (d : diag) (r : string) (j : json) (w : world) :
  encodable_fields idoData = Some fs →
  assoc r idoData = Some (J j) →
  RevB.store_ido this o idoData d w =
    Ok tt (set_local (insert (orchestratorIdoKey this o) (json_print (JObj fs))) w).
Proof.
  intros Henc Hr. unfold RevB.store_ido, JSON_stringify_object.
  destruct idoData as [|e l]; [discriminate|]. rewrite Henc. reflexivity.
Qed.

Lemma NoDup_snd_unique {A B} (l : list (A * B)) (x1 x2 : A) (y : B) :
  NoDup l.*2 → (x1, y) ∈ l → (x2, y) ∈ l → x1 = x2.
Proof.
  induction l as [|[a b] l IH]; simpl; intros Hnd H1 H2.
  - apply elem_of_nil in H1. contradiction.
  - apply NoDup_cons in Hnd as [Hnotin Hnd].
    apply elem_of_cons in H1 as [E1|H1]; apply elem_of_cons in H2 as [E2|H2].
    + congruence.
    + injection E1 as -> ->. exfalso. apply Hnotin.
      apply list_elem_of_fmap. exists (x2, b). auto.
    + injection E2 as -> ->. exfalso. apply Hnotin.
      apply list_elem_of_fmap. exists (x1, b). auto.
    + auto.
Qed.

Lemma reported_is_json (entry : option string) (v : value) :
  reported entry = Some v → ∃ j, v = J j ∧ j ≠ JNull.
Proof.
  unfold reported. intros Hr. repeat case_match; simplify_eq; eexists; split; eauto; discriminate.
Qed.

Lemma reported_valid (s : string) (j : json) :
  json_parse s = Some j → j ≠ JNull → reported (Some s) = Some (J j).
Proof.
  intros Hj Hnull. unfold reported.
  destruct (String.eqb_spec s "undefined") as [->|_].
  - rewrite json_parse_undefined in Hj. discriminate.
  - rewrite Hj. destruct j; [contradiction|..]; reflexivity.
Qed.

(** One round of the IDO block of [exit]. *)
Lemma exit_ido_round (sp ip : string) (idoData : list (string * value)) (w : world) :
  ∃ w', (value <- RevB.get this sp Undefined ;;
         match value with
         | J JNull | Undefined => ret idoData
         | _ =>
             console_emit (Warn_exit_prepared_ido ip sp) ;;
             ret (assoc_set ip value idoData)
         end) w =
        Ok (match reported (sessionStorage w !! (P ++ sp)) with
            | Some v => assoc_set ip v idoData
            | None => idoData
            end) w' ∧
        sessionStorage w' = sessionStorage w.
Proof.
  destruct (get_reported this sp w) as (w1 & E & Hs). unfold bind at 1. rewrite E.
  destruct (reported (sessionStorage w !! (P ++ sp))) as [v|] eqn:Hr; simpl.
  - destruct (reported_is_json _ v Hr) as (j & -> & Hj).
    destruct j; [contradiction|..]; eexists; (split; [reflexivity | exact Hs]).
  - eexists. split; [reflexivity | exact Hs].
Qed.

(** X16.  [exit(orchestrator)] on a shared property that is in the ephemeral tier
    and not in the durable one, whose ephemeral entry parses to a value other
    than [null]: the call returns normally and the orchestrator's record in
    the durable backend is a serialized object holding that value under the
    remote name.  Remote names are distinct. *)
Theorem exit_hands_off_ephemeral_shared
    (p : PermanentConfig) (o : SessionStorage) (k remote s : string) (j : json) (w : world) :
  permanent this = Some p →
  (k, remote) ∈ ido p →
  NoDup (ido p).*2 →
  k ∈ sessionStorageKeys p →
  k ∉ localStorageKeys p →
  sessionStorage w !! (P ++ k) = Some s →
  json_parse s = Some j →
  j ≠ JNull →
  ∃ w' fs, RevB.exit this (Some o) w = Ok tt w' ∧
           localStorage w' !! orchestratorIdoKey this o = Some (json_print (JObj fs)) ∧
           assoc remote fs = Some j.
Proof.
  intros Hp Hk Hnd Hks Hkl Hs Hj Hnull.
  pose (A := fun w' : world => sessionStorage w' !! (P ++ k) = Some s).
  pose (Q := fun w' : world => ∃ fs,
    localStorage w' !! orchestratorIdoKey this o = Some (json_print (JObj fs)) ∧
    assoc remote fs = Some j).
  assert (Hh : hoare A (RevB.exit this (Some o)) (fun _ w' => Q w')).
  { apply (exit_phases this p (Some o) A A Q Q Hp).
    - intros w1 Hw1.
      destruct (hoare_forEach A
        (List.filter (fun key => startsWith key P) (Object_keys (sessionStorage w1)))
        (RevB.exit_key this p)) with (w := w1) as ([] & w' & E & Hq); eauto.
      intros y _. destruct (decide (y = P ++ k)) as [->|Hy].
      + intros w2 Hw2. rewrite exit_key_effect. eexists _, _. split; [reflexivity|].
        simpl. rewrite replace_prefix, (includes_false _ _ Hkl), (includes_true _ _ Hks).
        exact Hw2.
      + apply exit_key_frame; unfold A; frame.
    - unfold RevB.exit_ido. destruct (ido p) as [|e rest] eqn:Hido.
      { apply elem_of_nil in Hk. contradiction. }
      rewrite <- Hido in Hk, Hnd |- *.
      pose (Inv := fun (done : list (string * string)) (idoData : list (string * value))
                       (w' : world) =>
        A w' ∧ (∀ kv, kv ∈ idoData → kv.2 ≠ Unencodable) ∧
        ((k, remote) ∈ done → assoc remote idoData = Some (J j))).
      eapply hoare_bind with (Q := fun idoData w' => Inv (ido p) idoData w').
      + eapply hoare_weaken with (P' := Inv [] [])
          (Q' := fun idoData w' => Inv (ido p) idoData w'); [| |auto].
        * apply (hoare_foldM_acc Inv (ido p)); [|reflexivity].
          intros done [sp ip] rest' idoData Hall w1 (Ha & Henc & Hdone).
          destruct (exit_ido_round sp ip idoData w1) as (w2 & E & Hs2).
          eexists _, w2. split; [exact E|]. split; [|split].
          -- unfold A in *. rewrite Hs2. exact Ha.
          -- intros kv Hkv. destruct (reported _) as [v|] eqn:Hr; [|apply Henc, Hkv].
             apply elem_of_assoc_set in Hkv as [->|Hkv]; [|apply Henc, Hkv].
             destruct (reported_is_json _ v Hr) as (j1 & -> & _). discriminate.
          -- intros Hin. destruct (decide ((sp, ip) = (k, remote))) as [[= -> ->]|Hne].
             ++ unfold A in Ha. rewrite Ha, (reported_valid s j Hj Hnull).
                apply assoc_set_eq.
             ++ assert (Hold : assoc remote idoData = Some (J j)).
                { apply Hdone. apply elem_of_app in Hin as [Hin|Hin]; [exact Hin|].
                  apply list_elem_of_singleton in Hin. congruence. }
                destruct (reported _) as [v|]; [|exact Hold].
                rewrite assoc_set_ne; [exact Hold|].
                intros <-. apply Hne. f_equal.
                assert (Hin1 : (sp, remote) ∈ ido p).
                { rewrite Hall. apply elem_of_app. right. left. }
                exact (NoDup_snd_unique (ido p) sp k remote Hnd Hin1 Hk).
        * intros w1 Hw1. split; [exact Hw1|].
          split; [intros kv Hkv; inversion Hkv | intros Hin; inversion Hin].
      + intros idoData w1 (Ha & Henc & Hdone).
        destruct (encodable_fields_assoc idoData Henc) as (fs & Efs & Hfs).
        rewrite (store_ido_writes o idoData fs _ remote j w1 Efs (Hdone Hk)).
        eexists _, _. split; [reflexivity|]. exists fs. simpl.
        rewrite lookup_insert_eq. split; [reflexivity|]. apply Hfs, Hdone, Hk.
    - intros w1 Hw1.
      destruct (exit_cleanup_frame p (Object_keys (store w1)) Q) with (w := w1)
        as ([] & w' & E & Hq); [intros; assumption | exact Hw1 | eauto]. }
  destruct (Hh w Hs) as ([] & w' & E & fs & Hl & Hfs). eauto.
Qed.

End RevB_handoff.

(** * Revision B: [init] and the orchestrator *)

Section RevB_init_handoff.
Context `{JSONCodec}.
Variable this : SessionStorage.
Local Abbreviation P := (KEY_PREFIX this).

Lemma init_unfold (p : PermanentConfig) (orch : option SessionStorage) (w : world) :
  permanent this = Some p →
  RevB.init this orch w =
    match forEach (localStorageKeys p) (RevB.init_local_key this) w with
    | Ok _ w1 =>
        match forEach (sessionStorageKeys p) (RevB.init_session_key this) w1 with
        | Ok _ w2 => RevB.init_ido this p orch w2
        | Thrown e w2 => Thrown e w2
        end
    | Thrown e w1 => Thrown e w1
    end.
Proof. intros Hp. unfold RevB.init. rewrite Hp. reflexivity. Qed.

Lemma init_loops_keep_store (p : PermanentConfig) (w : world) :
  (∀ k', k' ∈ (localStorageKeys p ++ sessionStorageKeys p)%list →
         is_signal (store w !! k') = false) →
  ∃ w2, (forEach (localStorageKeys p) (RevB.init_local_key this) ;;
         forEach (sessionStorageKeys p) (RevB.init_session_key this)) w = Ok tt w2 ∧
        store w2 = store w.
Proof.
  intros Hplain.
  pose (A := fun w' : world => store w' = store w).
  assert (Hside : ∀ y, y ∈ (localStorageKeys p ++ sessionStorageKeys p)%list →
            ∀ w1, A w1 → is_signal (store w1 !! y) = false).
  { intros y Hy w1 Hw1. unfold A in Hw1. rewrite Hw1. apply Hplain, Hy. }
  destruct (hoare_bind A (fun _ => A) (fun _ => A)
              (forEach (localStorageKeys p) (RevB.init_local_key this))
              (fun _ => forEach (sessionStorageKeys p) (RevB.init_session_key this)))
    with (w := w) as ([] & w2 & E & Hw2); eauto.
  - apply hoare_forEach. intros y Hy.
    apply init_local_key_frame;
      [apply Hside; rewrite elem_of_app; auto | unfold A; frame..].
  - intros []. apply hoare_forEach. intros y Hy.
    apply init_session_key_frame;
      [apply Hside; rewrite elem_of_app; auto | unfold A; frame..].
  - reflexivity.
Qed.

(** The payload [init] assembles: the shared properties that are present,
    by remote name. *)
Lemma init_ido_payload (l : list (string * string)) (w : world) :
  (∀ sp, sp ∈ l.*1 → is_signal (store w !! sp) = false) →
  ∃ idoData,
    foldM l (fun idoData entry =>
       let '(stateProperty, idoProperty) := entry in
       storeProperty <- store_get stateProperty ;;
       if is_present storeProperty
       then (value <- valueToStore storeProperty ;;
             ret (assoc_set idoProperty value idoData))
       else ret idoData) [] w = Ok idoData w ∧
    (∀ kv, kv ∈ idoData →
       ∃ sp, (sp, kv.1) ∈ l ∧ is_present (store w !! sp) = true ∧
             kv.2 = container_value (store w !! sp)) ∧
    (∀ sp ip, (sp, ip) ∈ l → NoDup l.*2 → is_present (store w !! sp) = true →
       assoc ip idoData = Some (container_value (store w !! sp))).
Proof.
  intros Hplain.
  pose (Inv := fun (done : list (string * string)) (idoData : list (string * value))
                   (w' : world) =>
    w' = w ∧
    (∀ kv, kv ∈ idoData →
       ∃ sp, (sp, kv.1) ∈ done ∧ is_present (store w !! sp) = true ∧
             kv.2 = container_value (store w !! sp)) ∧
    (∀ sp ip, (sp, ip) ∈ done → NoDup l.*2 → is_present (store w !! sp) = true →
       assoc ip idoData = Some (container_value (store w !! sp)))).
  destruct (hoare_foldM_acc Inv l
    (fun idoData entry =>
       let '(stateProperty, idoProperty) := entry in
       storeProperty <- store_get stateProperty ;;
       if is_present storeProperty
       then (value <- valueToStore storeProperty ;;
             ret (assoc_set idoProperty value idoData))
       else ret idoData)) with (xs := l) (done := @nil (string * string))
      (s := @nil (string * value)) (w := w) as (idoData & w' & E & -> & H1 & H2).
  - intros done [sp ip] rest idoData Hall w1 (-> & Hsub & Hassoc).
    rewrite init_ido_round
      by (apply Hplain; rewrite Hall, fmap_app, elem_of_app; right; left).
    eexists _, _. split; [reflexivity|]. split; [reflexivity|]. split.
    + intros kv Hkv. destruct (is_present (store w !! sp)) eqn:Hpres.
      * apply elem_of_assoc_set in Hkv as [->|Hkv].
        -- exists sp. simpl. split; [apply elem_of_app; right; left | auto].
        -- destruct (Hsub kv Hkv) as (sp' & Hin & Hp' & Hv'). exists sp'.
           split; [apply elem_of_app; left; exact Hin | auto].
      * destruct (Hsub kv Hkv) as (sp' & Hin & Hp' & Hv'). exists sp'.
        split; [apply elem_of_app; left; exact Hin | auto].
    + intros sp' ip' Hin Hnd Hpres'.
      apply elem_of_app in Hin as [Hin|Hin].
      * assert (Hold := Hassoc sp' ip' Hin Hnd Hpres').
        destruct (is_present (store w !! sp)); [|exact Hold].
        rewrite assoc_set_ne; [exact Hold|]. intros <-.
        rewrite Hall in Hnd. rewrite fmap_app in Hnd. apply NoDup_app in Hnd as (_ & Hdisj & _).
        apply (Hdisj ip').
        -- apply list_elem_of_fmap. exists (sp', ip'). auto.
        -- simpl. left.
      * apply list_elem_of_singleton in Hin. injection Hin as -> ->.
        rewrite Hpres'. apply assoc_set_eq.
  - reflexivity.
  - split; [reflexivity|]. split; [intros kv Hkv; inversion Hkv | intros ? ? Hin; inversion Hin].
  - exists idoData. auto.
Qed.

(** X17.  [init(orchestrator)] on a shared property that is present, the
    configured properties being plain values and no shared property making
    [JSON.stringify] throw: the call returns normally, the state object is as
    before, and the orchestrator's record is a serialized object holding the
    property's value under the remote name.  Remote names are distinct. *)
Theorem init_hands_off_shared
    (p : PermanentConfig) (o : SessionStorage) (k remote : string) (j : json) (w : world) :
  permanent this = Some p →
  (∀ k', k' ∈ (localStorageKeys p ++ sessionStorageKeys p ++ (ido p).*1)%list →
         is_signal (store w !! k') = false) →
  (k, remote) ∈ ido p →
  NoDup (ido p).*2 →
  is_present (store w !! k) = true →
  container_value (store w !! k) = J j →
  (∀ sp, sp ∈ (ido p).*1 → container_value (store w !! sp) ≠ Unencodable) →
  ∃ w' fs, RevB.init this (Some o) w = Ok tt w' ∧
           store w' = store w ∧
           localStorage w' !! orchestratorIdoKey this o = Some (json_print (JObj fs)) ∧
           assoc remote fs = Some j.
Proof.
  intros Hp Hplain Hk Hnd Hpres Hv Henc. rewrite (init_unfold p _ w Hp).
  destruct (init_loops_keep_store p w) as (w2 & E & Hst).
  { intros k' Hk'. apply Hplain. rewrite app_assoc, elem_of_app. auto. }
  unfold bind in E.
  destruct (forEach (localStorageKeys p) (RevB.init_local_key this) w) as [[] w1|];
    [|discriminate].
  rewrite E. unfold RevB.init_ido.
  destruct (ido p) as [|e rest] eqn:Hido; [apply elem_of_nil in Hk; contradiction|].
  rewrite <- Hido in Hk, Hnd, Henc, Hplain |- *.
  destruct (init_ido_payload (ido p) w2) as (idoData & Efold & Hsub & Hassoc).
  { intros sp Hsp. rewrite Hst. apply Hplain. rewrite !elem_of_app. auto. }
  unfold bind at 1. rewrite Efold.
  destruct (encodable_fields_assoc idoData) as (fs & Efs & Hfs).
  { intros kv Hkv. destruct (Hsub kv Hkv) as (sp & Hin & _ & ->). rewrite Hst.
    apply Henc. apply list_elem_of_fmap. exists (sp, kv.1). auto. }
  assert (Hrem : assoc remote idoData = Some (J j)).
  { rewrite (Hassoc k remote Hk Hnd) by (rewrite Hst; exact Hpres). rewrite Hst, Hv.
    reflexivity. }
  rewrite (store_ido_writes this o idoData fs _ remote j w2 Efs Hrem).
  eexists _, fs. split; [reflexivity|]. simpl. rewrite lookup_insert_eq. auto.
Qed.

Lemma encodable_fields_blocked (fields : list (string * value)) (kv : string * value) :
  kv ∈ fields → kv.2 = Unencodable → encodable_fields fields = None.
Proof.
  induction fields as [|[k v] l IH]; intros Hin Hv.
  - inversion Hin.
  - apply elem_of_cons in Hin as [->|Hin].
    + simpl in Hv. subst. reflexivity.
    + simpl. destruct v; [apply IH; assumption | reflexivity|].
      rewrite IH by assumption. reflexivity.
Qed.

(** The IDO block of [init] with a shared property that makes
    [JSON.stringify] throw: one logged error, nothing written. *)
Lemma init_ido_blocked (p : PermanentConfig) (o : SessionStorage) (k remote : string)
    (w : world) :
  (k, remote) ∈ ido p →
  NoDup (ido p).*2 →
  (∀ sp, sp ∈ (ido p).*1 → is_signal (store w !! sp) = false) →
  container_value (store w !! k) = Unencodable →
  RevB.init_ido this p (Some o) w = Ok tt (emit Error_init_storing_ido w).
Proof.
  intros Hk Hnd Hplain Hv. unfold RevB.init_ido.
  destruct (ido p) as [|e rest] eqn:Hido; [apply elem_of_nil in Hk; contradiction|].
  rewrite <- Hido in Hk, Hnd, Hplain |- *.
  destruct (init_ido_payload (ido p) w Hplain) as (idoData & Efold & Hsub & Hassoc).
  unfold bind at 1. rewrite Efold.
  assert (Hpres : is_present (store w !! k) = true).
  { destruct (store w !! k) as [[i l|[| |j0]]|]; simpl in *; try discriminate; reflexivity. }
  assert (Hrem : assoc remote idoData = Some Unencodable).
  { rewrite (Hassoc k remote Hk Hnd Hpres), Hv. reflexivity. }
  assert (Hin : (remote, Unencodable) ∈ idoData).
  { clear - Hrem. induction idoData as [|[k' v'] l IH]; [discriminate|]. simpl in Hrem.
    destruct (String.eqb_spec k' remote) as [->|Hne].
    - injection Hrem as ->. left.
    - right. apply IH, Hrem. }
  unfold RevB.store_ido, JSON_stringify_object.
  rewrite (encodable_fields_blocked idoData _ Hin eq_refl).
  destruct idoData; [inversion Hin | reflexivity].
Qed.

(** X18.  One shared property that makes [JSON.stringify] throw blocks the whole
    hand-off of [init]: the orchestrator's record is not written, the error
    is logged, and [init(orchestrator)] otherwise ends as [init()] does.  The
    configured properties are plain values. *)
Theorem init_hand_off_blocked_by_unencodable
    (p : PermanentConfig) (o : SessionStorage) (k remote : string) (w : world) :
  permanent this = Some p →
  (∀ k', k' ∈ (localStorageKeys p ++ sessionStorageKeys p ++ (ido p).*1)%list →
         is_signal (store w !! k') = false) →
  (k, remote) ∈ ido p →
  NoDup (ido p).*2 →
  container_value (store w !! k) = Unencodable →
  ∃ w', RevB.init this None w = Ok tt w' ∧
        RevB.init this (Some o) w = Ok tt (emit Error_init_storing_ido w').
Proof.
  intros Hp Hplain Hk Hnd Hv. rewrite !(init_unfold p _ w Hp).
  destruct (init_loops_keep_store p w) as (w2 & E & Hst).
  { intros k' Hk'. apply Hplain. rewrite app_assoc, elem_of_app. auto. }
  unfold bind in E.
  destruct (forEach (localStorageKeys p) (RevB.init_local_key this) w) as [[] w1|];
    [|discriminate].
  rewrite E, init_ido_without_orchestrator. exists w2. split; [reflexivity|].
  apply (init_ido_blocked p o k remote w2 Hk Hnd).
  - intros sp Hsp. rewrite Hst. apply Hplain. rewrite !elem_of_app. auto.
  - rewrite Hst. exact Hv.
Qed.

End RevB_init_handoff.

(** * Revision B: what [init] lets through, and what it does not *)

Section RevB_init_errors.
Context `{JSONCodec}.
Variable this : SessionStorage.
Local Abbreviation P := (KEY_PREFIX this).

(** [init] returns normally when the properties it unwraps are plain
    values: those of the two storage tiers, and those of the shared tier
    when an orchestrator is passed. *)
Lemma init_returns (orch : option SessionStorage) (w : world) :
  (∀ p k', permanent this = Some p →
           k' ∈ (localStorageKeys p ++ sessionStorageKeys p)%list →
           is_signal (store w !! k') = false) →
  (∀ p k', permanent this = Some p → is_Some orch → k' ∈ (ido p).*1 →
           is_signal (store w !! k') = false) →
  returns (RevB.init this orch w).
Proof.
  intros Hls Hido. destruct (permanent this) as [p|] eqn:Hp.
  - pose (A := fun w' : world => store w' = store w).
    assert (Hh : hoare A (RevB.init this orch) (fun _ w' => A w')).
    { apply (init_phases this p orch A A A A Hp).
      - apply hoare_forEach. intros y Hy. apply init_local_key_frame; [|unfold A; frame..].
        intros w1 Hw1. unfold A in Hw1. rewrite Hw1.
        apply (Hls p y eq_refl). rewrite elem_of_app. auto.
      - apply hoare_forEach. intros y Hy. apply init_session_key_frame; [|unfold A; frame..].
        intros w1 Hw1. unfold A in Hw1. rewrite Hw1.
        apply (Hls p y eq_refl). rewrite elem_of_app. auto.
      - apply init_ido_frame; [|unfold A; frame..].
        intros w1 sp Hw1 Ho Hsp. unfold A in Hw1. rewrite Hw1.
        apply (Hido p sp eq_refl Ho Hsp). }
    destruct (Hh w eq_refl) as (a & w' & E & _). rewrite E. exact I.
  - unfold RevB.init. rewrite Hp. exact I.
Qed.

(** C6, as the code has it.  [set] does not recover from a value that
    cannot be JSON-encoded: the call throws, with nothing written to either
    backend.  [init] wraps every serialization in [try]/[catch]: a plain
    property holding such a value costs one logged error in the round of
    the durable tier, in the round of the ephemeral tier and in the IDO
    block (remote names being distinct), nothing being written for it, and
    [init] returns normally whenever the configured properties are plain
    values.  [exit] serializes only what it read back from the ephemeral
    backend, inside [try]/[catch], and always returns normally. *)
Theorem serialization_error_surfaces_from_set_only
    (key : string) (orch : option SessionStorage) (w : world) :
  (∃ w', RevB.set this key Unencodable w = Thrown TypeError w' ∧
         sessionStorage w' = sessionStorage w ∧
         localStorage w' = localStorage w) ∧
  (store w !! key = Some (Plain Unencodable) →
   RevB.init_local_key this key w = Ok tt (emit (Error_init_storing_local key) w) ∧
   RevB.init_session_key this key w = Ok tt (emit (Error_init_storing_session key) w) ∧
   ∀ p o remote,
     (key, remote) ∈ ido p →
     NoDup (ido p).*2 →
     (∀ sp, sp ∈ (ido p).*1 → is_signal (store w !! sp) = false) →
     RevB.init_ido this p (Some o) w = Ok tt (emit Error_init_storing_ido w)) ∧
  ((∀ p k', permanent this = Some p →
            k' ∈ (localStorageKeys p ++ sessionStorageKeys p ++ (ido p).*1)%list →
            is_signal (store w !! k') = false) →
   returns (RevB.init this orch w)) ∧
  returns (RevB.exit this orch w).
Proof.
  split; [|split; [|split]].
  - unfold RevB.set. step_cmd. destruct (store w !! key) as [[i l|v]|]; simpl; eauto.
  - intros Hkey.
    assert (Hs : is_signal (store w !! key) = false) by (rewrite Hkey; reflexivity).
    rewrite (init_local_key_effect this key w Hs), (init_session_key_effect this key w Hs).
    rewrite Hkey. simpl. split; [reflexivity|]. split; [reflexivity|].
    intros p o remote Hin Hnd Hplain.
    apply (init_ido_blocked this p o key remote w Hin Hnd Hplain).
    rewrite Hkey. reflexivity.
  - intros Hplain. apply init_returns.
    + intros p k' Hp Hk'. apply (Hplain p k' Hp). rewrite app_assoc, elem_of_app. auto.
    + intros p k' Hp _ Hk'. apply (Hplain p k' Hp). rewrite !elem_of_app. auto.
  - apply hoare_returns, exit_total.
Qed.

(** C9.  Whatever the shared mapping declares, without an orchestrator the
    IDO block of [exit()], [init()] and [restore()] is the empty command: it
    returns normally and leaves the world, console included, as it found it;
    and each call is exactly the same call on an instance with no shared tier
    at all (with or without an orchestrator).  [exit()] and [restore()]
    always return normally, and so does [init()] when the properties of the
    two storage tiers are plain values, whatever the shared ones are. *)
Theorem shared_tier_needs_orchestrator
    (p : PermanentConfig) (orch' : option SessionStorage) (w : world) :
  (RevB.exit_ido this p None w = Ok tt w ∧
   RevB.init_ido this p None w = Ok tt w ∧
   RevB.restore_ido this p None w = Ok tt w) ∧
  (RevB.exit this None w = RevB.exit (without_shared this) orch' w ∧
   RevB.init this None w = RevB.init (without_shared this) orch' w ∧
   RevB.restore this None w = RevB.restore (without_shared this) orch' w) ∧
  (returns (RevB.exit this None w) ∧
   ((∀ q k', permanent this = Some q →
             k' ∈ (localStorageKeys q ++ sessionStorageKeys q)%list →
             is_signal (store w !! k') = false) →
    returns (RevB.init this None w)) ∧
   returns (RevB.restore this None w)).
Proof.
  split; [|split].
  - rewrite exit_ido_without_orchestrator, init_ido_without_orchestrator,
      (restore_ido_without_orchestrator this). auto.
  - unfold RevB.exit, RevB.init, RevB.restore, without_shared. simpl.
    destruct (permanent this) as [q|]; simpl; [|auto].
    rewrite exit_ido_without_orchestrator, init_ido_without_orchestrator,
      (restore_ido_without_orchestrator this).
    repeat split.
  - split; [apply hoare_returns, exit_total|].
    split; [|apply hoare_returns, restore_total].
    intros Hplain. apply init_returns; [exact Hplain|].
    intros q k' _ [o Ho]. discriminate.
Qed.

(** X30.  [init] cannot pass a property that passes the probe.  For a key of
    the durable or of the ephemeral tier whose property is a reactive cell,
    [storeProperty()] is evaluated outside every [try]: a [TypeError] reaches
    the caller, with or without an orchestrator, the state object being as
    it was. *)
Theorem init_throws_on_cell
    (p : PermanentConfig) (orch : option SessionStorage) (k : string) (w : world) :
  permanent this = Some p →
  k ∈ localStorageKeys p ∨ k ∈ sessionStorageKeys p →
  is_signal (store w !! k) = true →
  ∃ w', RevB.init this orch w = Thrown TypeError w' ∧ store w' = store w.
Proof.
  intros Hp Hk Hs. rewrite (init_unfold this p orch w Hp).
  pose (Inv := fun w' : world => store w' = store w).
  pose (Qex := fun (e : exn) (w' : world) => e = TypeError ∧ store w' = store w).
  assert (Hl : ∀ y, triple Inv (RevB.init_local_key this y) (fun _ w2 => Inv w2) Qex).
  { intros y w1 Hw1. destruct (is_signal (store w1 !! y)) eqn:Hy.
    - rewrite (init_local_key_cell this y w1 Hy). split; [reflexivity | exact Hw1].
    - rewrite (init_local_key_effect this y w1 Hy).
      destruct (is_present _); [destruct (container_value _)|]; exact Hw1. }
  assert (Hse : ∀ y, triple Inv (RevB.init_session_key this y) (fun _ w2 => Inv w2) Qex).
  { intros y w1 Hw1. destruct (is_signal (store w1 !! y)) eqn:Hy.
    - rewrite (init_session_key_cell this y w1 Hy). split; [reflexivity | exact Hw1].
    - rewrite (init_session_key_effect this y w1 Hy).
      destruct (is_present _); [destruct (container_value _)|]; exact Hw1. }
  assert (Hlk : triple Inv (RevB.init_local_key this k) (fun _ _ => False) Qex).
  { intros w1 Hw1. unfold Inv in Hw1. rewrite init_local_key_cell by (rewrite Hw1; exact Hs).
    split; [reflexivity | exact Hw1]. }
  assert (Hsk : triple Inv (RevB.init_session_key this k) (fun _ _ => False) Qex).
  { intros w1 Hw1. unfold Inv in Hw1. rewrite init_session_key_cell by (rewrite Hw1; exact Hs).
    split; [reflexivity | exact Hw1]. }
  destruct Hk as [Hk|Hk].
  - pose proof (forEach_throws Inv Qex _ _ k Hk (fun y _ => Hl y) Hlk w eq_refl) as T.
    destruct (forEach (localStorageKeys p) (RevB.init_local_key this) w) as [a w1|e w1];
      [contradiction|].
    destruct T as [-> Hst]. eauto.
  - pose proof (triple_forEach Inv Qex (localStorageKeys p) _ (fun y _ => Hl y) w eq_refl) as T1.
    destruct (forEach (localStorageKeys p) (RevB.init_local_key this) w) as [a w1|e w1].
    + pose proof (forEach_throws Inv Qex _ _ k Hk (fun y _ => Hse y) Hsk w1 T1) as T2.
      destruct (forEach (sessionStorageKeys p) (RevB.init_session_key this) w1) as [b w2|e w2];
        [contradiction|].
      destruct T2 as [-> Hst]. eauto.
    + destruct T1 as [-> Hst]. eauto.
Qed.

End RevB_init_errors.

(** * Revision B: more of [restore] *)

Section RevB_restore_more.
Context `{JSONCodec}.
Variable this : SessionStorage.
Local Abbreviation P := (KEY_PREFIX this).

Lemma hoare_try_catch_triple {A} (R : world → Prop) (Q : A → world → Prop)
    (Qex : exn → world → Prop) (body : M A) (handler : exn → M A) :
  triple R body Q Qex →
  (∀ e, hoare (Qex e) (handler e) Q) →
  hoare R (try_catch body handler) Q.
Proof.
  intros Hb Hh w Hw. unfold try_catch. specialize (Hb w Hw).
  destruct (body w) as [a w'|e w']; [eauto | apply (Hh e w' Hb)].
Qed.

(** An IDO round of [restore], whatever the record parsed to: it returns or
    throws having touched at most the property it maps to and its ephemeral
    entry. *)
Lemma restore_ido_entry_triple (idoData : json) (sp ip : string) (R : world → Prop) :
  (∀ w c, R w → R (set_store (insert sp c) w)) →
  (∀ w v, R w → R (set_session (insert (P ++ sp) v) w)) →
  triple R (RevB.restore_ido_entry this idoData (sp, ip)) (fun _ w => R w) (fun _ w => R w).
Proof.
  intros Hstore Hsess w Hw. unfold RevB.restore_ido_entry, member. step_cmd.
  repeat case_match; simplify_eq; simpl; auto.
Qed.

(** The IDO block of [restore] never throws: it can rewrite the shared
    properties and their ephemeral entries, and log; nothing else. *)
Lemma restore_ido_frame (p : PermanentConfig) (orch : option SessionStorage)
    (R : world → Prop) :
  (∀ w k c, k ∈ (ido p).*1 → R w → R (set_store (insert k c) w)) →
  (∀ w k v, k ∈ (ido p).*1 → R w → R (set_session (insert (P ++ k) v) w)) →
  (∀ w d, R w → R (emit d w)) →
  hoare R (RevB.restore_ido this p orch) (fun _ w => R w).
Proof.
  intros Hstore Hsess Hemit. unfold RevB.restore_ido.
  destruct orch as [o|]; [|destruct (ido p); apply hoare_ret].
  destruct (ido p) as [|e rest] eqn:Hido; [apply hoare_ret|].
  apply hoare_try_catch_triple with (Qex := fun _ w => R w).
  - intros w Hw. unfold bind at 1. unfold local_getItem, gets.
    destruct (localStorage w !! orchestratorIdoKey this o) as [s|]; [|exact Hw].
    unfold when. destruct (truthy s && negb (String.eqb s "undefined")); [|exact Hw].
    unfold bind at 1. unfold JSON_parse. destruct (json_parse s) as [idoData|]; [|exact Hw].
    apply (triple_forEach R (fun _ w => R w)); [|exact Hw].
    intros [sp ip] Hin.
    assert (sp ∈ (e :: rest).*1) by (apply list_elem_of_fmap; exists (sp, ip); auto).
    apply restore_ido_entry_triple; auto.
  - intros e0 w Hw. eexists _, _. split; [reflexivity|]. apply Hemit, Hw.
Qed.

(** X19.  [restore] never writes the durable backend (nor the ambient bag): it
    returns normally with both as they were, whatever the configuration, the
    backends and the orchestrator's record hold. *)
Theorem restore_never_writes_durable (orch : option SessionStorage) (w : world) :
  ∃ w', RevB.restore this orch w = Ok tt w' ∧
        localStorage w' = localStorage w ∧
        orchestrator_data w' = orchestrator_data w.
Proof.
  pose (R := fun w' : world =>
    localStorage w' = localStorage w ∧ orchestrator_data w' = orchestrator_data w).
  assert (Hh : hoare R (RevB.restore this orch) (fun _ w' => R w')).
  { destruct (permanent this) as [p|] eqn:Hp.
    - apply (restore_phases this p orch R R R R Hp).
      + apply hoare_forEach. intros y _. apply restore_local_key_frame; unfold R; frame.
      + apply hoare_forEach. intros y _. apply restore_session_key_frame; unfold R; frame.
      + apply restore_ido_frame; unfold R; frame.
    - unfold RevB.restore. rewrite Hp. intros w1 Hw1.
      eexists _, _. split; [reflexivity | exact Hw1]. }
  destruct (Hh w) as ([] & w' & E & Hl & Ho); [split; reflexivity|]. eauto.
Qed.

Lemma restore_local_key_valid (key s : string) (j : json) (w : world) :
  localStorage w !! (P ++ key) = Some s →
  json_parse s = Some j →
  RevB.restore_local_key this key w =
    Ok tt (set_store (insert key (Plain (J j))) (set_session (insert (P ++ key) s) w)).
Proof.
  intros Hl Hj. unfold RevB.restore_local_key. step_cmd. rewrite Hl.
  destruct (String.eqb_spec s "undefined") as [->|Hne]; simpl.
  - rewrite json_parse_undefined in Hj. discriminate.
  - rewrite Hj. reflexivity.
Qed.

(** What [restore] makes of a valid durable entry. *)
Lemma restore_durable_hoare (p : PermanentConfig) (orch : option SessionStorage)
    (k s : string) (j : json) :
  permanent this = Some p →
  k ∈ localStorageKeys p →
  json_parse s = Some j →
  orch = None ∨ k ∉ (ido p).*1 →
  hoare (fun w => localStorage w !! (P ++ k) = Some s)
        (RevB.restore this orch)
        (fun _ w' => store w' !! k = Some (Plain (J j)) ∧
                     sessionStorage w' !! (P ++ k) = Some s).
Proof.
  intros Hp Hk Hj Hshared.
  pose (A := fun w' : world => localStorage w' !! (P ++ k) = Some s).
  pose (Q := fun w' : world =>
    A w' ∧ store w' !! k = Some (Plain (J j)) ∧ sessionStorage w' !! (P ++ k) = Some s).
  assert (Hround : hoare A (RevB.restore_local_key this k) (fun _ w' => Q w')).
  { intros w1 Hw1. rewrite (restore_local_key_valid k s j w1 Hw1 Hj).
    eexists _, _. split; [reflexivity|]. unfold Q, A. simpl.
    rewrite !lookup_insert_eq. auto. }
  eapply hoare_weaken with (P' := A) (Q' := fun _ => Q); [|auto|intros _ ? (_ & ? & ?); auto].
  apply (restore_phases this p orch A Q Q Q Hp).
  - apply (hoare_forEach_reach A Q _ _ k Hk).
    + intros y _ Hy. apply restore_local_key_frame; unfold A; frame.
    + exact Hround.
    + intros y _ Hy. apply restore_local_key_frame; unfold Q, A; frame.
    + left. eapply hoare_weaken; [exact Hround | intros ? [? ?]; assumption | auto].
  - apply hoare_forEach. intros y _. destruct (decide (y = k)) as [->|Hy].
    + intros w1 (H1 & H2 & H3). rewrite (restore_session_key_valid this k s j w1 H3 Hj).
      eexists _, _. split; [reflexivity|]. unfold Q, A. simpl. rewrite lookup_insert_eq. auto.
    + apply restore_session_key_frame; unfold Q, A; frame.
  - destruct Hshared as [->|Hnot].
    + rewrite restore_ido_without_orchestrator. apply hoare_ret.
    + apply restore_ido_frame; unfold Q, A; intros; simpl;
        repeat match goal with H0 : _ ∧ _ |- _ => destruct H0 end;
        rewrite ?lookup_insert_ne
          by (first [intros ->; contradiction
                    | intros E0; apply append_inj_r in E0; subst; contradiction]);
        auto.
Qed.

(** X20.  A valid durable entry of a durable key: [restore] returns normally with
    the parsed value assigned to the property and the raw entry mirrored
    into the ephemeral backend.  The key is not also shared, or no
    orchestrator is passed. *)
Theorem restore_hydrates_durable
    (p : PermanentConfig) (orch : option SessionStorage) (k s : string) (j : json) (w : world) :
  permanent this = Some p →
  k ∈ localStorageKeys p →
  localStorage w !! (P ++ k) = Some s →
  json_parse s = Some j →
  orch = None ∨ k ∉ (ido p).*1 →
  ∃ w', RevB.restore this orch w = Ok tt w' ∧
        store w' !! k = Some (Plain (J j)) ∧
        sessionStorage w' !! (P ++ k) = Some s.
Proof.
  intros Hp Hk Hl Hj Hshared.
  destruct (restore_durable_hoare p orch k s j Hp Hk Hj Hshared w Hl) as ([] & w' & E & Hq).
  eauto.
Qed.

(** ** [restore] and reactive cells *)

Lemma restore_rounds_assign (key : string) (R : world → Prop) :
  (∀ w v, R w → R (set_store (insert key (Plain v)) w)) →
  (∀ w v, R w → R (set_session (insert (P ++ key) v) w)) →
  (∀ w d, R w → R (emit d w)) →
  hoare R (RevB.restore_local_key this key) (fun _ w => R w) ∧
  hoare R (RevB.restore_session_key this key) (fun _ w => R w).
Proof.
  intros Hstore Hsess Hemit.
  split; intros w Hw; unfold RevB.restore_local_key, RevB.restore_session_key;
    run_cmd; auto.
Qed.

Lemma restore_ido_assigns (p : PermanentConfig) (orch : option SessionStorage)
    (R : world → Prop) :
  (∀ w k v, R w → R (set_store (insert k (Plain v)) w)) →
  (∀ w k v, R w → R (set_session (insert k v) w)) →
  (∀ w d, R w → R (emit d w)) →
  hoare R (RevB.restore_ido this p orch) (fun _ w => R w).
Proof.
  intros Hstore Hsess Hemit. unfold RevB.restore_ido.
  destruct orch as [o|]; [|destruct (ido p); apply hoare_ret].
  destruct (ido p) as [|e rest] eqn:Hido; [apply hoare_ret|].
  apply hoare_try_catch_triple with (Qex := fun _ w => R w).
  - intros w Hw. unfold bind at 1. unfold local_getItem, gets.
    destruct (localStorage w !! orchestratorIdoKey this o) as [s|]; [|exact Hw].
    unfold when. destruct (truthy s && negb (String.eqb s "undefined")); [|exact Hw].
    unfold bind at 1. unfold JSON_parse. destruct (json_parse s) as [idoData|]; [|exact Hw].
    apply (triple_forEach R (fun _ w => R w)); [|exact Hw].
    intros [sp ip] Hin w1 Hw1. unfold RevB.restore_ido_entry, member. step_cmd.
    repeat case_match; simplify_eq; simpl; auto.
  - intros e0 w Hw. eexists _, _. split; [reflexivity|]. apply Hemit, Hw.
Qed.

(** X21.  [restore] assigns; it never calls the write of a reactive cell: a
    property it leaves reactive is the very cell it found, write record
    included, and every property it changed holds a plain value. *)
Theorem restore_bypasses_reactive_cells (orch : option SessionStorage) (k : string) (w : world) :
  ∃ w', RevB.restore this orch w = Ok tt w' ∧
        (store w' !! k = store w !! k ∨ ∃ v, store w' !! k = Some (Plain v)).
Proof.
  pose (R := fun w' : world =>
    store w' !! k = store w !! k ∨ ∃ v, store w' !! k = Some (Plain v)).
  assert (Hassign : ∀ w1 y v, R w1 → R (set_store (insert y (Plain v)) w1)).
  { intros w1 y v Hr. unfold R in *. simpl. destruct (decide (y = k)) as [->|Hy].
    - right. exists v. apply lookup_insert_eq.
    - rewrite lookup_insert_ne by assumption. exact Hr. }
  assert (Hh : hoare R (RevB.restore this orch) (fun _ w' => R w')).
  { destruct (permanent this) as [p|] eqn:Hp.
    - apply (restore_phases this p orch R R R R Hp).
      + apply hoare_forEach. intros y _. apply restore_rounds_assign; auto.
      + apply hoare_forEach. intros y _. apply restore_rounds_assign; auto.
      + apply restore_ido_assigns; auto.
    - unfold RevB.restore. rewrite Hp. intros w1 Hw1.
      eexists _, _. split; [reflexivity | exact Hw1]. }
  destruct (Hh w) as ([] & w' & E & Hr); [left; reflexivity|]. eauto.
Qed.

(** ** Across a restart *)

(** [exit()] moves the ephemeral entry of a durable key. *)
Lemma exit_moves_entry (p : PermanentConfig) (k s : string) (w : world) :
  permanent this = Some p →
  k ∈ localStorageKeys p →
  sessionStorage w !! (P ++ k) = Some s →
  ∃ w', RevB.exit this None w = Ok tt w' ∧
        localStorage w' !! (P ++ k) = Some s ∧
        sessionStorage w' !! (P ++ k) = None.
Proof.
  intros Hp Hk Hs.
  pose (A := fun w' : world => sessionStorage w' !! (P ++ k) = Some s).
  pose (Q := fun w' : world =>
    localStorage w' !! (P ++ k) = Some s ∧ sessionStorage w' !! (P ++ k) = None).
  assert (Hh : hoare A (RevB.exit this None) (fun _ w' => Q w')).
  { apply (exit_phases this p None A Q Q Q Hp).
    - intros w1 Hw1.
      assert (Hgoal : ∃ (a : unit) w', forEach
                 (List.filter (fun key => startsWith key P) (Object_keys (sessionStorage w1)))
                 (RevB.exit_key this p) w1 = Ok a w' ∧ Q w');
        [|destruct Hgoal as ([] & w' & E & Hq); eauto].
      apply (hoare_forEach_reach A Q _ _ (P ++ k)); [| | | | |exact Hw1].
      + apply elem_of_filter_keys. unfold A in Hw1. rewrite Hw1.
        split; [eauto | apply prefix_append].
      + intros y _ Hy. apply exit_key_frame; unfold A; frame.
      + intros w2 Hw2. rewrite (exit_key_durable this p k w2 Hk). unfold A in Hw2.
        rewrite Hw2. eexists _, _. split; [reflexivity|]. unfold Q. simpl.
        rewrite lookup_insert_eq, lookup_delete_eq. auto.
      + intros y _ Hy. apply exit_key_frame; unfold Q; frame.
      + left. intros w2 [Hl2 Hs2]. rewrite (exit_key_durable this p k w2 Hk), Hs2.
        eexists _, _. split; [reflexivity|]. unfold Q. simpl.
        rewrite lookup_delete_eq. auto.
    - rewrite exit_ido_without_orchestrator. apply hoare_ret.
    - intros w1 Hw1.
      destruct (exit_cleanup_frame p (Object_keys (store w1)) Q) with (w := w1)
        as ([] & w' & E & Hq); [unfold Q; frame | exact Hw1 | eauto]. }
  destruct (Hh w Hs) as ([] & w' & E & Hq). eauto.
Qed.

(** X22.  A durable value survives a restart: after [set(k, v)] and [exit()] the
    ephemeral backend has lost the entry, and [restore()] in any later world
    whose durable backend still holds what [exit] left (a new state object,
    a new ephemeral backend) assigns [v] to the property and mirrors the
    entry back, for every value the codec reads back as it printed it. *)
Theorem durable_value_survives_restart
    (p : PermanentConfig) (k : string) (j : json) (w : world) :
  permanent this = Some p →
  k ∈ localStorageKeys p →
  json_parse (json_print j) = Some j →
  ∃ w1 w2, RevB.set this k (J j) w = Ok tt w1 ∧
           RevB.exit this None w1 = Ok tt w2 ∧
           sessionStorage w2 !! (P ++ k) = None ∧
           ∀ w3, localStorage w3 = localStorage w2 →
                 ∃ w4, RevB.restore this None w3 = Ok tt w4 ∧
                       store w4 !! k = Some (Plain (J j)) ∧
                       sessionStorage w4 !! (P ++ k) = Some (json_print j).
Proof.
  intros Hp Hk Hrt.
  destruct (set_value_lookups this k (J j) w) as (w1 & E1 & Hs1 & _); [discriminate|].
  assert (Hl1 : sessionStorage w1 !! (P ++ k) = Some (json_print j))
    by (rewrite Hs1; apply lookup_insert_eq).
  destruct (exit_moves_entry p k _ w1 Hp Hk Hl1) as (w2 & E2 & Hl2 & Hs2).
  exists w1, w2. split; [exact E1|]. split; [exact E2|]. split; [exact Hs2|].
  intros w3 Hw3.
  destruct (restore_durable_hoare p None k _ j Hp Hk Hrt (or_introl eq_refl) w3)
    as ([] & w4 & E4 & Hq); [rewrite Hw3; exact Hl2|]. eauto.
Qed.

(** ** An orchestrator's record that cannot be used *)

Lemma restore_unfold (p : PermanentConfig) (orch : option SessionStorage) (w : world) :
  permanent this = Some p →
  RevB.restore this orch w =
    match (forEach (localStorageKeys p) (RevB.restore_local_key this) ;;
           forEach (sessionStorageKeys p) (RevB.restore_session_key this)) w with
    | Ok _ w2 => RevB.restore_ido this p orch w2
    | Thrown e w2 => Thrown e w2
    end.
Proof.
  intros Hp. unfold RevB.restore. rewrite Hp. unfold bind.
  destruct (forEach (localStorageKeys p) (RevB.restore_local_key this) w); reflexivity.
Qed.

(** X23.  [restore(orchestrator)] when the orchestrator's record is missing, empty
    or the text [undefined]: exactly [restore()].  When the record does not
    parse, or parses to [null] (whose properties cannot be read): exactly
    [restore()] and one logged error.  In no case does the call throw. *)
Theorem restore_with_unusable_record
    (p : PermanentConfig) (o : SessionStorage) (w : world) :
  permanent this = Some p →
  ido p ≠ [] →
  (∀ s, localStorage w !! orchestratorIdoKey this o = Some s →
        s = "" ∨ s = "undefined" ∨ json_parse s = None ∨ json_parse s = Some JNull) →
  ∃ w', RevB.restore this None w = Ok tt w' ∧
        RevB.restore this (Some o) w =
          Ok tt (match localStorage w !! orchestratorIdoKey this o with
                 | None => w'
                 | Some s =>
                     if String.eqb s "" || String.eqb s "undefined" then w'
                     else emit Error_restore_orchestrator_ido w'
                 end).
Proof.
  intros Hp Hne Hrec. rewrite !(restore_unfold p _ w Hp).
  pose (R := fun w' : world => localStorage w' = localStorage w).
  destruct (hoare_bind R (fun _ => R) (fun _ => R)
              (forEach (localStorageKeys p) (RevB.restore_local_key this))
              (fun _ => forEach (sessionStorageKeys p) (RevB.restore_session_key this)))
    with (w := w) as ([] & w2 & E & Hw2).
  { apply hoare_forEach. intros y _. apply restore_local_key_frame; unfold R; frame. }
  { intros []. apply hoare_forEach. intros y _.
    apply restore_session_key_frame; unfold R; frame. }
  { reflexivity. }
  rewrite E, restore_ido_without_orchestrator. exists w2. split; [reflexivity|].
  unfold RevB.restore_ido. destruct (ido p) as [|[sp ip] rest]; [contradiction|].
  unfold try_catch, bind at 1, local_getItem, gets. unfold R in Hw2. rewrite Hw2.
  destruct (localStorage w !! orchestratorIdoKey this o) as [s|] eqn:Hs; [|reflexivity].
  unfold when, truthy.
  destruct (String.eqb_spec s "") as [->|Hempty]; [reflexivity|].
  destruct (String.eqb_spec s "undefined") as [->|Hundef]; [reflexivity|]. simpl.
  destruct (Hrec s eq_refl) as [->|[->|[Hbad|Hnull]]]; try contradiction.
  - unfold bind, JSON_parse. rewrite Hbad. reflexivity.
  - unfold bind at 1. unfold JSON_parse. rewrite Hnull. reflexivity.
Qed.

End RevB_restore_more.

(** * The derived key of the orchestrator's record *)

Lemma strip_trailing_dash_append (base : string) : strip_trailing_dash (base ++ "-") = base.
Proof.
  induction base as [|c base IH]; [reflexivity|].
  change (String c base ++ "-") with (String c (base ++ "-")).
  assert (Hstep : ∀ c s, s ≠ "" →
            strip_trailing_dash (String c s) = String c (strip_trailing_dash s)).
  { intros c0 [|c1 s] Hs; [congruence | reflexivity]. }
  rewrite Hstep, IH; [reflexivity|]. destruct base; discriminate.
Qed.

Lemma toLowerCase_append (a b : string) : toLowerCase (a ++ b) = toLowerCase a ++ toLowerCase b.
Proof. induction a as [|c a IH]; simpl; [reflexivity | rewrite IH; reflexivity]. Qed.

(** X24.  The record of a feature whose prefix is its name and a dash sits under
    the orchestrator's prefix, the name in lower case and [Ido]; so two
    features whose names differ only by ASCII case share one record. *)
Theorem ido_key_of_feature (name name' : string) (cfg cfg' : option PermanentConfig)
    (o : SessionStorage) :
  orchestratorIdoKey {| KEY_PREFIX := name ++ "-"; permanent := cfg |} o =
    KEY_PREFIX o ++ toLowerCase name ++ "Ido" ∧
  (toLowerCase name = toLowerCase name' →
   orchestratorIdoKey {| KEY_PREFIX := name ++ "-"; permanent := cfg |} o =
   orchestratorIdoKey {| KEY_PREFIX := name' ++ "-"; permanent := cfg' |} o).
Proof.
  unfold orchestratorIdoKey. simpl. rewrite !strip_trailing_dash_append.
  split; [reflexivity|]. intros ->. reflexivity.
Qed.

(** * Revision B: [set] on a value that cannot be encoded *)

Section RevB_set_order.
Context `{JSONCodec}.
Variable this : SessionStorage.

(** X25.  [set] writes a reactive cell before it serializes and assigns a plain
    property after: when [JSON.stringify] throws, a reactive cell has already
    received the value, a plain property has not, and no backend has been
    written in either case. *)
Theorem set_unencodable_reaches_cell_only (k : string) (w : world) :
  RevB.set this k Unencodable w =
    Thrown TypeError
      match store w !! k with
      | Some (Reactive initial written) =>
          set_store (insert k (Reactive initial (Unencodable :: written))) w
      | _ => w
      end.
Proof.
  unfold RevB.set. step_cmd. destruct (store w !! k) as [[i l|v]|]; reflexivity.
Qed.

End RevB_set_order.

(** * Revision A: more of [set], [restore] and [clear] *)

Section RevA_more.
Context `{JSONCodec}.
Variable this : SessionStorage.
Local Abbreviation P := (KEY_PREFIX this).

Lemma prefix_split (p s : string) :
  String.prefix p s = true → p ++ substring_from (String.length p) s = s.
Proof.
  revert s. induction p as [|c p IH]; intros s Hs; [reflexivity|].
  destruct s as [|c' s]; [discriminate|]. simpl in *.
  destruct (ascii_dec c c') as [->|]; [|discriminate].
  change (String c' (p ++ substring_from (String.length p) s) = String c' s).
  f_equal. apply IH, Hs.
Qed.

Lemma truthy_true (s : string) : truthy s = true ↔ s ≠ "".
Proof.
  unfold truthy. destruct (String.eqb_spec s ""); simpl; split; intros; congruence.
Qed.

(** X26.  [getStoredKeys()] lists a bare key exactly when the ephemeral backend has
    an entry under the prefix and that key, the empty namespaced key apart
    (it is falsy, and skipped). *)
Theorem getStoredKeys_lists_namespace (k : string) (w : world) :
  ∃ keys, RevA.getStoredKeys this w = Ok keys w ∧
          (k ∈ keys ↔ is_Some (sessionStorage w !! (P ++ k)) ∧ P ++ k ≠ "").
Proof.
  eexists. split; [reflexivity|].
  rewrite list_elem_of_fmap. split.
  - intros (key & -> & Hin). apply elem_of_filter_keys in Hin as [Hsome Hf].
    apply andb_prop in Hf as [Ht Hp]. unfold startsWith in Hp.
    rewrite (prefix_split _ _ Hp). split; [exact Hsome | apply truthy_true, Ht].
  - intros [Hsome Hne]. exists (P ++ k). split.
    + symmetry. apply substring_from_append.
    + apply elem_of_filter_keys. split; [exact Hsome|].
      apply andb_true_intro. split; [apply truthy_true, Hne | apply prefix_append].
Qed.

(** X27.  [clear()], which is also [removeAll()] and [exit]: every ephemeral entry
    under the prefix is gone, the entry under the empty key apart; every
    other entry, the state object and the durable backend are as before, and
    the number of removed entries (the keys that are not empty and start with
    the prefix) is logged. *)
Theorem ambient_clear_empties_namespace (orch : option SessionStorage) (w : world) :
  ∃ w', RevA.clear this w = Ok tt w' ∧
        RevA.exit this orch w = Ok tt w' ∧
        (∀ key, sessionStorage w' !! key =
                  if truthy key && startsWith key P then None else sessionStorage w !! key) ∧
        store w' = store w ∧
        localStorage w' = localStorage w ∧
        console w' =
          (console w ++
           [Log_cleared
              (length (List.filter (fun key => truthy key && startsWith key P)
                                   (Object_keys (sessionStorage w))))])%list.
Proof.
  unfold RevA.exit.
  pose (stored := (fun key => substring_from (String.length P) key) <$>
                 List.filter (fun key => truthy key && startsWith key P)
                             (Object_keys (sessionStorage w))).
  assert (Hstored : ∀ y, y ∈ stored →
            is_Some (sessionStorage w !! (P ++ y)) ∧
            (truthy (P ++ y) && startsWith (P ++ y) P) = true).
  { intros y Hy. apply list_elem_of_fmap in Hy as (key & -> & Hin).
    apply elem_of_filter_keys in Hin as [Hsome Hf]. pose proof Hf as Hf'.
    apply andb_prop in Hf' as [_ Hp]. unfold startsWith in Hp.
    rewrite (prefix_split _ _ Hp). auto. }
  pose (R := fun w' : world =>
    store w' = store w ∧ localStorage w' = localStorage w ∧ console w' = console w).
  assert (Hloop : ∀ (Q : world → Prop),
            (∀ w1 y, y ∈ stored → Q w1 → Q (set_session (delete (P ++ y)) w1)) →
            hoare Q (forEach stored (fun key => session_removeItem (P ++ key)))
                  (fun _ w1 => Q w1)).
  { intros Q HQ. apply hoare_forEach. intros y Hy w1 Hw1.
    eexists _, _. split; [reflexivity|]. apply HQ; assumption. }
  destruct (Hloop R) with (w := w) as ([] & w1 & E & Hst & Hl & Hc);
    [unfold R; frame | unfold R; auto |].
  assert (Eclear : RevA.clear this w = Ok tt (emit (Log_cleared (length stored)) w1)).
  { change (RevA.clear this w) with
      (match forEach stored (fun key => session_removeItem (P ++ key)) w with
       | Ok _ w' => Ok tt (emit (Log_cleared (length stored)) w')
       | Thrown e w' => Thrown e w'
       end).
    rewrite E. reflexivity. }
  eexists. split; [exact Eclear|]. split; [exact Eclear|]. simpl.
  split; [|split; [exact Hst | split; [exact Hl|]]];
    [|rewrite Hc; unfold stored; rewrite length_fmap; reflexivity].
  intros key.
  destruct (truthy key && startsWith key P) eqn:Hf.
  - destruct (sessionStorage w !! key) as [s|] eqn:Hs.
    + pose (Q := fun w2 : world => sessionStorage w2 !! key = None).
      assert (Hkey : P ++ substring_from (String.length P) key = key).
      { apply andb_prop in Hf as [_ Hp]. apply prefix_split, Hp. }
      refine (hoare_run (fun _ => True) (fun _ => Q) _ w w1 tt _ I E).
      apply (hoare_forEach_reach _ Q _ _ (substring_from (String.length P) key)).
      * apply list_elem_of_fmap. exists key. split; [reflexivity|].
        apply elem_of_filter_keys. rewrite Hs. eauto.
      * intros y _ _ w2 _. eexists _, _. split; [reflexivity | exact I].
      * intros w2 _. eexists _, _. split; [reflexivity|]. unfold Q. simpl.
        rewrite Hkey. apply lookup_delete_eq.
      * intros y _ _ w2 Hw2. eexists _, _. split; [reflexivity|]. unfold Q in *. simpl.
        rewrite lookup_delete. case_decide; [reflexivity | exact Hw2].
      * left. intros w2 Hw2. eexists _, _. split; [reflexivity|]. unfold Q in *. simpl.
        rewrite lookup_delete. case_decide; [reflexivity | exact Hw2].
    + refine (hoare_run (fun w2 => sessionStorage w2 !! key = None)
                (fun _ w2 => sessionStorage w2 !! key = None) _ w w1 tt _ Hs E).
      apply Hloop. intros w2 y _ Hw2. simpl.
      rewrite lookup_delete. case_decide; [reflexivity | exact Hw2].
  - refine (hoare_run (fun w2 => sessionStorage w2 !! key = sessionStorage w !! key)
              (fun _ w2 => sessionStorage w2 !! key = sessionStorage w !! key)
              _ w w1 tt _ eq_refl E).
    apply Hloop. intros w2 y Hy Hw2. simpl.
    destruct (Hstored y Hy) as [_ Hfy].
    rewrite lookup_delete_ne; [exact Hw2 | intros Heq; congruence].
Qed.

Lemma assoc_of_elem {V} (l : list (string * V)) (k : string) (v : V) :
  NoDup l.*1 → (k, v) ∈ l → assoc k l = Some v.
Proof.
  induction l as [|[k' v'] l IH]; simpl; intros Hnd Hin.
  - inversion Hin.
  - apply NoDup_cons in Hnd as [Hnotin Hnd].
    apply elem_of_cons in Hin as [[= <- <-]|Hin].
    + rewrite String.eqb_refl. reflexivity.
    + destruct (String.eqb_spec k' k) as [->|_]; [|auto].
      exfalso. apply Hnotin. apply list_elem_of_fmap. exists (k, v). auto.
Qed.

(** X28.  [set] on a shared property forwards the value to the ambient bag under
    the remote name, and [restore()] in any later world with that bag reads
    it back into the property: the hand-off of revision A.  The remote name
    is not empty (an empty one is falsy, and [set] would skip it). *)
Theorem ambient_set_then_restore_shared
    (p : PermanentConfig) (mapping : list (string * string)) (k remote : string)
    (j : json) (w : world) :
  permanent this = Some p →
  cfg_ido p = Some mapping →
  (k, remote) ∈ mapping →
  NoDup mapping.*1 →
  remote ≠ "" →
  ∃ w1, RevA.set this k (J j) w = Ok tt w1 ∧
        orchestrator_data w1 !! remote = Some (J j) ∧
        ∀ w2, orchestrator_data w2 = orchestrator_data w1 →
              ∃ w3, RevA.restore this w2 = Ok tt w3 ∧
                    container_value (store w3 !! k) = J j.
Proof.
  intros Hp Hm Hk Hnd Hremote.
  assert (Hset : ∃ w1, RevA.set this k (J j) w = Ok tt w1 ∧
                       orchestrator_data w1 !! remote = Some (J j)).
  { unfold RevA.set, RevA.handlePermanentStorage, RevA.setOrchestratorData.
    rewrite Hp, Hm, (assoc_of_elem mapping k remote Hnd Hk).
    apply truthy_true in Hremote. rewrite Hremote. step_cmd.
    destruct (store w !! k) as [[i l|v]|]; simpl;
      repeat case_match; try discriminate;
      eexists; (split; [reflexivity|]); simpl; apply lookup_insert_eq. }
  destruct Hset as (w1 & E1 & Hbag). exists w1. split; [exact E1|]. split; [exact Hbag|].
  intros w2 Hw2.
  apply (ambient_restore_shared_overrides_ephemeral this p mapping k remote (J j) w2 Hp Hm Hk Hnd);
    [rewrite Hw2; exact Hbag | discriminate].
Qed.

(** X29.  [restore()] in revision A starts from the state object, not from the
    configuration: without any configuration, every property with a valid
    ephemeral entry receives the parsed value (through the cell's write when
    it is reactive), and the call returns normally. *)
Theorem ambient_restore_hydrates_without_config (k s : string) (j : json) (w : world) :
  permanent this = None →
  is_Some (store w !! k) →
  sessionStorage w !! (P ++ k) = Some s →
  json_parse s = Some j →
  ∃ w', RevA.restore this w = Ok tt w' ∧
        store w' !! k = Some (assign_or_write (store w !! k) (J j)).
Proof.
  intros Hp Hin Hs Hj.
  pose (A := fun w' : world =>
    sessionStorage w' !! (P ++ k) = Some s ∧ store w' !! k = store w !! k).
  pose (Q := fun w' : world => store w' !! k = Some (assign_or_write (store w !! k) (J j))).
  assert (Hh : hoare A (RevA.restore this) (fun _ w' => Q w')).
  { unfold RevA.restore. rewrite Hp. intros w1 Hw1. unfold bind at 1. unfold gets at 1.
    assert (Hloop : ∃ (a : unit) w2,
              forEach (Object_keys (store w1)) (RevA.restore_store_key this) w1 = Ok a w2 ∧ Q w2).
    { apply (hoare_forEach_reach A Q _ _ k); [| | | | |exact Hw1].
      - apply elem_of_Object_keys. destruct Hw1 as [_ ->]. exact Hin.
      - intros y _ Hy. apply ambient_restore_store_key_frame; unfold A; frame.
      - intros w2 [H1 H2].
        destruct (ambient_restore_key_valid this k s j w2 H1 Hj) as [E _]. rewrite E.
        eexists _, _. split; [reflexivity|]. unfold Q. simpl.
        rewrite lookup_insert_eq, H2. reflexivity.
      - intros y _ Hy. apply ambient_restore_store_key_frame; unfold Q; frame.
      - right. apply NoDup_Object_keys. }
    destruct Hloop as ([] & w2 & E & Hq). unfold bind. rewrite E.
    eexists _, _. split; [reflexivity | exact Hq]. }
  destruct (Hh w) as ([] & w' & E & Hq); [split; [exact Hs | reflexivity]|]. eauto.
Qed.

End RevA_more.

(** * The scenario, continued *)

Section More_witnesses.
Import Scenario.
Local Existing Instance MiniJSON.codec.

Lemma ido_key_differs (fullKey : string) (orch : option SessionStorage) :
  orchestratorIdoKey auth orchestrator ≠ fullKey →
  orch = None ∨ orch = Some orchestrator →
  ∀ o, orch = Some o → orchestratorIdoKey auth o ≠ fullKey.
Proof. intros Hne [->| ->] o [= <-]. exact Hne. Qed.

Lemma exit_ephemeral_placement_witness :
  ∃ w', RevB.exit auth None working = Ok tt w' ∧
        sessionStorage w' !! "AUTH-phone" =
          if startsWith "AUTH-phone" (KEY_PREFIX auth) then
            let propertyKey := replace_first_with_empty (KEY_PREFIX auth) "AUTH-phone" in
            if includes (localStorageKeys config) propertyKey then None
            else if includes (sessionStorageKeys config) propertyKey
                 then sessionStorage working !! "AUTH-phone"
                 else None
          else sessionStorage working !! "AUTH-phone".
Proof.
  exact (exit_ephemeral_placement auth config None "AUTH-phone" working eq_refl).
Defined.

Lemma exit_durable_placement_witness :
  ∃ w', RevB.exit auth (Some orchestrator) working = Ok tt w' ∧
        localStorage w' !! "AUTH-login" =
          if startsWith "AUTH-login" (KEY_PREFIX auth)
             && includes (localStorageKeys config)
                  (replace_first_with_empty (KEY_PREFIX auth) "AUTH-login")
          then match sessionStorage working !! "AUTH-login" with
               | Some s => Some s
               | None => localStorage working !! "AUTH-login"
               end
          else localStorage working !! "AUTH-login".
Proof.
  refine (exit_durable_placement auth config (Some orchestrator) "AUTH-login" working eq_refl _).
  apply ido_key_differs; [vm_compute; discriminate | right; reflexivity].
Defined.

Lemma exit_releases_unconfigured_property_witness :
  ∃ w', RevB.exit auth None working = Ok tt w' ∧ store w' !! "draft" = None.
Proof.
  refine (exit_releases_unconfigured_property auth config None "draft" working eq_refl _ _);
    compute_done.
Defined.

Lemma exit_keeps_persisted_property_witness :
  ∃ w', RevB.exit auth (Some orchestrator) working = Ok tt w' ∧
        store w' !! "login" = store working !! "login".
Proof.
  refine (exit_keeps_persisted_property auth config (Some orchestrator) "login" working
            eq_refl _ _).
  - left. compute_done.
  - right. compute_done.
Defined.

Lemma removeAll_clears_namespace_witness :
  ∃ w', RevB.removeAll auth_unconfigured shared_backend = Ok tt w' ∧
        (permanent auth_unconfigured = None →
         RevB.exit auth_unconfigured None shared_backend = Ok tt w') ∧
        store w' = ∅ ∧
        (∀ key, sessionStorage w' !! key =
                  if startsWith key (KEY_PREFIX auth_unconfigured) then None
                  else sessionStorage shared_backend !! key) ∧
        localStorage w' = localStorage shared_backend ∧
        console w' = console shared_backend.
Proof.
  exact (removeAll_clears_namespace auth_unconfigured None shared_backend).
Defined.

Lemma get_falls_back_to_default_witness :
  ∃ w', RevB.get auth "phone" (J JNull) corrupted = Ok (nullish (J JNull) JS_null) w' ∧
        store w' = store corrupted ∧
        sessionStorage w' = sessionStorage corrupted ∧
        localStorage w' = localStorage corrupted.
Proof.
  refine (get_falls_back_to_default auth "phone" (J JNull) corrupted _).
  intros s Hs. vm_compute in Hs. injection Hs as <-. vm_compute. reflexivity.
Defined.

Lemma set_then_get_witness :
  ∃ w1 w2, RevB.set auth "login" (J login_token) seeded = Ok tt w1 ∧
           RevB.get auth "login" Undefined w1 = Ok (J login_token) w2 ∧
           container_value (store w2 !! "login") = J login_token ∧
           sessionStorage w2 !! (KEY_PREFIX auth ++ "login") = Some (json_print login_token).
Proof.
  refine (set_then_get auth "login" login_token Undefined seeded _).
  vm_compute. reflexivity.
Defined.

Lemma setAll_publishes_state_witness :
  ∃ w', RevB.setAll auth working = Ok tt w' ∧
        (∀ k v, store working !! k = Some (Plain v) →
                sessionStorage w' !! (KEY_PREFIX auth ++ k) = Some (stored_text v)) ∧
        (∀ fullKey, (∀ k, is_Some (store working !! k) → fullKey ≠ KEY_PREFIX auth ++ k) →
                    sessionStorage w' !! fullKey = sessionStorage working !! fullKey) ∧
        store w' = store working ∧
        localStorage w' = localStorage working.
Proof.
  refine (setAll_publishes_state auth working _).
  apply map_Forall_lookup, map_Forall_to_list. vm_compute.
  repeat constructor; eexists; (split; [reflexivity | discriminate]).
Defined.

Lemma setAll_throws_witness :
  ∃ w', RevB.setAll auth seeded = Thrown TypeError w' ∧
        store w' = store seeded ∧
        localStorage w' = localStorage seeded.
Proof.
  refine (setAll_throws auth "profile" (Reactive (J JNull) []) seeded _ _).
  - vm_compute. reflexivity.
  - left. reflexivity.
Defined.

Lemma init_publishes_ephemeral_witness :
  ∃ w', RevB.init auth None working = Ok tt w' ∧
        store w' = store working ∧
        sessionStorage w' !! (KEY_PREFIX auth ++ "profile") =
          if is_present (store working !! "profile") then
            match container_value (store working !! "profile") with
            | Unencodable => sessionStorage working !! (KEY_PREFIX auth ++ "profile")
            | v => Some (stored_text v)
            end
          else sessionStorage working !! (KEY_PREFIX auth ++ "profile").
Proof.
  refine (init_publishes_ephemeral auth config None "profile" working eq_refl _ _).
  - apply Forall_forall. vm_compute. repeat constructor.
  - compute_done.
Defined.

Lemma init_publishes_durable_witness :
  ∃ w', RevB.init auth (Some orchestrator) working = Ok tt w' ∧
        store w' = store working ∧
        localStorage w' !! (KEY_PREFIX auth ++ "login") =
          if is_present (store working !! "login") then
            match container_value (store working !! "login") with
            | Unencodable => localStorage working !! (KEY_PREFIX auth ++ "login")
            | v => Some (stored_text v)
            end
          else localStorage working !! (KEY_PREFIX auth ++ "login").
Proof.
  refine (init_publishes_durable auth config (Some orchestrator) "login" working eq_refl _ _ _).
  - apply Forall_forall. vm_compute. repeat constructor.
  - compute_done.
  - apply ido_key_differs; [vm_compute; discriminate | right; reflexivity].
Defined.

Lemma exit_hands_off_ephemeral_keys_only_witness :
  RevB.exit auth_durable_shared (Some orchestrator) working =
  RevB.exit auth_durable_shared None working.
Proof.
  refine (exit_hands_off_ephemeral_keys_only auth_durable_shared config_durable_shared
            orchestrator working eq_refl _).
  intros k Hk.
  assert (k = "login") as -> by (apply list_elem_of_singleton; exact Hk).
  compute_done.
Defined.

Lemma exit_hands_off_ephemeral_shared_witness :
  ∃ w' fs, RevB.exit auth (Some orchestrator) working = Ok tt w' ∧
           localStorage w' !! orchestratorIdoKey auth orchestrator =
             Some (json_print (JObj fs)) ∧
           assoc "userPhones" fs = Some phone_local.
Proof.
  refine (exit_hands_off_ephemeral_shared auth config orchestrator "phone" "userPhones"
            (MiniJSON.print phone_local) phone_local working eq_refl _ _ _ _ _ _ _).
  - compute_done.
  - compute_done.
  - compute_done.
  - compute_done.
  - vm_compute. reflexivity.
  - vm_compute. reflexivity.
  - discriminate.
Defined.

Lemma init_hands_off_shared_witness :
  ∃ w' fs, RevB.init auth (Some orchestrator) working = Ok tt w' ∧
           store w' = store working ∧
           localStorage w' !! orchestratorIdoKey auth orchestrator =
             Some (json_print (JObj fs)) ∧
           assoc "userPhones" fs = Some phone_local.
Proof.
  refine (init_hands_off_shared auth config orchestrator "phone" "userPhones" phone_local
            working eq_refl _ _ _ _ _ _).
  - apply Forall_forall. vm_compute. repeat constructor.
  - compute_done.
  - compute_done.
  - vm_compute. reflexivity.
  - vm_compute. reflexivity.
  - intros sp Hsp.
    assert (sp = "phone") as -> by (apply list_elem_of_singleton; exact Hsp).
    vm_compute. discriminate.
Defined.

Lemma init_hand_off_blocked_by_unencodable_witness :
  ∃ w', RevB.init auth None unencodable_phone = Ok tt w' ∧
        RevB.init auth (Some orchestrator) unencodable_phone =
          Ok tt (emit Error_init_storing_ido w').
Proof.
  refine (init_hand_off_blocked_by_unencodable auth config orchestrator "phone" "userPhones"
            unencodable_phone eq_refl _ _ _ _).
  - apply Forall_forall. vm_compute. repeat constructor.
  - compute_done.
  - compute_done.
  - vm_compute. reflexivity.
Defined.

Lemma restore_hydrates_durable_witness :
  ∃ w', RevB.restore auth None seeded = Ok tt w' ∧
        store w' !! "login" = Some (Plain (J login_token)) ∧
        sessionStorage w' !! (KEY_PREFIX auth ++ "login") = Some (MiniJSON.print login_token).
Proof.
  refine (restore_hydrates_durable auth config None "login" (MiniJSON.print login_token)
            login_token seeded eq_refl _ _ _ _).
  - compute_done.
  - vm_compute. reflexivity.
  - vm_compute. reflexivity.
  - left. reflexivity.
Defined.

Lemma durable_value_survives_restart_witness :
  ∃ w1 w2, RevB.set auth "login" (J login_token) seeded = Ok tt w1 ∧
           RevB.exit auth None w1 = Ok tt w2 ∧
           sessionStorage w2 !! (KEY_PREFIX auth ++ "login") = None ∧
           ∀ w3, localStorage w3 = localStorage w2 →
                 ∃ w4, RevB.restore auth None w3 = Ok tt w4 ∧
                       store w4 !! "login" = Some (Plain (J login_token)) ∧
                       sessionStorage w4 !! (KEY_PREFIX auth ++ "login") =
                         Some (json_print login_token).
Proof.
  refine (durable_value_survives_restart auth config "login" login_token seeded eq_refl _ _).
  - compute_done.
  - vm_compute. reflexivity.
Defined.

Lemma restore_with_unusable_record_witness :
  ∃ w', RevB.restore auth None corrupted_record = Ok tt w' ∧
        RevB.restore auth (Some orchestrator) corrupted_record =
          Ok tt (match localStorage corrupted_record !! orchestratorIdoKey auth orchestrator with
                 | None => w'
                 | Some s =>
                     if String.eqb s "" || String.eqb s "undefined" then w'
                     else emit Error_restore_orchestrator_ido w'
                 end).
Proof.
  refine (restore_with_unusable_record auth config orchestrator corrupted_record eq_refl _ _).
  - discriminate.
  - intros s Hs. vm_compute in Hs. injection Hs as <-.
    right. right. left. vm_compute. reflexivity.
Defined.

Lemma ido_key_of_feature_witness :
  orchestratorIdoKey {| KEY_PREFIX := "AUTH" ++ "-"; permanent := Some config |} orchestrator =
    KEY_PREFIX orchestrator ++ toLowerCase "AUTH" ++ "Ido" ∧
  orchestratorIdoKey {| KEY_PREFIX := "AUTH" ++ "-"; permanent := Some config |} orchestrator =
  orchestratorIdoKey {| KEY_PREFIX := "Auth" ++ "-"; permanent := None |} orchestrator.
Proof.
  destruct (ido_key_of_feature "AUTH" "Auth" (Some config) None orchestrator) as [Hkey Hsame].
  split; [exact Hkey | apply Hsame; reflexivity].
Defined.

Lemma ambient_set_then_restore_shared_witness :
  ∃ w1, RevA.set auth "phone" (J phones_ido) ambient_seeded = Ok tt w1 ∧
        orchestrator_data w1 !! "userPhones" = Some (J phones_ido) ∧
        ∀ w2, orchestrator_data w2 = orchestrator_data w1 →
              ∃ w3, RevA.restore auth w2 = Ok tt w3 ∧
                    container_value (store w3 !! "phone") = J phones_ido.
Proof.
  refine (ambient_set_then_restore_shared auth config [("phone", "userPhones")]
            "phone" "userPhones" phones_ido ambient_seeded eq_refl eq_refl _ _ _).
  - compute_done.
  - compute_done.
  - discriminate.
Defined.

Lemma ambient_restore_hydrates_without_config_witness :
  ∃ w', RevA.restore auth_unconfigured ambient_seeded = Ok tt w' ∧
        store w' !! "profile" =
          Some (assign_or_write (store ambient_seeded !! "profile") (J profile_1)).
Proof.
  refine (ambient_restore_hydrates_without_config auth_unconfigured "profile"
            (MiniJSON.print profile_1) profile_1 ambient_seeded eq_refl _ _ _).
  - vm_compute. eauto.
  - vm_compute. reflexivity.
  - vm_compute. reflexivity.
Defined.

Lemma serialization_error_surfaces_from_set_only_witness :
  (RevB.init_local_key auth "login" unencodable_login =
     Ok tt (emit (Error_init_storing_local "login") unencodable_login) ∧
   RevB.init_session_key auth "login" unencodable_login =
     Ok tt (emit (Error_init_storing_session "login") unencodable_login)) ∧
  RevB.init_ido auth config (Some orchestrator) unencodable_phone =
    Ok tt (emit Error_init_storing_ido unencodable_phone) ∧
  returns (RevB.init auth (Some orchestrator) unencodable_login).
Proof.
  split; [|split].
  - destruct (proj1 (proj2
      (serialization_error_surfaces_from_set_only auth "login" None unencodable_login))
      eq_refl) as (Hlocal & Hsession & _).
    split; [exact Hlocal | exact Hsession].
  - refine (proj2 (proj2 (proj1 (proj2
      (serialization_error_surfaces_from_set_only auth "phone" None unencodable_phone))
      eq_refl)) config orchestrator "userPhones" _ _ _).
    + compute_done.
    + compute_done.
    + apply Forall_forall. vm_compute. repeat constructor.
  - refine (proj1 (proj2 (proj2
      (serialization_error_surfaces_from_set_only auth "login" (Some orchestrator)
         unencodable_login))) _).
    intros q k' [= <-]. revert k'. apply Forall_forall. vm_compute. repeat constructor.
Defined.

Lemma shared_tier_needs_orchestrator_witness :
  returns (RevB.init auth None working).
Proof.
  refine (proj1 (proj2 (proj2 (proj2
    (shared_tier_needs_orchestrator auth config None working)))) _).
  intros q k' [= <-]. revert k'. apply Forall_forall. vm_compute. repeat constructor.
Defined.

Lemma init_throws_on_cell_witness :
  ∃ w', RevB.init auth None seeded = Thrown TypeError w' ∧ store w' = store seeded.
Proof.
  refine (init_throws_on_cell auth config None "profile" seeded eq_refl _ _).
  - right. compute_done.
  - reflexivity.
Defined.

End More_witnesses.
